(** * Shell-model placement of nucleons (build-a-nucleus, orbital shells)

    Shallow embedding of [js/chart-intro/model/ShellModelNucleus.ts] and of
    [EnergyLevelType.ts]: the capacity table, the row/slot index helpers, the
    slot tables of the nucleus, and the three operations that mutate them
    ([getParticleDestination], [removeParticleFromShell],
    [updateNucleonPositions]).

    JavaScript numbers that are only ever indices or counts are integers [Z].
    Exceptions are explicit: a call completes normally or throws. *)

From stdpp Require Import base numbers list strings gmap pretty.

Open Scope Z_scope.

(** ** Completions: normal return or thrown exception *)

Inductive Thrown : Type :=
| AssertionError (message : string)
| TypeError.

Inductive Completion (A : Type) : Type :=
| Normal (a : A)
| Throw (e : Thrown).
Arguments Normal {A} a.
Arguments Throw {A} e.

#[export] Instance Completion_ret : MRet Completion := @Normal.
#[export] Instance Completion_bind : MBind Completion :=
  fun A B f c => match c with Normal a => f a | Throw e => Throw e end.

(** [arr[i]] for a JavaScript number [i]: [undefined] outside the array. *)
Definition at_index {A : Type} (arr : list A) (i : Z) : option A :=
  if decide (0 ≤ i) then arr !! Z.to_nat i else None.

(** ** Numbers in template strings

    [`${n}`] is Number::toString of ECMAScript.  A Number is a double: an
    integer stands for the double nearest to it, which is the integer itself
    up to [Number.MAX_SAFE_INTEGER]. *)

(** [Number.isSafeInteger( n )] *)
Definition Number_isSafeInteger (n : Z) : Prop := Z.abs n ≤ 2 ^ 53 - 1.

(** The double nearest to a positive integer, ties to the even significand of
    53 bits; [None] is [Infinity]. *)
Definition nearestDouble (x : Z) : option Z :=
  let e := Z.log2 x - 52 in
  if decide (e ≤ 0) then Some x
  else
    let q := 2 ^ e in
    let m := x / q in
    let r := x mod q in
    let half := q / 2 in
    let m' := if decide (r < half) then m
              else if decide (half < r) then m + 1
              else if Z.even m then m else m + 1 in
    if decide (m' * q < 2 ^ 1024) then Some (m' * q) else None.

Definition decimalLength (x : Z) : Z := Z.of_nat (String.length (pretty x)).

(** The integers [s] and [n] of Number::toString for the double [v] of [n]
    decimal digits: [s] has as few digits [k] as possible such that
    [s * 10^(n - k)] reads back as [v], and is the closest such (the even one
    on a tie).  Tried for [k], [k + 1], ...; at [k = n] it is [v] itself. *)
Fixpoint shortestDigits (fuel : nat) (v n k : Z) : Z * Z :=
  match fuel with
  | O => (v, n)
  | S fuel' =>
      let p := 10 ^ (n - k) in
      let lo := v / p in
      let hi := lo + 1 in
      let okLo := bool_decide (nearestDouble (lo * p) = Some v) in
      let okHi := bool_decide (nearestDouble (hi * p) = Some v) in
      let up := if decide (hi = 10 ^ k) then (1, n + 1) else (hi, n) in
      if okLo && okHi then
        if decide (v - lo * p < hi * p - v) then (lo, n)
        else if decide (hi * p - v < v - lo * p) then up
        else if Z.even lo then (lo, n) else up
      else if okLo then (lo, n)
      else if okHi then up
      else shortestDigits fuel' v n (k + 1)
  end.

Definition zeros (count : Z) : string :=
  String.concat EmptyString (replicate (Z.to_nat count) "0"%string).

(** Up to 21 digits the digits of [s] are followed by zeros; from there on the
    exponent form is used. *)
Definition formatDigits (sn : Z * Z) : string :=
  let '(s, n) := sn in
  let digits := pretty s in
  if decide (n ≤ 21) then digits +:+ zeros (n - decimalLength s)
  else
    match digits with
    | String d EmptyString => String d EmptyString +:+ "e+" +:+ pretty (n - 1)
    | String d rest => String d EmptyString +:+ "." +:+ rest +:+ "e+" +:+ pretty (n - 1)
    | EmptyString => EmptyString
    end.

(** A safe integer prints its decimal digits. *)
Definition Number_toString (n : Z) : string :=
  if decide (Number_isSafeInteger n) then pretty n
  else
    (if decide (n < 0) then "-" else EmptyString) +:+
    match nearestDouble (Z.abs n) with
    | None => "Infinity"
    | Some v =>
        formatDigits (shortestDigits (Z.to_nat (decimalLength v) - 1) v (decimalLength v) 1)
    end.

Arguments Number_toString : simpl never.

(** ** EnergyLevelType.ts *)

Module EnergyLevelType.

Record t : Type := mk {
  n : Z;
  l : Z;
  j2 : Z;
  yPosition : Z;
  label : string
}.

Definition capacity (level : t) : Z := j2 level + 1.

Definition _1s1_2 := mk 1 0 1 0 "1s_{1/2}".
Definition _1p3_2 := mk 1 1 3 1 "1p_{3/2}".
Definition _1p1_2 := mk 1 1 1 2 "1p_{1/2}".
Definition _1d5_2 := mk 1 2 5 3 "1d_{5/2}".
Definition _2s1_2 := mk 2 0 1 4 "2s_{1/2}".
Definition _1d3_2 := mk 1 2 3 5 "1d_{3/2}".
Definition _1f7_2 := mk 1 3 7 6 "1f_{7/2}".
Definition _2p3_2 := mk 2 1 3 7 "2p_{3/2}".
Definition _1f5_2 := mk 1 3 5 8 "1f_{5/2}".
Definition _2p1_2 := mk 2 1 1 9 "2p_{1/2}".

Definition ENERGY_LEVELS : list t :=
  [ _1s1_2; _1p3_2; _1p1_2; _1d5_2; _2s1_2;
    _1d3_2; _1f7_2; _2p3_2; _1f5_2; _2p1_2 ].

End EnergyLevelType.

Abbreviation capacity := EnergyLevelType.capacity.

(** ** Particles and slots *)

(** The four values of ParticleTypeEnum used by the callers. *)
Inductive ParticleTypeEnum : Type := PROTON | NEUTRON | ELECTRON | POSITRON.

#[export] Instance ParticleTypeEnum_eq_dec : EqDecision ParticleTypeEnum.
Proof. solve_decision. Defined.

(** A particle is an object compared by identity ([===]); its type never
    changes.  Identity is the record itself. *)
Module Particle.
Record t : Type := mk { id : nat; type : ParticleTypeEnum }.
#[export] Instance eq_dec : EqDecision t.
Proof. solve_decision. Defined.
End Particle.
Export (hints) Particle.

Record ParticleShellPosition : Type := {
  particle : option Particle.t;
  xPosition : Z;
  type : ParticleTypeEnum
}.

(** [ParticleShellPosition[][]]: rows of slots. *)
Abbreviation ShellPositions := (list (list ParticleShellPosition)).

Record ShellModelNucleus : Type := {
  protonShellPositions : ShellPositions;
  neutronShellPositions : ShellPositions
}.

(** The two slot tables are objects owned by the nucleus;
    [updateNucleonPositions] receives one of them by reference. *)
Inductive ShellPositionsRef : Type := ProtonShells | NeutronShells.

#[export] Instance ShellPositionsRef_eq_dec : EqDecision ShellPositionsRef.
Proof. solve_decision. Defined.

Definition deref (ref : ShellPositionsRef) (nucleus : ShellModelNucleus) : ShellPositions :=
  match ref with
  | ProtonShells => protonShellPositions nucleus
  | NeutronShells => neutronShellPositions nucleus
  end.

Definition assign (ref : ShellPositionsRef) (table : ShellPositions)
    (nucleus : ShellModelNucleus) : ShellModelNucleus :=
  match ref with
  | ProtonShells =>
      {| protonShellPositions := table;
         neutronShellPositions := neutronShellPositions nucleus |}
  | NeutronShells =>
      {| protonShellPositions := protonShellPositions nucleus;
         neutronShellPositions := table |}
  end.

(** [getNucleonShellPositions]: the neutron table for neutrons, the proton
    table for everything else. *)
Definition getNucleonShellPositions (particleType : ParticleTypeEnum) : ShellPositionsRef :=
  match particleType with
  | NEUTRON => NeutronShells
  | _ => ProtonShells
  end.

(** [pos.particle = value] on one slot object. *)
Definition setParticle (value : option Particle.t) (pos : ParticleShellPosition) :
    ParticleShellPosition :=
  {| particle := value; xPosition := xPosition pos; type := type pos |}.

(** The view layer (ModelViewTransform2, Vector2 and the layout constant of
    BANConstants) is outside the model; it is an interface here. *)
Class ViewLayer : Type := {
  Vector2 : Type;
  modelToViewXY : Z → Z → Vector2;
  addXY : Vector2 → Z → Z → Vector2;
  X_DISTANCE_BETWEEN_ENERGY_LEVELS : Z
}.

Section ShellModel.

(** [ENERGY_LEVELS] of ShellModelNucleus.ts (the table of EnergyLevelType,
    filtered of undefined entries, of which it has none). *)
Variable ENERGY_LEVELS : list EnergyLevelType.t.

(** The global [assert]: a function when assertions are enabled, falsy
    otherwise, so that [assert && assert( c, m )] throws only when enabled. *)
Variable assertEnabled : bool.

Context `{view : ViewLayer}.

Definition assert_ (condition : bool) (message : string) : Completion unit :=
  if assertEnabled && negb condition then Throw (AssertionError message) else Normal ().

(** The module-level assertion on the table (lines 49-52). *)
Definition levels_valid : Prop :=
  ENERGY_LEVELS ≠ [] ∧ Forall (fun level => 0 < capacity level) ENERGY_LEVELS.

Definition TOTAL_CAPACITY : Z :=
  foldl (fun s level => s + capacity level) 0 ENERGY_LEVELS.

(** [Array.from( { length: level.capacity }, ( _, i ) => i )] per level. *)
Definition ALLOWED_PARTICLE_POSITIONS : list (list Z) :=
  map (fun level => Z.of_nat <$> seq 0 (Z.to_nat (capacity level))) ENERGY_LEVELS.

(** [for ( let i = 0; i < rowIndex; i++ ) sum += ENERGY_LEVELS[ i ].capacity] *)
Fixpoint getCapacityBelowRow_for (iterations : nat) (i : nat) (sum : Z) : Completion Z :=
  match iterations with
  | O => Normal sum
  | S iterations' =>
      match ENERGY_LEVELS !! i with
      | None => Throw TypeError
      | Some level => getCapacityBelowRow_for iterations' (S i) (sum + capacity level)
      end
  end.

Definition getCapacityBelowRow (rowIndex : Z) : Completion Z :=
  getCapacityBelowRow_for (Z.to_nat rowIndex) 0 0.

(** The loop of [getRowIndexForGlobalIndex] over the levels from index [i]
    on; [None] when the loop runs to its end without returning. *)
Fixpoint getRowIndexForGlobalIndex_for (levels : list EnergyLevelType.t) (i : Z) (r : Z) :
    option Z :=
  match levels with
  | [] => None
  | level :: levels' =>
      let r := r - capacity level in
      if decide (r < 0) then Some i
      else getRowIndexForGlobalIndex_for levels' (i + 1) r
  end.

Definition getRowIndexForGlobalIndex (index0Based : Z) : Completion Z :=
  match getRowIndexForGlobalIndex_for ENERGY_LEVELS 0 index0Based with
  | Some i => Normal i
  | None =>
      _ ← assert_ false ("index out of supported range: " +:+ Number_toString index0Based);
      Normal (Z.of_nat (length ENERGY_LEVELS) - 1)
  end.

Fixpoint getReachedRowIndexForCount_for (levels : list EnergyLevelType.t) (i : Z)
    (safeCount running : Z) : option Z :=
  match levels with
  | [] => None
  | level :: levels' =>
      let running := running + capacity level in
      if decide (safeCount ≤ running) then Some i
      else getReachedRowIndexForCount_for levels' (i + 1) safeCount running
  end.

Definition getReachedRowIndexForCount (nucleonCount : Z) : Z :=
  let safeCount := Z.max 0 nucleonCount in
  match getReachedRowIndexForCount_for ENERGY_LEVELS 0 safeCount 0 with
  | Some i => i
  | None => Z.of_nat (length ENERGY_LEVELS) - 1
  end.

(** The [while ( r >= 0 )] loop of [getLocalXIndex]; [iterations] is [r + 1]. *)
Fixpoint getLocalXIndex_while (iterations : nat) (indexForRow : Z) : Completion Z :=
  match iterations with
  | O => Normal indexForRow
  | S r =>
      match ALLOWED_PARTICLE_POSITIONS !! r with
      | None => Throw TypeError
      | Some row => getLocalXIndex_while r (indexForRow - Z.of_nat (length row))
      end
  end.

(** The result is [undefined] ([None]) when [indexForRow] is not an index
    of the row. *)
Definition getLocalXIndex (globalIndex rowIndex : Z) : Completion (option Z) :=
  indexForRow ← getLocalXIndex_while (Z.to_nat rowIndex) globalIndex;
  match at_index ALLOWED_PARTICLE_POSITIONS rowIndex with
  | None => Throw TypeError
  | Some row => Normal (at_index row indexForRow)
  end.

(** The constructor: one slot per allowed position, no occupant. *)
Definition initialShellPositions (particleType : ParticleTypeEnum) : ShellPositions :=
  map (map (fun x => {| particle := None; xPosition := x; type := particleType |}))
      ALLOWED_PARTICLE_POSITIONS.

Definition constructor : ShellModelNucleus :=
  {| protonShellPositions := initialShellPositions PROTON;
     neutronShellPositions := initialShellPositions NEUTRON |}.

(** *** getParticleDestination *)

(** [row.filter( p => p !== undefined ).find( p => p.particle === undefined )]:
    the slot object found, with its place in the row. *)
Definition findOpenPosition (row : list ParticleShellPosition) :
    option (nat * ParticleShellPosition) :=
  list_find (fun pos => particle pos = None) row.

Definition getParticleDestination (particleType : ParticleTypeEnum) (p : Particle.t)
    (nucleus : ShellModelNucleus) : Completion (Vector2 * ShellModelNucleus) :=
  let ref := getNucleonShellPositions particleType in
  let nucleonShellPositions := deref ref nucleus in
  let openPositionsByRow := map findOpenPosition nucleonShellPositions in
  let openShellPosition := list_find (fun pos => is_Some pos) openPositionsByRow in
  _ ← assert_ (bool_decide (is_Some openShellPosition))
        "To add a particle there must be an empty particleShellPosition.";
  match openShellPosition with
  | Some (rowIndex, Some (x, pos)) =>
      let table :=
        alter (fun row => <[x := setParticle (Some p) pos]> row) rowIndex
              nucleonShellPositions in
      let viewDestination := modelToViewXY (xPosition pos) (Z.of_nat rowIndex) in
      let viewDestination :=
        addXY viewDestination
              (if decide (particleType = NEUTRON) then X_DISTANCE_BETWEEN_ENERGY_LEVELS else 0)
              0 in
      Normal (viewDestination, assign ref table nucleus)
  | _ => Throw TypeError
  end.

(** *** removeParticleFromShell *)

Definition removeParticleFromShell (p : Particle.t) (nucleus : ShellModelNucleus) :
    ShellModelNucleus :=
  let ref := getNucleonShellPositions (Particle.type p) in
  assign ref
    (map (map (fun pos =>
                 if decide (particle pos = Some p) then setParticle None pos else pos))
         (deref ref nucleus))
    nucleus.

(** *** updateNucleonPositions *)

(** [ENERGY_LEVELS.reduce( ( bestIdx, level, idx ) =>
      level.capacity > ENERGY_LEVELS[ bestIdx ].capacity ? idx : bestIdx, 0 )],
    from element [idx] on. *)
Fixpoint widestRowIndex_reduce (levels : list EnergyLevelType.t) (idx bestIdx : nat) :
    Completion nat :=
  match levels with
  | [] => Normal bestIdx
  | level :: levels' =>
      match ENERGY_LEVELS !! bestIdx with
      | None => Throw TypeError
      | Some best =>
          widestRowIndex_reduce levels' (S idx)
            (if decide (capacity level > capacity best) then idx else bestIdx)
      end
  end.

Definition widestRowIndex : Completion nat :=
  widestRowIndex_reduce ENERGY_LEVELS 0 0.

(** [rowWidth] reads [widestRowPositions.length]: a TypeError when the row is
    undefined.  The width itself is a view length that only the disabled
    binding effect would use; it is not kept. *)
Definition rowWidth : Completion unit :=
  widest ← widestRowIndex;
  match ALLOWED_PARTICLE_POSITIONS !! widest with
  | None => Throw TypeError
  | Some widestRowPositions => Normal ()
  end.

(** First loop: the particles remembered in [incomingParticles], in the order
    the slots are visited. *)
Definition rememberIncoming (particleArray : list Particle.t)
    (pos : ParticleShellPosition) : list Particle.t :=
  match particle pos with
  | Some p => if decide (p ∈ particleArray) then [] else [p]
  | None => []
  end.

Definition incomingParticlesOf (particleArray : list Particle.t)
    (table : ShellPositions) : list Particle.t :=
  row ← table; pos ← row; rememberIncoming particleArray pos.

(** First loop: every slot is emptied. *)
Definition clearSlots (table : ShellPositions) : ShellPositions :=
  map (map (setParticle None)) table.

(** [particleShellPositions[ rowIndex ][ xIndex ].particle = particle];
    a TypeError when the slot object is undefined. *)
Definition placeAt (rowIndex : Z) (xIndex : option Z) (p : Particle.t)
    (table : ShellPositions) : Completion ShellPositions :=
  match at_index table rowIndex with
  | None => Throw TypeError
  | Some row =>
      match xIndex with
      | None => Throw TypeError
      | Some x =>
          match at_index row x with
          | None => Throw TypeError
          | Some shellPos =>
              Normal (<[Z.to_nat rowIndex :=
                         <[Z.to_nat x := setParticle (Some p) shellPos]> row]> table)
          end
      end
  end.

(** Second loop: [particleArray.forEach( ( particle, index ) => ... )], from
    [index] on.  The animation destination and [inputEnabled] written to the
    particle are not part of the slot tables; [reachedRowIndex] and [xOffset]
    enter only that destination. *)
Fixpoint placeCounted (particles : list Particle.t) (index : Z)
    (table : ShellPositions) : Completion ShellPositions :=
  match particles with
  | [] => Normal table
  | p :: particles' =>
      rowIndex ← getRowIndexForGlobalIndex index;
      xIndex ← getLocalXIndex index rowIndex;
      table ← placeAt rowIndex xIndex p table;
      placeCounted particles' (index + 1) table
  end.

(** The list [placed] of the duplicate check. *)
Definition placedParticles (incomingParticles : list Particle.t)
    (table : ShellPositions) : list Particle.t :=
  filter (fun p => p ∉ incomingParticles) (omap particle (concat table)).

(** Third loop: each remembered particle reserves the next open slot of the
    table of its own type. *)
Fixpoint restoreReservations (incomingParticles : list Particle.t)
    (nucleus : ShellModelNucleus) : Completion ShellModelNucleus :=
  match incomingParticles with
  | [] => Normal nucleus
  | p :: incomingParticles' =>
      '(_, nucleus) ← getParticleDestination (Particle.type p) p nucleus;
      restoreReservations incomingParticles' nucleus
  end.

Definition updateNucleonPositions (particleArray : list Particle.t)
    (particleShellPositions : ShellPositionsRef) (nucleus : ShellModelNucleus) :
    Completion ShellModelNucleus :=
  let table := deref particleShellPositions nucleus in
  let incomingParticles := incomingParticlesOf particleArray table in
  _ ← rowWidth;
  table ← placeCounted particleArray 0 (clearSlots table);
  _ ← assert_ (bool_decide (NoDup (placedParticles incomingParticles table)))
        "There are duplicate particles in particleShellPositions.";
  restoreReservations incomingParticles (assign particleShellPositions table nucleus).

End ShellModel.

(** ** The rest of ShellModelNucleus.ts and EnergyLevelType.ts *)

(** The double-quote character of the assertion messages. *)
Definition doubleQuote : string := String (Ascii.ascii_of_nat 34) EmptyString.

Section ShellModelRest.

Variable ENERGY_LEVELS : list EnergyLevelType.t.
Variable assertEnabled : bool.
Context `{view : ViewLayer}.

(** *** EnergyLevelType.getForIndex *)

Fixpoint getForIndex_for (levels : list EnergyLevelType.t) (r : Z) :
    option EnergyLevelType.t :=
  match levels with
  | [] => None
  | level :: levels' =>
      let r := r - capacity level in
      if decide (r < 0) then Some level else getForIndex_for levels' r
  end.

(** The result is [undefined] ([None]) only when the table is empty and the
    assertion is disabled. *)
Definition getForIndex (index0Based : Z) : Completion (option EnergyLevelType.t) :=
  match getForIndex_for ENERGY_LEVELS index0Based with
  | Some level => Normal (Some level)
  | None =>
      _ ← assert_ assertEnabled false
            ("index out of supported range: " +:+ Number_toString index0Based);
      Normal (at_index ENERGY_LEVELS (Z.of_nat (length ENERGY_LEVELS) - 1))
  end.

(** *** sumCapByLabels and the major-shell capacities *)

(** [ENERGY_LEVELS.forEach( l => capMap.set( l.label, l.capacity ) )] *)
Definition capMap : gmap string Z :=
  foldl (fun m level => <[EnergyLevelType.label level := capacity level]> m) ∅ ENERGY_LEVELS.

(** [labels.forEach( label => ... sum += cap || 0 )] *)
Fixpoint sumCapByLabels_forEach (labels : list string) (sum : Z) : Completion Z :=
  match labels with
  | [] => Normal sum
  | label :: labels' =>
      let cap := capMap !! label in
      _ ← assert_ assertEnabled (bool_decide (is_Some cap))
            ("Missing orbital " +:+ doubleQuote +:+ label +:+ doubleQuote
             +:+ " in EnergyLevelType.ENERGY_LEVELS");
      sumCapByLabels_forEach labels' (sum + default 0 cap)
  end.

Definition sumCapByLabels (labels : list string) : Completion Z :=
  sumCapByLabels_forEach labels 0.

Definition N_ZERO_CAPACITY : Completion Z := sumCapByLabels [ "1s_{1/2}" ].
Definition N_ONE_CAPACITY : Completion Z := sumCapByLabels [ "1p_{3/2}"; "1p_{1/2}" ].
Definition N_TWO_CAPACITY : Completion Z :=
  sumCapByLabels [ "1d_{5/2}"; "2s_{1/2}"; "1d_{3/2}" ].
Definition N_THREE_CAPACITY : Completion Z :=
  sumCapByLabels [ "1f_{7/2}"; "2p_{3/2}"; "1f_{5/2}"; "2p_{1/2}" ].

(** *** Geometry constants *)

(** [Math.max( ...xs )]; [None] is [-Infinity], the value for no argument. *)
Definition Math_max (xs : list Z) : option Z :=
  foldr (fun x acc => Some (from_option (Z.max x) x acc)) None xs.

Definition MAX_LEVEL_CAPACITY : option Z := Math_max (map capacity ENERGY_LEVELS).

Definition NUMBER_OF_ENERGY_LEVELS : Z := Z.of_nat (length ENERGY_LEVELS).

Definition NUMBER_OF_Y_SPACINGS : Z := Z.max 0 (NUMBER_OF_ENERGY_LEVELS - 1).

(** [Math.max( 1, MAX_LEVEL_CAPACITY - 1 )], which is 1 for [-Infinity]. *)
Definition NUMBER_OF_RADII_SPACES_BETWEEN_PARTICLES : Z :=
  match MAX_LEVEL_CAPACITY with
  | Some m => Z.max 1 (m - 1)
  | None => 1
  end.

(** *** getLastParticleInShell *)

(** [for ( let x = nucleonShellRow.length - 1; x >= 0; x-- )]; the argument is
    [x + 1]. *)
Fixpoint getLastParticleInShell_row (nucleonShellRow : list ParticleShellPosition)
    (iterations : nat) : option Particle.t :=
  match iterations with
  | O => None
  | S x =>
      match nucleonShellRow !! x ≫= particle with
      | Some p => Some p
      | None => getLastParticleInShell_row nucleonShellRow x
      end
  end.

(** [for ( let row = nucleonShellPositions.length - 1; row >= 0; row-- )]; the
    argument is [row + 1], so that [nucleonShellPositions[ row ]] is defined. *)
Fixpoint getLastParticleInShell_rows (nucleonShellPositions : ShellPositions)
    (iterations : nat) : option Particle.t :=
  match iterations with
  | O => None
  | S row =>
      let nucleonShellRow := default [] (nucleonShellPositions !! row) in
      match getLastParticleInShell_row nucleonShellRow (length nucleonShellRow) with
      | Some p => Some p
      | None => getLastParticleInShell_rows nucleonShellPositions row
      end
  end.

Definition getLastParticleInShell (particleType : ParticleTypeEnum)
    (nucleus : ShellModelNucleus) : option Particle.t :=
  let nucleonShellPositions := deref (getNucleonShellPositions particleType) nucleus in
  getLastParticleInShell_rows nucleonShellPositions (length nucleonShellPositions).

(** *** clearAllShellPositionParticles *)

Definition clearAllShellPositionParticles (nucleonShellPositions : ShellPositions) :
    ShellPositions :=
  map (map (fun pos => if particle pos is Some _ then setParticle None pos else pos))
      nucleonShellPositions.

(** *** reconfigureNucleus

    [this.protons] and [this.neutrons] are the arrays of ParticleAtom; they are
    arguments here. *)
Definition reconfigureNucleus (protons neutrons : list Particle.t)
    (nucleus : ShellModelNucleus) : Completion ShellModelNucleus :=
  nucleus ← updateNucleonPositions ENERGY_LEVELS assertEnabled protons ProtonShells nucleus;
  updateNucleonPositions ENERGY_LEVELS assertEnabled neutrons NeutronShells nucleus.

End ShellModelRest.

(** ** NucleonShellView.ts: the fill level of the shell lines *)

Module NucleonShellView.

Definition boldEnergyLevelWidth : Z := 4.
Definition defaultEnergyLevelWidth : Z := 1.

(** [nucleonShellPositions.map( row => row.filter( p => p !== undefined ).length )] *)
Definition rowCapacities (nucleonShellPositions : ShellPositions) : list Z :=
  map (fun row => Z.of_nat (length row)) nucleonShellPositions.

Definition countParticlesInShell (nucleonShellPositions : ShellPositions) : Z :=
  foldl (fun total row =>
           foldl (fun total pos => if particle pos is Some _ then total + 1 else total)
                 total row)
        0 nucleonShellPositions.

(** What the listener sets on one line: [filled] of [cap] slots (the stroke is
    the colour interpolated at [filled / cap]) and the line width. *)
Record LineState : Type := { filled : Z; cap : Z; lineWidth : Z }.

(** The loop of the listener of [nucleonCountProperty], from [rowIndex] on. *)
Fixpoint updateLines_for (assertEnabled : bool) (rowCapacities : list Z)
    (rowIndex : Z) (remaining : Z) : Completion (list LineState) :=
  match rowCapacities with
  | [] => Normal []
  | cap :: rowCapacities' =>
      _ ← assert_ assertEnabled (bool_decide (cap > 0))
            ("Row " +:+ Number_toString rowIndex +:+ " has non-positive capacity.");
      let filled := Z.max 0 (Z.min cap remaining) in
      let line :=
        {| filled := filled; cap := cap;
           lineWidth := if decide (filled = cap) then boldEnergyLevelWidth
                        else defaultEnergyLevelWidth |} in
      lines ← updateLines_for assertEnabled rowCapacities' (rowIndex + 1) (remaining - cap);
      Normal (line :: lines)
  end.

(** [rowCapacities] is computed once, from the table as it is when the view
    is built ([built]); the listener counts the particles of the table as it
    is when it runs ([nucleonShellPositions], the same array later on). *)
Definition updateLines (assertEnabled : bool) (built nucleonShellPositions : ShellPositions) :
    Completion (list LineState) :=
  updateLines_for assertEnabled (rowCapacities built) 0
    (countParticlesInShell nucleonShellPositions).

End NucleonShellView.

(** ** Notions used to state the properties *)

Definition sumZ (xs : list Z) : Z := foldr Z.add 0 xs.

(** [sum(capacity[0..k-1])]: the capacity of the first [k] rows. *)
Definition cumulativeCapacity (levels : list EnergyLevelType.t) (k : nat) : Z :=
  sumZ (take k (map capacity levels)).

(** The capacity of row [r], [0] when there is no such row. *)
Definition rowCapacity (levels : list EnergyLevelType.t) (r : nat) : Z :=
  default 0 (capacity <$> levels !! r).

(** The occupants of a table, row by row and slot by slot. *)
Definition occupants (table : ShellPositions) : list (option Particle.t) :=
  map particle (concat table).

(** A table has the shape the constructor gives it: the slots of row [r] are
    the allowed positions of row [r], in order. *)
Definition wf_table (levels : list EnergyLevelType.t) (table : ShellPositions) : Prop :=
  map (map xPosition) table = ALLOWED_PARTICLE_POSITIONS levels.

(** The (row, slot) coordinates of the occupied slots, in row-major order. *)
Definition filledInRow (rowIndex : nat) (row : list ParticleShellPosition) : list (Z * Z) :=
  omap (fun pos => if particle pos is Some _ then Some (Z.of_nat rowIndex, xPosition pos) else None)
       row.

Definition filledPositions (table : ShellPositions) : list (Z * Z) :=
  concat (imap filledInRow table).

(** The first empty entry of a flat list of occupants receives [p]. *)
Fixpoint fill_first (p : Particle.t) (os : list (option Particle.t)) :
    option (list (option Particle.t)) :=
  match os with
  | [] => None
  | None :: os' => Some (Some p :: os')
  | Some q :: os' => cons (Some q) <$> fill_first p os'
  end.

(** The empty entries receive the particles [ps], in order. *)
Fixpoint fill_all (ps : list Particle.t) (os : list (option Particle.t)) :
    option (list (option Particle.t)) :=
  match ps, os with
  | [], _ => Some os
  | _ :: _, [] => None
  | p :: ps', None :: os' => cons (Some p) <$> fill_all ps' os'
  | _ :: _, Some q :: os' => cons (Some q) <$> fill_all ps os'
  end.

(** The slot chosen by [getParticleDestination], when there is one. *)
Definition openShellPositionOf (table : ShellPositions) :
    option (nat * option (nat * ParticleShellPosition)) :=
  list_find (fun pos => is_Some pos) (map findOpenPosition table).

(** [removeParticleFromShell] on one occupant. *)
Definition release (p : Particle.t) (o : option Particle.t) : option Particle.t :=
  if decide (o = Some p) then None else o.

(** The remembered particles that reserve in table [ref]. *)
Definition reservedFor (ref : ShellPositionsRef) (ps : list Particle.t) : list Particle.t :=
  filter (fun p => getNucleonShellPositions (Particle.type p) = ref) ps.

(** The occupants of the two tables once the counted particles are placed in
    table [ref], before the reservations are restored. *)
Definition countedOccupants (levels : list EnergyLevelType.t) (arr : list Particle.t)
    (ref : ShellPositionsRef) (s : ShellModelNucleus) (ref' : ShellPositionsRef) :
    list (option Particle.t) :=
  if decide (ref' = ref)
  then map Some arr ++ replicate (Z.to_nat (TOTAL_CAPACITY levels) - length arr) None
  else occupants (deref ref' s).

(** The particles that occupy a slot of the table, in row-major order. *)
Definition slotOccupants (table : ShellPositions) : list Particle.t :=
  omap id (occupants table).

(** Whether a slot is occupied. *)
Definition occupied (o : option Particle.t) : bool :=
  if o is Some _ then true else false.

(** The slot at row [r] and place [x] of a table. *)
Definition slotAt (table : ShellPositions) (r x : nat) : option ParticleShellPosition :=
  table !! r ≫= (.!! x).

(** The states of the slot tables that the operations reach from the
    constructor, each operation completing normally. *)
Inductive reachable (levels : list EnergyLevelType.t) (assertEnabled : bool)
    `{view : ViewLayer} : ShellModelNucleus → Prop :=
| reachable_constructor :
    reachable levels assertEnabled (constructor levels)
| reachable_getParticleDestination particleType p s d s' :
    reachable levels assertEnabled s →
    getParticleDestination assertEnabled particleType p s = Normal (d, s') →
    reachable levels assertEnabled s'
| reachable_removeParticleFromShell p s :
    reachable levels assertEnabled s →
    reachable levels assertEnabled (removeParticleFromShell p s)
| reachable_updateNucleonPositions arr ref s s' :
    reachable levels assertEnabled s →
    updateNucleonPositions levels assertEnabled arr ref s = Normal s' →
    reachable levels assertEnabled s'.

(** A plain layout for concrete runs: view coordinates are model coordinates. *)
Definition gridView : ViewLayer :=
  {| Vector2 := Z * Z;
     modelToViewXY := fun x y => (x, y);
     addXY := fun v dx dy => (v.1 + dx, v.2 + dy);
     X_DISTANCE_BETWEEN_ENERGY_LEVELS := 256 |}.

Definition proton (k : nat) : Particle.t := Particle.mk k PROTON.

(** A nucleus whose proton table holds [p] at row [r], place [x]. *)
Definition withProton (r x : nat) (p : Particle.t) (s : ShellModelNucleus) :
    ShellModelNucleus :=
  assign ProtonShells
    (alter (alter (setParticle (Some p)) x) r (protonShellPositions s)) s.

(** Proton 8 waits in slot (0, 1); slot (0, 0) is free again. *)
Definition reservedExample : ShellModelNucleus :=
  withProton 0 1 (proton 8) (constructor EnergyLevelType.ENERGY_LEVELS).

(** Protons 1, 2 and 3 fill row 0 and slot (1, 0); the first free proton slot
    is (1, 1). *)
Definition populatedExample : ShellModelNucleus :=
  withProton 1 0 (proton 3)
    (withProton 0 1 (proton 2)
       (withProton 0 0 (proton 1) (constructor EnergyLevelType.ENERGY_LEVELS))).

(** The nucleus after [updateNucleonPositions] with 40 protons: no proton
    slot is free. *)
Definition fullExample : ShellModelNucleus :=
  match updateNucleonPositions EnergyLevelType.ENERGY_LEVELS true (view := gridView)
          (map proton (seq 0 40)) ProtonShells
          (constructor EnergyLevelType.ENERGY_LEVELS) with
  | Normal s => s
  | Throw _ => constructor EnergyLevelType.ENERGY_LEVELS
  end.

(** ** The capacity table: rows, cumulative capacities, local indices *)

Section LevelFacts.

Variable levels : list EnergyLevelType.t.

Lemma foldl_capacity_sum (ls : list EnergyLevelType.t) (acc : Z) :
  foldl (fun s level => s + capacity level) acc ls = acc + sumZ (map capacity ls).
Proof.
  revert acc. induction ls as [|level ls IH]; intros acc; simpl.
  - lia.
  - rewrite IH. lia.
Qed.

Lemma TOTAL_CAPACITY_sum : TOTAL_CAPACITY levels = sumZ (map capacity levels).
Proof. unfold TOTAL_CAPACITY. rewrite foldl_capacity_sum. lia. Qed.

Lemma sumZ_app (xs ys : list Z) : sumZ (xs ++ ys) = sumZ xs + sumZ ys.
Proof. induction xs as [|x xs IH]; simpl; lia. Qed.

Lemma sumZ_nonneg (xs : list Z) : Forall (fun x => 0 ≤ x) xs → 0 ≤ sumZ xs.
Proof. induction 1; simpl; lia. Qed.

Lemma cumulativeCapacity_all (k : nat) :
  (length levels ≤ k)%nat → cumulativeCapacity levels k = TOTAL_CAPACITY levels.
Proof.
  intros Hk. unfold cumulativeCapacity. rewrite TOTAL_CAPACITY_sum.
  rewrite take_ge; [done|]. rewrite length_map. lia.
Qed.

Lemma cumulativeCapacity_S (r : nat) (level : EnergyLevelType.t) :
  levels !! r = Some level →
  cumulativeCapacity levels (S r) = cumulativeCapacity levels r + capacity level.
Proof.
  intros Hr. unfold cumulativeCapacity.
  rewrite (take_S_r _ _ (capacity level)).
  - rewrite sumZ_app. simpl. lia.
  - rewrite list_lookup_fmap, Hr. done.
Qed.

Lemma cumulativeCapacity_S_row (r : nat) :
  cumulativeCapacity levels (S r) = cumulativeCapacity levels r + rowCapacity levels r.
Proof.
  unfold rowCapacity. destruct (levels !! r) as [level|] eqn:Hr; simpl.
  - by apply cumulativeCapacity_S.
  - apply lookup_ge_None in Hr.
    rewrite !cumulativeCapacity_all by lia. lia.
Qed.

End LevelFacts.

Lemma cumulativeCapacity_cons (level : EnergyLevelType.t) (ls : list EnergyLevelType.t)
    (k : nat) :
  cumulativeCapacity (level :: ls) (S k) = capacity level + cumulativeCapacity ls k.
Proof. reflexivity. Qed.

Lemma valid_capacity_pos (levels : list EnergyLevelType.t) (r : nat)
    (level : EnergyLevelType.t) :
  levels_valid levels → levels !! r = Some level → 0 < capacity level.
Proof.
  intros [_ Hall] Hr. rewrite Forall_forall in Hall.
  apply Hall. eapply list_elem_of_lookup_2. exact Hr.
Qed.

Lemma valid_caps_nonneg (levels : list EnergyLevelType.t) :
  levels_valid levels → Forall (fun x => 0 ≤ x) (map capacity levels).
Proof.
  intros [_ Hall]. apply Forall_fmap. eapply Forall_impl; [exact Hall|].
  simpl. intros; lia.
Qed.

(** The loop of [getRowIndexForGlobalIndex] returns at the first row whose
    cumulative capacity exceeds the index. *)
Lemma getRowIndexForGlobalIndex_for_found (ls : list EnergyLevelType.t) (i0 r : Z) :
  0 ≤ r < sumZ (map capacity ls) →
  ∃ k : nat,
    (k < length ls)%nat ∧
    getRowIndexForGlobalIndex_for ls i0 r = Some (i0 + Z.of_nat k) ∧
    r < cumulativeCapacity ls (S k) ∧
    ∀ k' : nat, r < cumulativeCapacity ls (S k') → (k ≤ k')%nat.
Proof.
  revert i0 r. induction ls as [|level ls IH]; intros i0 r Hr; simpl in *.
  - lia.
  - destruct (decide (r - capacity level < 0)) as [Hneg|Hpos].
    + exists 0%nat. rewrite cumulativeCapacity_cons.
      split_and!; [lia|f_equal; lia|unfold cumulativeCapacity; simpl; lia|lia].
    + destruct (IH (i0 + 1) (r - capacity level)) as (k & Hk & Hloop & Hlt & Hmin); [lia|].
      exists (S k). rewrite Hloop, cumulativeCapacity_cons.
      split_and!; [lia|f_equal; lia|lia|].
      intros [|k'] Hk'.
      * rewrite cumulativeCapacity_cons in Hk'.
        unfold cumulativeCapacity in Hk'. simpl in Hk'. lia.
      * rewrite cumulativeCapacity_cons in Hk'.
        assert (k ≤ k')%nat by (apply Hmin; lia). lia.
Qed.

(** ... and runs to its end when the index is not below the total capacity. *)
Lemma getRowIndexForGlobalIndex_for_none (ls : list EnergyLevelType.t) (i0 r : Z) :
  Forall (fun x => 0 ≤ x) (map capacity ls) →
  sumZ (map capacity ls) ≤ r →
  getRowIndexForGlobalIndex_for ls i0 r = None.
Proof.
  revert i0 r. induction ls as [|level ls IH]; intros i0 r Hall Hr; simpl in *; [done|].
  apply Forall_cons in Hall as [Hc Hall].
  pose proof (sumZ_nonneg _ Hall).
  destruct (decide (r - capacity level < 0)); [lia|].
  apply IH; [done|lia].
Qed.

Lemma getRowIndexForGlobalIndex_in_range (levels : list EnergyLevelType.t)
    (assertEnabled : bool) (i : Z) :
  0 ≤ i < TOTAL_CAPACITY levels →
  ∃ r : nat,
    getRowIndexForGlobalIndex levels assertEnabled i = Normal (Z.of_nat r) ∧
    (r < length levels)%nat ∧
    cumulativeCapacity levels r ≤ i < cumulativeCapacity levels (S r) ∧
    ∀ r' : nat, i < cumulativeCapacity levels (S r') → (r ≤ r')%nat.
Proof.
  intros Hi. rewrite TOTAL_CAPACITY_sum in Hi.
  destruct (getRowIndexForGlobalIndex_for_found levels 0 i Hi) as (k & Hk & Hloop & Hlt & Hmin).
  exists k. unfold getRowIndexForGlobalIndex. rewrite Hloop.
  split_and!; [f_equal; lia|done| |done|done].
  destruct k as [|k]; [unfold cumulativeCapacity; simpl; lia|].
  destruct (decide (cumulativeCapacity levels (S k) ≤ i)) as [|Hgt]; [done|].
  assert (S k ≤ k)%nat by (apply Hmin; lia). lia.
Qed.

Lemma Number_toString_safe (n : Z) :
  Number_isSafeInteger n → Number_toString n = pretty n.
Proof. intros Hn. unfold Number_toString. by rewrite decide_True. Qed.

Lemma getRowIndexForGlobalIndex_out_of_range (levels : list EnergyLevelType.t)
    (assertEnabled : bool) (i : Z) :
  levels_valid levels → TOTAL_CAPACITY levels ≤ i →
  getRowIndexForGlobalIndex levels assertEnabled i =
    if assertEnabled
    then Throw (AssertionError ("index out of supported range: " +:+ Number_toString i))
    else Normal (Z.of_nat (length levels) - 1).
Proof.
  intros Hv Hi. unfold getRowIndexForGlobalIndex.
  rewrite getRowIndexForGlobalIndex_for_none;
    [|by apply valid_caps_nonneg|by rewrite <- TOTAL_CAPACITY_sum].
  by destruct assertEnabled.
Qed.

Lemma cumulativeCapacity_nonneg (ls : list EnergyLevelType.t) (k : nat) :
  Forall (fun level => 0 < capacity level) ls → 0 ≤ cumulativeCapacity ls k.
Proof.
  intros Hall. unfold cumulativeCapacity. apply sumZ_nonneg.
  apply Forall_take, Forall_fmap. eapply Forall_impl; [exact Hall|].
  simpl. intros; lia.
Qed.

Lemma cumulativeCapacity_pos (ls : list EnergyLevelType.t) (k : nat) :
  Forall (fun level => 0 < capacity level) ls → (k < length ls)%nat →
  0 < cumulativeCapacity ls (S k).
Proof.
  intros Hall Hk. destruct ls as [|level ls]; simpl in Hk; [lia|].
  apply Forall_cons in Hall as [Hc Hall].
  rewrite cumulativeCapacity_cons.
  pose proof (cumulativeCapacity_nonneg ls k Hall). lia.
Qed.

(** The loop of [getReachedRowIndexForCount] stops at row [k] when the count
    is exactly the capacity of the rows up to and including [k]. *)
Lemma getReachedRowIndexForCount_for_exact (ls : list EnergyLevelType.t)
    (i0 running : Z) (k : nat) :
  Forall (fun level => 0 < capacity level) ls → (k < length ls)%nat →
  getReachedRowIndexForCount_for ls i0 (running + cumulativeCapacity ls (S k)) running =
    Some (i0 + Z.of_nat k).
Proof.
  revert i0 running k. induction ls as [|level ls IH]; intros i0 running k Hall Hk;
    simpl in Hk; [lia|].
  pose proof Hall as Hall'. apply Forall_cons in Hall' as [Hc Hls].
  simpl. rewrite cumulativeCapacity_cons.
  destruct k as [|k].
  - rewrite decide_True by (unfold cumulativeCapacity; simpl; lia).
    f_equal; lia.
  - pose proof (cumulativeCapacity_pos ls k Hls ltac:(lia)).
    rewrite decide_False by lia.
    replace (running + (capacity level + cumulativeCapacity ls (S k)))
      with ((running + capacity level) + cumulativeCapacity ls (S k)) by lia.
    rewrite IH by (done || lia). f_equal; lia.
Qed.

Lemma getReachedRowIndexForCount_for_none (ls : list EnergyLevelType.t)
    (i0 safeCount running : Z) :
  Forall (fun level => 0 < capacity level) ls →
  running + sumZ (map capacity ls) < safeCount →
  getReachedRowIndexForCount_for ls i0 safeCount running = None.
Proof.
  revert i0 running. induction ls as [|level ls IH]; intros i0 running Hall Hlt;
    simpl in *; [done|].
  apply Forall_cons in Hall as [Hc Hls].
  assert (0 ≤ sumZ (map capacity ls)).
  { apply sumZ_nonneg, Forall_fmap. eapply Forall_impl; [exact Hls|]. simpl; intros; lia. }
  rewrite decide_False by lia. apply IH; [done|lia].
Qed.

(** The rows of [ALLOWED_PARTICLE_POSITIONS]. *)
Lemma ALLOWED_PARTICLE_POSITIONS_lookup (levels : list EnergyLevelType.t) (r : nat) :
  ALLOWED_PARTICLE_POSITIONS levels !! r =
    (fun level => Z.of_nat <$> seq 0 (Z.to_nat (capacity level))) <$> levels !! r.
Proof. unfold ALLOWED_PARTICLE_POSITIONS. apply list_lookup_fmap. Qed.

Lemma at_index_range (n : nat) (x : Z) :
  at_index (Z.of_nat <$> seq 0 n) x =
    if decide (0 ≤ x < Z.of_nat n) then Some x else None.
Proof.
  unfold at_index. destruct (decide (0 ≤ x)) as [H0|H0].
  - rewrite list_lookup_fmap. destruct (decide (x < Z.of_nat n)) as [Hn|Hn].
    + rewrite decide_True by lia. rewrite lookup_seq_lt by lia. simpl. f_equal; lia.
    + rewrite decide_False by lia. rewrite lookup_seq_ge by lia. done.
  - rewrite decide_False by lia. done.
Qed.

Lemma getLocalXIndex_while_spec (levels : list EnergyLevelType.t) (k : nat) (index : Z) :
  levels_valid levels → (k ≤ length levels)%nat →
  getLocalXIndex_while levels k index = Normal (index - cumulativeCapacity levels k).
Proof.
  intros Hv. revert index. induction k as [|r IH]; intros index Hk; simpl.
  - unfold cumulativeCapacity. simpl. f_equal; lia.
  - destruct (lookup_lt_is_Some_2 levels r ltac:(lia)) as [level Hr].
    rewrite ALLOWED_PARTICLE_POSITIONS_lookup, Hr. simpl.
    rewrite IH by lia. rewrite (cumulativeCapacity_S _ _ _ Hr).
    rewrite length_fmap, length_seq.
    pose proof (valid_capacity_pos _ _ _ Hv Hr). f_equal; lia.
Qed.

Lemma getLocalXIndex_spec (levels : list EnergyLevelType.t) (globalIndex : Z) (r : nat) :
  levels_valid levels → (r < length levels)%nat →
  getLocalXIndex levels globalIndex (Z.of_nat r) =
    Normal (if decide (0 ≤ globalIndex - cumulativeCapacity levels r < rowCapacity levels r)
            then Some (globalIndex - cumulativeCapacity levels r) else None).
Proof.
  intros Hv Hr. unfold getLocalXIndex. rewrite Nat2Z.id.
  rewrite getLocalXIndex_while_spec by (done || lia). simpl.
  destruct (lookup_lt_is_Some_2 levels r Hr) as [level Hl].
  unfold at_index at 1. rewrite decide_True by lia. rewrite Nat2Z.id.
  rewrite ALLOWED_PARTICLE_POSITIONS_lookup, Hl. simpl.
  rewrite at_index_range. unfold rowCapacity. rewrite Hl. simpl.
  pose proof (valid_capacity_pos _ _ _ Hv Hl).
  rewrite Z2Nat.id by lia. done.
Qed.

Lemma getCapacityBelowRow_for_spec (levels : list EnergyLevelType.t)
    (iterations i : nat) (sum : Z) :
  (i + iterations ≤ length levels)%nat →
  getCapacityBelowRow_for levels iterations i sum =
    Normal (sum + cumulativeCapacity levels (i + iterations) - cumulativeCapacity levels i).
Proof.
  revert i sum. induction iterations as [|n IH]; intros i sum Hle; simpl.
  - rewrite Nat.add_0_r. f_equal; lia.
  - destruct (lookup_lt_is_Some_2 levels i ltac:(lia)) as [level Hl].
    rewrite Hl, IH by lia. rewrite (cumulativeCapacity_S _ _ _ Hl).
    replace (S i + n)%nat with (i + S n)%nat by lia. f_equal; lia.
Qed.

Lemma getCapacityBelowRow_spec (levels : list EnergyLevelType.t) (r : nat) :
  (r ≤ length levels)%nat →
  getCapacityBelowRow levels (Z.of_nat r) = Normal (cumulativeCapacity levels r).
Proof.
  intros Hr. unfold getCapacityBelowRow. rewrite Nat2Z.id.
  rewrite getCapacityBelowRow_for_spec by (simpl; lia). simpl.
  f_equal. unfold cumulativeCapacity at 2. simpl. lia.
Qed.

(** For an index below the total capacity the row and the local index are
    both defined, and the local index is a slot of the row. *)
Lemma row_and_local_index (levels : list EnergyLevelType.t) (assertEnabled : bool) (i : Z) :
  levels_valid levels → 0 ≤ i < TOTAL_CAPACITY levels →
  ∃ r : nat,
    (r < length levels)%nat ∧
    getRowIndexForGlobalIndex levels assertEnabled i = Normal (Z.of_nat r) ∧
    getLocalXIndex levels i (Z.of_nat r) = Normal (Some (i - cumulativeCapacity levels r)) ∧
    0 ≤ i - cumulativeCapacity levels r < rowCapacity levels r.
Proof.
  intros Hv Hi.
  destruct (getRowIndexForGlobalIndex_in_range levels assertEnabled i Hi)
    as (r & Hrow & Hr & Hbetween & _).
  exists r. rewrite cumulativeCapacity_S_row in Hbetween.
  split_and!; [done|done| |lia|lia].
  rewrite getLocalXIndex_spec by done. rewrite decide_True by lia. done.
Qed.

(** ** Slot tables: skeleton and occupants

    The operations only ever write the [particle] field of a slot, so a table
    is determined by its cleared form ([clearSlots]) and its occupants. *)

Arguments setParticle : simpl never.

Lemma setParticle_None_idem (o : option Particle.t) (pos : ParticleShellPosition) :
  setParticle None (setParticle o pos) = setParticle None pos.
Proof. reflexivity. Qed.

Lemma slot_ext (pos pos' : ParticleShellPosition) :
  setParticle None pos = setParticle None pos' → particle pos = particle pos' → pos = pos'.
Proof.
  destruct pos, pos'. unfold setParticle. simpl. intros Hs Hp. congruence.
Qed.

Lemma row_ext (row row' : list ParticleShellPosition) :
  map (setParticle None) row = map (setParticle None) row' →
  map particle row = map particle row' → row = row'.
Proof.
  revert row'. induction row as [|pos row IH]; intros [|pos' row'] Hs Hp;
    simpl in *; try done.
  injection Hs as Hx Ht Hs. injection Hp as Hp1 Hp2.
  f_equal; [|by apply IH].
  apply slot_ext; [|done]. unfold setParticle. congruence.
Qed.

Lemma occupants_cons (row : list ParticleShellPosition) (table : ShellPositions) :
  occupants (row :: table) = map particle row ++ occupants table.
Proof. unfold occupants. simpl. by rewrite map_app. Qed.

Lemma occupants_app (t1 t2 : ShellPositions) :
  occupants (t1 ++ t2) = occupants t1 ++ occupants t2.
Proof. unfold occupants. by rewrite concat_app, map_app. Qed.

Lemma table_ext (table table' : ShellPositions) :
  clearSlots table = clearSlots table' → occupants table = occupants table' →
  table = table'.
Proof.
  revert table'. induction table as [|row table IH]; intros [|row' table'] Hs Ho;
    simpl in *; try done.
  injection Hs as Hs1 Hs2. rewrite !occupants_cons in Ho.
  apply app_inj_1 in Ho as [Ho1 Ho2].
  - f_equal; [by apply row_ext|by apply IH].
  - rewrite !length_map. apply (f_equal length) in Hs1. by rewrite !length_map in Hs1.
Qed.

Lemma nucleus_ext (s s' : ShellModelNucleus) :
  (∀ ref, deref ref s = deref ref s') → s = s'.
Proof.
  intros H. destruct s, s'.
  pose proof (H ProtonShells). pose proof (H NeutronShells). simpl in *. congruence.
Qed.

Lemma deref_assign (ref ref' : ShellPositionsRef) (table : ShellPositions)
    (s : ShellModelNucleus) :
  deref ref' (assign ref table s) = if decide (ref' = ref) then table else deref ref' s.
Proof. by destruct ref, ref'. Qed.

Lemma clearSlots_idem (table : ShellPositions) :
  clearSlots (clearSlots table) = clearSlots table.
Proof.
  unfold clearSlots. rewrite map_map. apply map_ext. intros row.
  rewrite map_map. by apply map_ext.
Qed.

Lemma occupants_clearSlots (table : ShellPositions) :
  occupants (clearSlots table) = replicate (length (occupants table)) None.
Proof.
  induction table as [|row table IH]; [done|].
  simpl. rewrite !occupants_cons, length_app, replicate_add, IH. f_equal.
  clear. induction row as [|pos row IH]; simpl; [done|]. by rewrite IH.
Qed.

Lemma occupants_map (f : ParticleShellPosition → ParticleShellPosition)
    (g : option Particle.t → option Particle.t) (table : ShellPositions) :
  (∀ pos, particle (f pos) = g (particle pos)) →
  occupants (map (map f) table) = map g (occupants table).
Proof.
  intros Hfg. induction table as [|row table IH]; [done|].
  simpl. rewrite !occupants_cons, map_app, IH. f_equal.
  rewrite !map_map. apply map_ext. intros pos. apply Hfg.
Qed.

(** Writing one slot of the table writes one entry of the flat occupant list. *)
Lemma occupants_insert (table : ShellPositions) (r x : nat)
    (row : list ParticleShellPosition) (pos : ParticleShellPosition)
    (o : option Particle.t) :
  table !! r = Some row → row !! x = Some pos →
  occupants (<[r := <[x := setParticle o pos]> row]> table) =
    <[(length (occupants (take r table)) + x)%nat := o]> (occupants table) ∧
  clearSlots (<[r := <[x := setParticle o pos]> row]> table) = clearSlots table ∧
  (length (occupants (take r table)) + x < length (occupants table))%nat.
Proof.
  intros Hr Hx.
  pose proof (lookup_lt_Some _ _ _ Hr) as Hrlt.
  pose proof (lookup_lt_Some _ _ _ Hx) as Hxlt.
  assert (occupants table =
          occupants (take r table) ++ map particle row ++ occupants (drop (S r) table)) as Ho.
  { rewrite <- (take_drop_middle table r row Hr) at 1.
    by rewrite occupants_app, occupants_cons. }
  assert (clearSlots table =
          clearSlots (take r table) ++ map (setParticle None) row
            :: clearSlots (drop (S r) table)) as Hc.
  { rewrite <- (take_drop_middle table r row Hr) at 1.
    unfold clearSlots. by rewrite map_app. }
  rewrite insert_take_drop by done.
  split_and!.
  - rewrite Ho, !occupants_app, !occupants_cons.
    rewrite insert_app_r. f_equal.
    rewrite insert_app_l by (by rewrite length_map). f_equal.
    by rewrite list_fmap_insert.
  - rewrite Hc. unfold clearSlots. rewrite !map_app. simpl. do 2 f_equal.
    rewrite list_fmap_insert. rewrite setParticle_None_idem. apply list_insert_id.
    rewrite list_lookup_fmap, Hx. done.
  - rewrite Ho, !length_app, length_map. lia.
Qed.

(** *** [getParticleDestination] on the flat occupant list *)

Lemma findOpenPosition_Some (row : list ParticleShellPosition) (x : nat)
    (pos : ParticleShellPosition) (p : Particle.t) (rest : list (option Particle.t)) :
  findOpenPosition row = Some (x, pos) →
  fill_first p (map particle row ++ rest) =
    Some (map particle (<[x := setParticle (Some p) pos]> row) ++ rest).
Proof.
  unfold findOpenPosition. revert x.
  induction row as [|pos0 row IH]; intros x Hfind; simpl in *; [done|].
  destruct (decide (particle pos0 = None)) as [Hnone|Hsome].
  - injection Hfind as <- <-. rewrite Hnone. done.
  - destruct (particle pos0) as [q|] eqn:Hq; [|done].
    destruct (list_find _ row) as [[x' pos']|] eqn:Hrow; simpl in Hfind; [|done].
    injection Hfind as <- <-. simpl.
    rewrite (IH x' eq_refl). simpl. by rewrite Hq.
Qed.

Lemma findOpenPosition_None (row : list ParticleShellPosition)
    (p : Particle.t) (rest : list (option Particle.t)) :
  findOpenPosition row = None →
  fill_first p (map particle row ++ rest) = (map particle row ++.) <$> fill_first p rest.
Proof.
  unfold findOpenPosition.
  induction row as [|pos0 row IH]; intros Hfind; simpl in *.
  - by destruct (fill_first p rest).
  - destruct (decide (particle pos0 = None)) as [Hnone|Hsome]; [done|].
    destruct (particle pos0) as [q|] eqn:Hq; [|done].
    destruct (list_find _ row) as [[x' pos']|] eqn:Hrow; simpl in Hfind; [done|].
    rewrite IH by done. by destruct (fill_first p rest).
Qed.

Lemma openShellPositionOf_spec (table : ShellPositions) (p : Particle.t) :
  match openShellPositionOf table with
  | Some (r, Some (x, pos)) =>
      ∃ row, table !! r = Some row ∧ row !! x = Some pos ∧
        fill_first p (occupants table) =
          Some (occupants (alter (fun row => <[x := setParticle (Some p) pos]> row) r table)) ∧
        alter (fun row => <[x := setParticle (Some p) pos]> row) r table =
          <[r := <[x := setParticle (Some p) pos]> row]> table
  | Some (r, None) => False
  | None => fill_first p (occupants table) = None
  end.
Proof.
  unfold openShellPositionOf.
  induction table as [|row table IH]; simpl; [done|].
  destruct (decide (is_Some (findOpenPosition row))) as [[[x pos] Hopen]|Hnone].
  - rewrite Hopen. exists row. split; [done|].
    pose proof Hopen as Hfind. unfold findOpenPosition in Hfind.
    apply list_find_Some in Hfind as (Hx & _ & _).
    split; [done|]. split; [|done].
    cbn [alter list_alter]. rewrite !occupants_cons. by apply findOpenPosition_Some.
  - assert (findOpenPosition row = None) as Hrow.
    { destruct (findOpenPosition row); [|done]. destruct Hnone. by eexists. }
    rewrite occupants_cons, (findOpenPosition_None _ _ _ Hrow).
    destruct (list_find _ (map findOpenPosition table)) as [[r [[x pos]|]]|]; simpl.
    + destruct IH as (row' & Hr & Hx & Hfill & Halter).
      exists row'.
      split_and!; [done|done| |f_equal; exact Halter].
      rewrite Hfill. simpl. rewrite occupants_cons. reflexivity.
    + done.
    + by rewrite IH.
Qed.

Section Operations.

Variable assertEnabled : bool.
Context `{view : ViewLayer}.

Lemma assert__true (message : string) : assert_ assertEnabled true message = Normal ().
Proof. unfold assert_. simpl. by rewrite andb_false_r. Qed.

Lemma assert__false (message : string) :
  assert_ assertEnabled false message =
    if assertEnabled then Throw (AssertionError message) else Normal ().
Proof. unfold assert_. simpl. by rewrite andb_true_r. Qed.

(** [getParticleDestination] fills the first empty entry of the flat occupant
    list of the table it selects, and throws when there is none. *)
Lemma getParticleDestination_flat (particleType : ParticleTypeEnum) (p : Particle.t)
    (s : ShellModelNucleus) :
  match fill_first p (occupants (deref (getNucleonShellPositions particleType) s)) with
  | Some os' =>
      ∃ d s', getParticleDestination assertEnabled particleType p s = Normal (d, s') ∧
        occupants (deref (getNucleonShellPositions particleType) s') = os' ∧
        clearSlots (deref (getNucleonShellPositions particleType) s') =
          clearSlots (deref (getNucleonShellPositions particleType) s) ∧
        ∀ ref, ref ≠ getNucleonShellPositions particleType → deref ref s' = deref ref s
  | None =>
      getParticleDestination assertEnabled particleType p s =
        Throw (if assertEnabled
               then AssertionError "To add a particle there must be an empty particleShellPosition."
               else TypeError)
  end.
Proof.
  unfold getParticleDestination.
  set (ref := getNucleonShellPositions particleType).
  pose proof (openShellPositionOf_spec (deref ref s) p) as Hspec.
  unfold openShellPositionOf in Hspec.
  destruct (list_find _ (map findOpenPosition (deref ref s))) as [[r [[x pos]|]]|].
  - destruct Hspec as (row & Hr & Hx & Hfill & Halter).
    rewrite Hfill. rewrite bool_decide_eq_true_2 by eauto. rewrite assert__true.
    eexists _, _. split; [reflexivity|].
    rewrite deref_assign, decide_True by done.
    split; [done|]. split.
    + rewrite Halter. by apply occupants_insert.
    + intros ref' Hne. rewrite deref_assign, decide_False by done. done.
  - done.
  - rewrite Hspec. rewrite bool_decide_eq_false_2 by (by intros [? ?]).
    rewrite assert__false. by destruct assertEnabled.
Qed.

End Operations.

(** *** [removeParticleFromShell] on the flat occupant list *)

Lemma removeParticleFromShell_flat (p : Particle.t) (s : ShellModelNucleus) :
  let ref := getNucleonShellPositions (Particle.type p) in
  occupants (deref ref (removeParticleFromShell p s)) = map (release p) (occupants (deref ref s)) ∧
  clearSlots (deref ref (removeParticleFromShell p s)) = clearSlots (deref ref s) ∧
  ∀ ref', ref' ≠ ref → deref ref' (removeParticleFromShell p s) = deref ref' s.
Proof.
  intros ref. unfold removeParticleFromShell. fold ref.
  split_and!.
  - rewrite deref_assign, decide_True by done.
    apply occupants_map. intros pos. unfold release.
    destruct (decide (particle pos = Some p)); done.
  - rewrite deref_assign, decide_True by done.
    unfold clearSlots. rewrite map_map. apply map_ext. intros row.
    rewrite map_map. apply map_ext. intros pos.
    destruct (decide (particle pos = Some p)); done.
  - intros ref' Hne. rewrite deref_assign, decide_False by done. done.
Qed.

Lemma release_absent (p : Particle.t) (os : list (option Particle.t)) :
  Some p ∉ os → map (release p) os = os.
Proof.
  induction os as [|o os IH]; intros Hnot; simpl; [done|].
  apply not_elem_of_cons in Hnot as [Hne Hnot].
  rewrite IH by done. unfold release. by rewrite decide_False.
Qed.

Lemma release_fill_first (p : Particle.t) (os os' : list (option Particle.t)) :
  Some p ∉ os → fill_first p os = Some os' → map (release p) os' = os.
Proof.
  revert os'. induction os as [|o os IH]; intros os' Hnot Hfill; simpl in *; [done|].
  apply not_elem_of_cons in Hnot as [Hne Hnot].
  destruct o as [q|].
  - destruct (fill_first p os) as [os1|]; simpl in Hfill; [|done].
    injection Hfill as <-. simpl. rewrite (IH os1) by done.
    unfold release. by rewrite decide_False.
  - injection Hfill as <-. simpl. rewrite release_absent by done.
    unfold release. by rewrite decide_True.
Qed.

Lemma fill_first_is_Some (p : Particle.t) (os : list (option Particle.t)) :
  is_Some (fill_first p os) ↔ None ∈ os.
Proof.
  induction os as [|[q|] os IH]; simpl.
  - split; [by intros [? ?]|by intros ?%elem_of_nil].
  - rewrite fmap_is_Some, IH, elem_of_cons. split; [by right|by intros [?|?]].
  - split; [intros _; by left|by eauto].
Qed.

(** *** Filling several empty entries in turn *)

Lemma fill_all_Some_cons (ps : list Particle.t) (q : Particle.t)
    (os : list (option Particle.t)) :
  fill_all ps (Some q :: os) = cons (Some q) <$> fill_all ps os.
Proof. destruct ps, os; reflexivity. Qed.

Lemma fill_all_nil (os : list (option Particle.t)) : fill_all [] os = Some os.
Proof. by destruct os. Qed.

Lemma fill_all_step (p : Particle.t) (ps : list Particle.t) (os : list (option Particle.t)) :
  fill_all (p :: ps) os = fill_first p os ≫= fill_all ps.
Proof.
  induction os as [|[q|] os IH].
  - done.
  - rewrite fill_all_Some_cons, IH. cbn [fill_first].
    destruct (fill_first p os) as [os1|]; [|done].
    change (cons (Some q) <$> fill_all ps os1 = fill_all ps (Some q :: os1)).
    by rewrite fill_all_Some_cons.
  - change (cons (Some p) <$> fill_all ps os = fill_all ps (Some p :: os)).
    by rewrite fill_all_Some_cons.
Qed.

Lemma fill_all_skip (ps xs : list Particle.t) (os : list (option Particle.t)) :
  fill_all ps (map Some xs ++ os) = (map Some xs ++.) <$> fill_all ps os.
Proof.
  induction xs as [|x xs IH].
  - change (map Some [] ++ os) with os. by destruct (fill_all ps os).
  - change (map Some (x :: xs) ++ os) with (Some x :: (map Some xs ++ os)).
    rewrite fill_all_Some_cons, IH. by destruct (fill_all ps os).
Qed.

Lemma fill_all_empty (ps : list Particle.t) (n : nat) :
  fill_all ps (replicate n None) =
    if decide (length ps ≤ n)%nat
    then Some (map Some ps ++ replicate (n - length ps) None)
    else None.
Proof.
  revert n. induction ps as [|p ps IH]; intros n.
  - rewrite fill_all_nil, decide_True by (simpl; lia). simpl. by rewrite Nat.sub_0_r.
  - destruct n as [|n]; cbn [fill_all replicate].
    + by rewrite decide_False by (simpl; lia).
    + rewrite IH. repeat case_decide; simpl in *; try lia; done.
Qed.

(** The particles of [qs], none of them counted, can be read back in order
    from the list they filled, when everything else in it is counted. *)
Lemma fill_all_read_back (arr qs : list Particle.t) (os os' : list (option Particle.t)) :
  (∀ q, Some q ∈ os → q ∈ arr) → Forall (fun q => q ∉ arr) qs →
  fill_all qs os = Some os' →
  filter (fun q => q ∉ arr) (omap id os') = qs.
Proof.
  revert qs os'. induction os as [|[x|] os IH]; intros qs os' Hos Hqs Hfill.
  - destruct qs; simpl in Hfill; [|done]. by injection Hfill as <-.
  - rewrite fill_all_Some_cons in Hfill.
    destruct (fill_all qs os) as [os1|] eqn:H1; simpl in Hfill; [|done].
    injection Hfill as <-. simpl.
    rewrite filter_cons_False by (intros Hx; apply Hx, Hos; by left).
    eapply IH; [|done|done]. intros q Hq. apply Hos. by right.
  - destruct qs as [|q qs]; simpl in Hfill.
    + injection Hfill as <-. simpl.
      apply (IH [] os); [|done|apply fill_all_nil]. intros q Hq. apply Hos. by right.
    + destruct (fill_all qs os) as [os1|] eqn:H1; simpl in Hfill; [|done].
      injection Hfill as <-. simpl.
      apply Forall_cons in Hqs as [Hq Hqs].
      rewrite filter_cons_True by done. f_equal.
      eapply IH; [|done|done]. intros q' Hq'. apply Hos. by right.
Qed.

(** The particles remembered by the first loop of [updateNucleonPositions]. *)
Lemma incomingParticlesOf_flat (arr : list Particle.t) (table : ShellPositions) :
  incomingParticlesOf arr table = filter (fun q => q ∉ arr) (omap id (occupants table)).
Proof.
  unfold incomingParticlesOf.
  induction table as [|row table IH]; [done|].
  rewrite bind_cons, IH, occupants_cons, omap_app, filter_app. f_equal.
  clear. induction row as [|pos row IH]; [done|].
  rewrite bind_cons, IH. simpl. unfold rememberIncoming.
  destruct (particle pos) as [q|]; simpl; [|done].
  destruct (decide (q ∈ arr)).
  - by rewrite filter_cons_False by (by intros ?).
  - by rewrite filter_cons_True by done.
Qed.

Lemma incomingParticlesOf_not_counted (arr : list Particle.t) (table : ShellPositions) :
  Forall (fun q => q ∉ arr) (incomingParticlesOf arr table).
Proof.
  rewrite incomingParticlesOf_flat. apply Forall_forall. intros q Hq.
  by apply list_elem_of_filter in Hq as [? _].
Qed.

(** *** Restoring the reservations *)

Section Restore.

Variable assertEnabled : bool.
Context `{view : ViewLayer}.

Lemma restoreReservations_inv (incoming : list Particle.t) (s s' : ShellModelNucleus) :
  restoreReservations assertEnabled incoming s = Normal s' →
  ∀ ref,
    fill_all (reservedFor ref incoming) (occupants (deref ref s)) =
      Some (occupants (deref ref s')) ∧
    clearSlots (deref ref s') = clearSlots (deref ref s).
Proof.
  revert s. induction incoming as [|p incoming IH]; intros s Hrun ref.
  - simpl in Hrun. injection Hrun as <-. unfold reservedFor.
    rewrite filter_nil, fill_all_nil. done.
  - cbn [restoreReservations] in Hrun.
    pose proof (getParticleDestination_flat assertEnabled (Particle.type p) p s) as Hg.
    destruct (fill_first p _) as [os1|] eqn:Hfirst.
    + destruct Hg as (d & s1 & Hgpd & Hocc & Hskel & Hother).
      rewrite Hgpd in Hrun. simpl in Hrun.
      destruct (IH s1 Hrun ref) as [Hfill Hsk]. unfold reservedFor in *.
      destruct (decide (getNucleonShellPositions (Particle.type p) = ref)) as [<-|Hne].
      * rewrite filter_cons_True by done. rewrite fill_all_step, Hfirst. simpl.
        rewrite <- Hocc. split; [exact Hfill|]. by rewrite Hsk.
      * rewrite filter_cons_False by done. rewrite <- (Hother ref) by done. done.
    + rewrite Hg in Hrun. done.
Qed.

Lemma restoreReservations_ok (incoming : list Particle.t) (s : ShellModelNucleus) :
  (∀ ref, is_Some (fill_all (reservedFor ref incoming) (occupants (deref ref s)))) →
  ∃ s', restoreReservations assertEnabled incoming s = Normal s'.
Proof.
  revert s. induction incoming as [|p incoming IH]; intros s Hroom.
  - by eexists.
  - cbn [restoreReservations].
    pose proof (getParticleDestination_flat assertEnabled (Particle.type p) p s) as Hg.
    pose proof (Hroom (getNucleonShellPositions (Particle.type p))) as Hp.
    unfold reservedFor in Hp. rewrite filter_cons_True in Hp by done.
    rewrite fill_all_step in Hp.
    destruct (fill_first p _) as [os1|] eqn:Hfirst; [|by destruct Hp].
    destruct Hg as (d & s1 & Hgpd & Hocc & Hskel & Hother).
    rewrite Hgpd. simpl. apply IH. intros ref.
    destruct (decide (ref = getNucleonShellPositions (Particle.type p))) as [->|Hne].
    + rewrite Hocc. exact Hp.
    + rewrite (Hother ref) by done. specialize (Hroom ref).
      unfold reservedFor in Hroom. rewrite filter_cons_False in Hroom by done. exact Hroom.
Qed.

End Restore.

(** *** Placing the counted particles *)

Lemma elem_of_insert_inv {A : Type} (l : list A) (k : nat) (v x : A) :
  x ∈ <[k := v]> l → x = v ∨ x ∈ l.
Proof.
  intros Hx. apply list_elem_of_lookup in Hx as [j Hj].
  apply list_lookup_insert_Some in Hj as [(-> & -> & _)|[_ Hj]]; [by left|right].
  by eapply list_elem_of_lookup_2.
Qed.

Lemma placeAt_inv (rowIndex : Z) (xIndex : option Z) (p : Particle.t)
    (table table' : ShellPositions) :
  placeAt rowIndex xIndex p table = Normal table' →
  ∃ x : Z, xIndex = Some x ∧ 0 ≤ rowIndex ∧ 0 ≤ x ∧
    let k := (length (occupants (take (Z.to_nat rowIndex) table)) + Z.to_nat x)%nat in
    (k < length (occupants table))%nat ∧
    occupants table' = <[k := Some p]> (occupants table) ∧
    clearSlots table' = clearSlots table.
Proof.
  unfold placeAt, at_index. intros Hplace.
  destruct (decide (0 ≤ rowIndex)) as [Hr0|]; [|done].
  destruct (table !! Z.to_nat rowIndex) as [row|] eqn:Hrow; [|done].
  destruct xIndex as [x|]; [|done].
  destruct (decide (0 ≤ x)) as [Hx0|]; [|done].
  destruct (row !! Z.to_nat x) as [pos|] eqn:Hpos; [|done].
  injection Hplace as <-. exists x.
  destruct (occupants_insert table _ _ row pos (Some p) Hrow Hpos) as (Ho & Hc & Hlt).
  split_and!; done.
Qed.

Section PlaceCounted.

Variable levels : list EnergyLevelType.t.
Variable assertEnabled : bool.

Lemma placeCounted_inv (arr : list Particle.t) (i : Z) (table table' : ShellPositions) :
  placeCounted levels assertEnabled arr i table = Normal table' →
  clearSlots table' = clearSlots table ∧
  ∀ q, Some q ∈ occupants table' → Some q ∈ occupants table ∨ q ∈ arr.
Proof.
  revert i table. induction arr as [|p arr IH]; intros i table Hrun.
  - simpl in Hrun. injection Hrun as <-. split; [done|]. intros q Hq. by left.
  - cbn [placeCounted] in Hrun.
    destruct (getRowIndexForGlobalIndex levels assertEnabled i) as [r|] eqn:Hr;
      simpl in Hrun; [|done].
    destruct (getLocalXIndex levels i r) as [xo|] eqn:Hxo; simpl in Hrun; [|done].
    destruct (placeAt r xo p table) as [table1|] eqn:Hplace; simpl in Hrun; [|done].
    apply placeAt_inv in Hplace as (x & _ & _ & _ & _ & Ho & Hc).
    destruct (IH _ _ Hrun) as [Hc' Hin]. split; [congruence|].
    intros q Hq. destruct (Hin q Hq) as [Hq1|Hq1]; [|right; by right].
    rewrite Ho in Hq1. apply elem_of_insert_inv in Hq1 as [Heq|Hq1]; [|by left].
    injection Heq as ->. right. by left.
Qed.

End PlaceCounted.

(** *** Tables of the constructor's shape *)

Section WellFormed.

Variable levels : list EnergyLevelType.t.
Variable assertEnabled : bool.
Hypothesis Hvalid : levels_valid levels.

Lemma wf_table_length (table : ShellPositions) :
  wf_table levels table → length table = length levels.
Proof.
  intros Hwf. apply (f_equal length) in Hwf.
  unfold ALLOWED_PARTICLE_POSITIONS in Hwf. by rewrite !length_map in Hwf.
Qed.

Lemma wf_row_length (table : ShellPositions) (r : nat)
    (row : list ParticleShellPosition) :
  wf_table levels table → table !! r = Some row →
  Z.of_nat (length row) = rowCapacity levels r.
Proof.
  intros Hwf Hrow. apply (f_equal (fun l => l !! r)) in Hwf.
  rewrite list_lookup_fmap, Hrow, ALLOWED_PARTICLE_POSITIONS_lookup in Hwf.
  unfold rowCapacity. destruct (levels !! r) as [level|] eqn:Hl; simpl in *; [|done].
  injection Hwf as Hwf. apply (f_equal length) in Hwf.
  rewrite length_map, length_fmap, length_seq in Hwf.
  pose proof (valid_capacity_pos _ _ _ Hvalid Hl). lia.
Qed.

Lemma wf_flat_offset (table : ShellPositions) (r : nat) :
  wf_table levels table → (r ≤ length levels)%nat →
  Z.of_nat (length (occupants (take r table))) = cumulativeCapacity levels r.
Proof.
  intros Hwf. induction r as [|r IH]; intros Hr.
  - done.
  - destruct (lookup_lt_is_Some_2 table r) as [row Hrow].
    { rewrite (wf_table_length _ Hwf). lia. }
    rewrite (take_S_r _ _ _ Hrow), occupants_app, length_app, Nat2Z.inj_add, IH by lia.
    rewrite cumulativeCapacity_S_row. f_equal.
    unfold occupants. simpl. rewrite app_nil_r, length_map.
    by eapply wf_row_length.
Qed.

Lemma wf_occupants_length (table : ShellPositions) :
  wf_table levels table → Z.of_nat (length (occupants table)) = TOTAL_CAPACITY levels.
Proof.
  intros Hwf. rewrite <- (cumulativeCapacity_all levels (length levels)) by lia.
  rewrite <- (wf_flat_offset table (length levels)) by (done || lia).
  rewrite take_ge; [done|]. rewrite (wf_table_length _ Hwf). lia.
Qed.

Lemma wf_table_clearSlots (table table' : ShellPositions) :
  clearSlots table' = clearSlots table → wf_table levels table → wf_table levels table'.
Proof.
  assert (∀ t : ShellPositions, map (map xPosition) (clearSlots t) = map (map xPosition) t)
    as Hx.
  { intros t. unfold clearSlots. rewrite map_map. apply map_ext. intros row.
    rewrite map_map. by apply map_ext. }
  unfold wf_table. intros Hc Hwf. by rewrite <- Hx, Hc, Hx.
Qed.

Lemma placeAt_wf (table : ShellPositions) (r : nat) (x : Z) (p : Particle.t) :
  wf_table levels table → (r < length levels)%nat → 0 ≤ x < rowCapacity levels r →
  ∃ table',
    placeAt (Z.of_nat r) (Some x) p table = Normal table' ∧
    occupants table' =
      <[Z.to_nat (cumulativeCapacity levels r + x) := Some p]> (occupants table) ∧
    clearSlots table' = clearSlots table.
Proof.
  intros Hwf Hr Hx.
  destruct (lookup_lt_is_Some_2 table r) as [row Hrow].
  { rewrite (wf_table_length _ Hwf). lia. }
  pose proof (wf_row_length _ _ _ Hwf Hrow) as Hlen.
  destruct (lookup_lt_is_Some_2 row (Z.to_nat x)) as [pos Hpos]; [lia|].
  unfold placeAt, at_index.
  rewrite decide_True by lia. rewrite Nat2Z.id, Hrow.
  rewrite decide_True by lia. rewrite Hpos.
  eexists. split; [reflexivity|].
  destruct (occupants_insert table r _ row pos (Some p) Hrow Hpos) as (Ho & Hc & _).
  split; [|done]. rewrite Ho. f_equal.
  pose proof (wf_flat_offset table r Hwf ltac:(lia)). lia.
Qed.

Lemma placeCounted_wf (arr : list Particle.t) (i : Z) (table : ShellPositions) :
  wf_table levels table → 0 ≤ i → i + Z.of_nat (length arr) ≤ TOTAL_CAPACITY levels →
  ∃ table',
    placeCounted levels assertEnabled arr i table = Normal table' ∧
    occupants table' =
      take (Z.to_nat i) (occupants table) ++ map Some arr ++
      drop (Z.to_nat i + length arr) (occupants table) ∧
    clearSlots table' = clearSlots table.
Proof.
  revert i table. induction arr as [|p arr IH]; intros i table Hwf Hi Hfit.
  - exists table. split; [done|]. split; [|done].
    simpl. by rewrite Nat.add_0_r, take_drop.
  - simpl length in Hfit.
    destruct (row_and_local_index levels assertEnabled i Hvalid ltac:(lia))
      as (r & Hr & Hrow & Hloc & Hrange).
    destruct (placeAt_wf table r _ p Hwf Hr Hrange) as (table1 & Hplace & Ho1 & Hc1).
    destruct (IH (i + 1) table1) as (table' & Hrun & Ho & Hc);
      [by eapply wf_table_clearSlots|lia|lia|].
    exists table'. cbn [placeCounted]. rewrite Hrow. simpl. rewrite Hloc. simpl.
    rewrite Hplace. simpl. split; [done|]. split; [|congruence].
    rewrite Ho, Ho1.
    replace (cumulativeCapacity levels r + (i - cumulativeCapacity levels r)) with i by lia.
    pose proof (wf_occupants_length table Hwf) as Hlen.
    replace (Z.to_nat (i + 1)) with (S (Z.to_nat i)) by lia.
    rewrite (take_S_r _ _ (Some p)) by (apply list_lookup_insert_eq; lia).
    rewrite take_insert_ge by lia.
    rewrite drop_insert_lt by lia.
    rewrite <- app_assoc. cbn [app map length].
    replace (S (Z.to_nat i) + length arr)%nat with (Z.to_nat i + S (length arr))%nat by lia.
    done.
Qed.

Lemma placeAt_undefined (rowIndex : Z) (p : Particle.t) (table : ShellPositions) :
  placeAt rowIndex None p table = Throw TypeError.
Proof. unfold placeAt. by destruct (at_index table rowIndex). Qed.

Lemma placeCounted_fits (arr : list Particle.t) (i : Z) (table table' : ShellPositions) :
  wf_table levels table → 0 ≤ i ≤ TOTAL_CAPACITY levels →
  placeCounted levels assertEnabled arr i table = Normal table' →
  i + Z.of_nat (length arr) ≤ TOTAL_CAPACITY levels.
Proof.
  revert i table. induction arr as [|p arr IH]; intros i table Hwf Hi Hrun.
  - simpl. lia.
  - simpl length. cbn [placeCounted] in Hrun.
    destruct (decide (i < TOTAL_CAPACITY levels)) as [Hlt|Hge].
    + destruct (row_and_local_index levels assertEnabled i Hvalid ltac:(lia))
        as (r & Hr & Hrow & Hloc & Hrange).
      destruct (placeAt_wf table r _ p Hwf Hr Hrange) as (table1 & Hplace & Ho1 & Hc1).
      rewrite Hrow in Hrun. simpl in Hrun. rewrite Hloc in Hrun. simpl in Hrun.
      rewrite Hplace in Hrun. simpl in Hrun.
      apply IH in Hrun; [lia|by eapply wf_table_clearSlots|lia].
    + exfalso.
      rewrite getRowIndexForGlobalIndex_out_of_range in Hrun by (done || lia).
      destruct assertEnabled; [done|]. simpl in Hrun.
      assert (length levels ≠ 0%nat) as Hne.
      { destruct Hvalid as [Hnil _]. by destruct levels. }
      replace (Z.of_nat (length levels) - 1) with (Z.of_nat (length levels - 1)) in Hrun by lia.
      rewrite getLocalXIndex_spec in Hrun by (done || lia).
      pose proof (cumulativeCapacity_S_row levels (length levels - 1)) as HS.
      replace (S (length levels - 1)) with (length levels) in HS by lia.
      rewrite cumulativeCapacity_all in HS by lia.
      rewrite decide_False in Hrun by lia. simpl in Hrun.
      by rewrite placeAt_undefined in Hrun.
Qed.

End WellFormed.

(** *** The widest row *)

Lemma widestRowIndex_reduce_spec (levels rest : list EnergyLevelType.t) (idx bestIdx : nat) :
  (bestIdx < length levels)%nat → (idx + length rest = length levels)%nat →
  ∃ widest : nat,
    widestRowIndex_reduce levels rest idx bestIdx = Normal widest ∧
    (widest < length levels)%nat.
Proof.
  revert idx bestIdx. induction rest as [|level rest IH]; intros idx bestIdx Hbest Hidx.
  - by exists bestIdx.
  - simpl in *. destruct (lookup_lt_is_Some_2 levels bestIdx Hbest) as [best Hl].
    rewrite Hl. apply IH; [|lia]. case_decide; lia.
Qed.

Lemma rowWidth_valid (levels : list EnergyLevelType.t) :
  levels_valid levels → rowWidth levels = Normal ().
Proof.
  intros [Hne _]. unfold rowWidth, widestRowIndex.
  destruct (widestRowIndex_reduce_spec levels levels 0 0) as (widest & -> & Hlt).
  - destruct levels; [done|simpl; lia].
  - done.
  - simpl. destruct (lookup_lt_is_Some_2 (ALLOWED_PARTICLE_POSITIONS levels) widest)
      as [row ->]; [|done].
    unfold ALLOWED_PARTICLE_POSITIONS. by rewrite length_map.
Qed.

(** *** [updateNucleonPositions] on the flat occupant lists *)

Lemma omap_id_fmap {A B : Type} (f : A → option B) (l : list A) :
  omap id (map f l) = omap f l.
Proof.
  induction l as [|a l IH]; [done|].
  cbn [map omap list_omap]. simpl. destruct (f a); simpl; by rewrite <- IH.
Qed.

Lemma placedParticles_flat (incoming : list Particle.t) (table : ShellPositions) :
  placedParticles incoming table =
    filter (fun p => p ∉ incoming) (omap id (occupants table)).
Proof. unfold placedParticles, occupants. by rewrite omap_id_fmap. Qed.

Lemma omap_counted (arr : list Particle.t) (n : nat) :
  omap id (map Some arr ++ replicate n None) = arr.
Proof.
  rewrite omap_app, omap_id_fmap.
  assert (omap (@Some Particle.t) arr = arr) as ->.
  { induction arr as [|p arr IH]; [done|]. cbn [omap list_omap]. by rewrite IH. }
  assert (omap id (replicate n (@None Particle.t)) = []) as ->.
  { induction n as [|n IH]; [done|]. exact IH. }
  by rewrite app_nil_r.
Qed.

Lemma filter_all {A : Type} (P : A → Prop) `{∀ x, Decision (P x)} (l : list A) :
  Forall P l → filter P l = l.
Proof.
  induction 1 as [|x l Hx Hl IH]; [done|].
  rewrite filter_cons_True by done. by rewrite IH.
Qed.

Lemma filter_not_incoming (arr : list Particle.t) (table : ShellPositions) :
  filter (fun p => p ∉ incomingParticlesOf arr table) arr = arr.
Proof.
  apply filter_all. apply Forall_forall. intros p Hp Hin.
  pose proof (incomingParticlesOf_not_counted arr table) as Hnot.
  rewrite Forall_forall in Hnot. by apply (Hnot p Hin).
Qed.

Section Update.

Variable levels : list EnergyLevelType.t.
Variable assertEnabled : bool.
Context `{view : ViewLayer}.
Hypothesis Hvalid : levels_valid levels.

Lemma update_counted (arr : list Particle.t) (table : ShellPositions) :
  wf_table levels table → Z.of_nat (length arr) ≤ TOTAL_CAPACITY levels →
  ∃ b,
    placeCounted levels assertEnabled arr 0 (clearSlots table) = Normal b ∧
    occupants b =
      map Some arr ++ replicate (Z.to_nat (TOTAL_CAPACITY levels) - length arr) None ∧
    clearSlots b = clearSlots table.
Proof.
  intros Hwf Hfit.
  assert (wf_table levels (clearSlots table)) as Hwfc.
  { eapply wf_table_clearSlots; [apply clearSlots_idem|done]. }
  destruct (placeCounted_wf levels assertEnabled Hvalid arr 0 (clearSlots table))
    as (b & Hb & Ho & Hc); [done|lia|lia|].
  exists b. split; [done|]. split; [|by rewrite Hc, clearSlots_idem].
  rewrite Ho, occupants_clearSlots. simpl.
  rewrite drop_replicate. do 3 f_equal.
  pose proof (wf_occupants_length levels Hvalid table Hwf). lia.
Qed.

Lemma update_inv (arr : list Particle.t) (ref : ShellPositionsRef)
    (s s' : ShellModelNucleus) :
  wf_table levels (deref ref s) →
  updateNucleonPositions levels assertEnabled arr ref s = Normal s' →
  Z.of_nat (length arr) ≤ TOTAL_CAPACITY levels ∧
  (assertEnabled = true → NoDup arr) ∧
  ∀ ref',
    fill_all (reservedFor ref' (incomingParticlesOf arr (deref ref s)))
             (countedOccupants levels arr ref s ref') =
      Some (occupants (deref ref' s')) ∧
    clearSlots (deref ref' s') = clearSlots (deref ref' s).
Proof.
  intros Hwf Hrun. unfold updateNucleonPositions in Hrun.
  rewrite rowWidth_valid in Hrun by done. simpl in Hrun.
  destruct (placeCounted levels assertEnabled arr 0 (clearSlots (deref ref s)))
    as [b|] eqn:Hb; simpl in Hrun; [|done].
  assert (wf_table levels (clearSlots (deref ref s))) as Hwfc.
  { eapply wf_table_clearSlots; [apply clearSlots_idem|done]. }
  pose proof (wf_occupants_length levels Hvalid _ Hwf) as Hlen.
  pose proof (placeCounted_fits levels assertEnabled Hvalid arr 0 _ _ Hwfc ltac:(lia) Hb)
    as Hfit.
  destruct (update_counted arr (deref ref s) Hwf ltac:(lia)) as (b' & Hb' & Hob & Hcb).
  rewrite Hb in Hb'. injection Hb' as <-.
  unfold assert_ in Hrun.
  destruct (assertEnabled && negb _) eqn:Hassert; simpl in Hrun; [done|].
  split; [lia|]. split.
  - intros ->. simpl in Hassert. apply negb_false_iff, bool_decide_eq_true_1 in Hassert.
    rewrite placedParticles_flat, Hob, omap_counted, filter_not_incoming in Hassert. done.
  - intros ref'.
    destruct (restoreReservations_inv assertEnabled _ _ _ Hrun ref') as [Hfill Hc].
    rewrite deref_assign in Hfill, Hc. unfold countedOccupants.
    destruct (decide (ref' = ref)) as [->|Hne]; [|done].
    rewrite <- Hob. split; [done|]. by rewrite Hc.
Qed.

Lemma update_ok (arr : list Particle.t) (ref : ShellPositionsRef) (s : ShellModelNucleus) :
  wf_table levels (deref ref s) →
  Z.of_nat (length arr) ≤ TOTAL_CAPACITY levels →
  (assertEnabled = true → NoDup arr) →
  (∀ ref', is_Some (fill_all (reservedFor ref' (incomingParticlesOf arr (deref ref s)))
                             (countedOccupants levels arr ref s ref'))) →
  ∃ s', updateNucleonPositions levels assertEnabled arr ref s = Normal s'.
Proof.
  intros Hwf Hfit Hnd Hroom. unfold updateNucleonPositions.
  rewrite rowWidth_valid by done. simpl.
  destruct (update_counted arr (deref ref s) Hwf Hfit) as (b & Hb & Hob & Hcb).
  rewrite Hb. simpl.
  assert (assert_ assertEnabled
            (bool_decide (NoDup (placedParticles (incomingParticlesOf arr (deref ref s)) b)))
            "There are duplicate particles in particleShellPositions." = Normal ()) as ->.
  { unfold assert_. destruct assertEnabled; [|done]. simpl.
    rewrite bool_decide_eq_true_2; [done|].
    rewrite placedParticles_flat, Hob, omap_counted, filter_not_incoming. by apply Hnd. }
  simpl. apply restoreReservations_ok. intros ref'.
  rewrite deref_assign. specialize (Hroom ref'). unfold countedOccupants in Hroom.
  destruct (decide (ref' = ref)) as [->|Hne]; [|done]. by rewrite Hob.
Qed.

End Update.

(** ** The table of EnergyLevelType.ts *)

Lemma ENERGY_LEVELS_valid : levels_valid EnergyLevelType.ENERGY_LEVELS.
Proof.
  split; [done|]. unfold EnergyLevelType.ENERGY_LEVELS.
  repeat (apply Forall_cons_2; [reflexivity|]). apply Forall_nil_2.
Qed.

Lemma ENERGY_LEVELS_total : TOTAL_CAPACITY EnergyLevelType.ENERGY_LEVELS = 40.
Proof. reflexivity. Qed.

Lemma constructor_wf (levels : list EnergyLevelType.t) (ref : ShellPositionsRef) :
  wf_table levels (deref ref (constructor levels)).
Proof.
  unfold wf_table. destruct ref; simpl; unfold initialShellPositions;
    rewrite map_map; rewrite <- (map_id (ALLOWED_PARTICLE_POSITIONS levels)) at 2;
    apply map_ext; intros row; rewrite map_map; simpl; apply map_id.
Qed.

(** ** Properties of the index helpers *)

(** C1. For every global index [i] with [0 <= i < TOTAL_CAPACITY],
    [getRowIndexForGlobalIndex] returns the smallest row [r] such that the
    capacity of rows [0..r] exceeds [i]; on the table of EnergyLevelType.ts,
    whose capacities are 2, 4, 2, 6, 2, 4, 8, 4, 6, 2, it returns rows
    0, 0, 1, 1, 2 for the indices 0, 1, 2, 5, 6. *)
Theorem getRowIndexForGlobalIndex_smallest_row (levels : list EnergyLevelType.t)
    (assertEnabled : bool) (i : Z) :
  0 ≤ i < TOTAL_CAPACITY levels →
  (∃ r : nat,
     getRowIndexForGlobalIndex levels assertEnabled i = Normal (Z.of_nat r) ∧
     (r < length levels)%nat ∧
     i < cumulativeCapacity levels (S r) ∧
     ∀ r' : nat, i < cumulativeCapacity levels (S r') → (r ≤ r')%nat) ∧
  map capacity EnergyLevelType.ENERGY_LEVELS = [2; 4; 2; 6; 2; 4; 8; 4; 6; 2] ∧
  map (getRowIndexForGlobalIndex EnergyLevelType.ENERGY_LEVELS assertEnabled) [0; 1; 2; 5; 6] =
    [Normal 0; Normal 0; Normal 1; Normal 1; Normal 2].
Proof.
  intros Hi. split; [|split; reflexivity].
  destruct (getRowIndexForGlobalIndex_in_range levels assertEnabled i Hi)
    as (r & Hrow & Hr & Hbetween & Hmin).
  exists r. split_and!; [done|done|lia|done].
Qed.

Lemma getRowIndexForGlobalIndex_smallest_row_witness :
  0 ≤ 5 < TOTAL_CAPACITY EnergyLevelType.ENERGY_LEVELS ∧
  ∃ r : nat,
    getRowIndexForGlobalIndex EnergyLevelType.ENERGY_LEVELS true 5 = Normal (Z.of_nat r) ∧
    (r < length EnergyLevelType.ENERGY_LEVELS)%nat ∧
    5 < cumulativeCapacity EnergyLevelType.ENERGY_LEVELS (S r) ∧
    ∀ r' : nat, 5 < cumulativeCapacity EnergyLevelType.ENERGY_LEVELS (S r') → (r ≤ r')%nat.
Proof.
  assert (0 ≤ 5 < TOTAL_CAPACITY EnergyLevelType.ENERGY_LEVELS) as Hi
    by (rewrite ENERGY_LEVELS_total; lia).
  split; [exact Hi|].
  exact (proj1 (getRowIndexForGlobalIndex_smallest_row
                  EnergyLevelType.ENERGY_LEVELS true 5 Hi)).
Defined.

(** C2 (as stated): with assertions disabled, the index one past the end does
    not fail: the last row index is returned. *)
Lemma getRowIndexForGlobalIndex_past_end_returns :
  TOTAL_CAPACITY EnergyLevelType.ENERGY_LEVELS = 40 ∧
  getRowIndexForGlobalIndex EnergyLevelType.ENERGY_LEVELS false 40 = Normal 9 ∧
  ¬ (∀ (assertEnabled : bool) (i : Z),
       TOTAL_CAPACITY EnergyLevelType.ENERGY_LEVELS ≤ i →
       ∃ e, getRowIndexForGlobalIndex EnergyLevelType.ENERGY_LEVELS assertEnabled i = Throw e).
Proof.
  split; [reflexivity|]. split; [reflexivity|].
  intros Hall. destruct (Hall false 40) as [e He]; [by rewrite ENERGY_LEVELS_total|].
  discriminate He.
Qed.

(** C2 (amended). For every index not below the total capacity,
    [getRowIndexForGlobalIndex] throws the assertion error whose message
    names the index when assertions are enabled (for a safe integer the
    message ends in its decimal digits), and returns the last row index when
    they are not. *)
Theorem getRowIndexForGlobalIndex_past_end (levels : list EnergyLevelType.t)
    (assertEnabled : bool) (i : Z) :
  levels_valid levels → TOTAL_CAPACITY levels ≤ i →
  getRowIndexForGlobalIndex levels assertEnabled i =
    (if assertEnabled
     then Throw (AssertionError ("index out of supported range: " +:+ Number_toString i))
     else Normal (Z.of_nat (length levels) - 1)) ∧
  (Number_isSafeInteger i → Number_toString i = pretty i).
Proof.
  intros Hv Hi. split.
  - by apply getRowIndexForGlobalIndex_out_of_range.
  - apply Number_toString_safe.
Qed.

Lemma getRowIndexForGlobalIndex_past_end_witness :
  getRowIndexForGlobalIndex EnergyLevelType.ENERGY_LEVELS true 40 =
    Throw (AssertionError "index out of supported range: 40") ∧
  getRowIndexForGlobalIndex EnergyLevelType.ENERGY_LEVELS true (10 ^ 21) =
    Throw (AssertionError "index out of supported range: 1e+21") ∧
  getRowIndexForGlobalIndex EnergyLevelType.ENERGY_LEVELS false 40 = Normal 9.
Proof.
  split_and!.
  - apply (getRowIndexForGlobalIndex_past_end EnergyLevelType.ENERGY_LEVELS true 40).
    + exact ENERGY_LEVELS_valid.
    + rewrite ENERGY_LEVELS_total. lia.
  - apply (getRowIndexForGlobalIndex_past_end EnergyLevelType.ENERGY_LEVELS true (10 ^ 21)).
    + exact ENERGY_LEVELS_valid.
    + rewrite ENERGY_LEVELS_total. lia.
  - apply (getRowIndexForGlobalIndex_past_end EnergyLevelType.ENERGY_LEVELS false 40).
    + exact ENERGY_LEVELS_valid.
    + rewrite ENERGY_LEVELS_total. lia.
Defined.

(** C7. The reached row is row 0 for count 0; it is [r] when the count is
    exactly the capacity of rows [0..r]; it is the last row when the count
    exceeds the total capacity. *)
Theorem getReachedRowIndexForCount_frontier (levels : list EnergyLevelType.t) :
  levels_valid levels →
  getReachedRowIndexForCount levels 0 = 0 ∧
  (∀ r : nat, (r < length levels)%nat →
     getReachedRowIndexForCount levels (cumulativeCapacity levels (S r)) = Z.of_nat r) ∧
  (∀ count : Z, TOTAL_CAPACITY levels < count →
     getReachedRowIndexForCount levels count = Z.of_nat (length levels) - 1).
Proof.
  intros Hv. pose proof Hv as [Hne Hpos]. split_and!.
  - unfold getReachedRowIndexForCount. destruct levels as [|level ls]; [done|].
    apply Forall_cons in Hpos as [Hc _]. simpl.
    by rewrite decide_True by lia.
  - intros r Hr. unfold getReachedRowIndexForCount.
    pose proof (cumulativeCapacity_pos levels r Hpos Hr).
    rewrite Z.max_r by lia.
    pose proof (getReachedRowIndexForCount_for_exact levels 0 0 r Hpos Hr) as Hloop.
    rewrite Z.add_0_l in Hloop. rewrite Hloop. lia.
  - intros count Hcount. unfold getReachedRowIndexForCount.
    rewrite getReachedRowIndexForCount_for_none; [done|done|].
    rewrite <- TOTAL_CAPACITY_sum. lia.
Qed.

Lemma getReachedRowIndexForCount_frontier_witness :
  getReachedRowIndexForCount EnergyLevelType.ENERGY_LEVELS 0 = 0 ∧
  (∀ r : nat, (r < length EnergyLevelType.ENERGY_LEVELS)%nat →
     getReachedRowIndexForCount EnergyLevelType.ENERGY_LEVELS
       (cumulativeCapacity EnergyLevelType.ENERGY_LEVELS (S r)) = Z.of_nat r) ∧
  (∀ count : Z, TOTAL_CAPACITY EnergyLevelType.ENERGY_LEVELS < count →
     getReachedRowIndexForCount EnergyLevelType.ENERGY_LEVELS count =
       Z.of_nat (length EnergyLevelType.ENERGY_LEVELS) - 1).
Proof.
  exact (getReachedRowIndexForCount_frontier EnergyLevelType.ENERGY_LEVELS ENERGY_LEVELS_valid).
Defined.

(** C8. [getLocalXIndex] returns the global index minus the capacity of the
    rows strictly before [rowIndex] (what [getCapacityBelowRow] computes),
    which is defined exactly when that difference is a slot of the row; and
    for every index below the total capacity, the local index for the row of
    [getRowIndexForGlobalIndex] lies in [[0, capacity[row] - 1]]. *)
Theorem getLocalXIndex_in_row (levels : list EnergyLevelType.t) (assertEnabled : bool) :
  levels_valid levels →
  (∀ (globalIndex : Z) (rowIndex : nat), (rowIndex < length levels)%nat →
     ∃ below,
       getCapacityBelowRow levels (Z.of_nat rowIndex) = Normal below ∧
       below = cumulativeCapacity levels rowIndex ∧
       getLocalXIndex levels globalIndex (Z.of_nat rowIndex) =
         Normal (if decide (0 ≤ globalIndex - below < rowCapacity levels rowIndex)
                 then Some (globalIndex - below) else None)) ∧
  (∀ index : Z, 0 ≤ index < TOTAL_CAPACITY levels →
     ∃ (row : nat) (below x : Z),
       getRowIndexForGlobalIndex levels assertEnabled index = Normal (Z.of_nat row) ∧
       getCapacityBelowRow levels (Z.of_nat row) = Normal below ∧
       getLocalXIndex levels index (Z.of_nat row) = Normal (Some x) ∧
       x = index - below ∧
       0 ≤ x ≤ rowCapacity levels row - 1).
Proof.
  intros Hv. split.
  - intros globalIndex rowIndex Hr. exists (cumulativeCapacity levels rowIndex).
    split_and!; [apply getCapacityBelowRow_spec; lia|done|by apply getLocalXIndex_spec].
  - intros index Hi.
    destruct (row_and_local_index levels assertEnabled index Hv Hi)
      as (r & Hr & Hrow & Hloc & Hrange).
    exists r, (cumulativeCapacity levels r), (index - cumulativeCapacity levels r).
    split_and!; [done|apply getCapacityBelowRow_spec; lia|done|done|lia|lia].
Qed.

Lemma getLocalXIndex_in_row_witness :
  ∃ (row : nat) (below x : Z),
    getRowIndexForGlobalIndex EnergyLevelType.ENERGY_LEVELS true 5 = Normal (Z.of_nat row) ∧
    getCapacityBelowRow EnergyLevelType.ENERGY_LEVELS (Z.of_nat row) = Normal below ∧
    getLocalXIndex EnergyLevelType.ENERGY_LEVELS 5 (Z.of_nat row) = Normal (Some x) ∧
    x = 5 - below ∧
    0 ≤ x ≤ rowCapacity EnergyLevelType.ENERGY_LEVELS row - 1.
Proof.
  apply (proj2 (getLocalXIndex_in_row EnergyLevelType.ENERGY_LEVELS true ENERGY_LEVELS_valid)).
  rewrite ENERGY_LEVELS_total. lia.
Defined.

(** ** Properties of reserving and releasing a slot *)

(** The slot found by the two [find] calls of [getParticleDestination] is the
    first empty one, rows first. *)
Lemma openShellPositionOf_first (table : ShellPositions) (r x : nat)
    (pos : ParticleShellPosition) :
  openShellPositionOf table = Some (r, Some (x, pos)) →
  ∃ row, table !! r = Some row ∧ row !! x = Some pos ∧ particle pos = None ∧
    (∀ (r' : nat) row', (r' < r)%nat → table !! r' = Some row' →
       Forall (fun pos' => particle pos' ≠ None) row') ∧
    (∀ (x' : nat) pos', (x' < x)%nat → row !! x' = Some pos' → particle pos' ≠ None).
Proof.
  unfold openShellPositionOf. intros Hfind.
  apply list_find_Some in Hfind as (Hr & _ & Hbefore).
  rewrite list_lookup_fmap in Hr.
  destruct (table !! r) as [row|] eqn:Hrow; simpl in Hr; [|done].
  injection Hr as Hopen. unfold findOpenPosition in Hopen.
  apply list_find_Some in Hopen as (Hx & Hnone & Hslots).
  exists row. split_and!; [done|done|done| |].
  - intros r' row' Hlt Hrow'.
    specialize (Hbefore r' (findOpenPosition row')).
    rewrite list_lookup_fmap, Hrow' in Hbefore. specialize (Hbefore eq_refl Hlt).
    unfold findOpenPosition in Hbefore.
    destruct (list_find _ row') as [found|] eqn:Hnot; [destruct Hbefore; by eexists|].
    by apply list_find_None in Hnot.
  - intros x' pos' Hlt Hpos'. by eapply Hslots.
Qed.

(** C6. When every slot of the table is occupied, [getParticleDestination]
    fails (the assertion error when assertions are enabled, a TypeError on the
    undefined slot otherwise); when some slot is free, it writes the particle
    into the first free slot, in row order and then slot order within the row,
    and returns the view coordinate of that slot: afterwards that slot holds
    the particle at the same position, every other slot of the table and the
    other table are as before. *)
Theorem getParticleDestination_first_free (assertEnabled : bool) `{view : ViewLayer}
    (particleType : ParticleTypeEnum) (p : Particle.t) (s : ShellModelNucleus) :
  (None ∉ occupants (deref (getNucleonShellPositions particleType) s) →
     getParticleDestination assertEnabled particleType p s =
       Throw (if assertEnabled
              then AssertionError "To add a particle there must be an empty particleShellPosition."
              else TypeError)) ∧
  (None ∈ occupants (deref (getNucleonShellPositions particleType) s) →
     ∃ (r x : nat) row pos s',
       deref (getNucleonShellPositions particleType) s !! r = Some row ∧
       row !! x = Some pos ∧ particle pos = None ∧
       (∀ (r' : nat) row', (r' < r)%nat →
          deref (getNucleonShellPositions particleType) s !! r' = Some row' →
          Forall (fun pos' => particle pos' ≠ None) row') ∧
       (∀ (x' : nat) pos', (x' < x)%nat → row !! x' = Some pos' → particle pos' ≠ None) ∧
       getParticleDestination assertEnabled particleType p s =
         Normal (addXY (modelToViewXY (xPosition pos) (Z.of_nat r))
                       (if decide (particleType = NEUTRON)
                        then X_DISTANCE_BETWEEN_ENERGY_LEVELS else 0) 0,
                 s') ∧
       s' = assign (getNucleonShellPositions particleType)
                   (<[r := <[x := setParticle (Some p) pos]> row]>
                      (deref (getNucleonShellPositions particleType) s))
                   s ∧
       slotAt (deref (getNucleonShellPositions particleType) s') r x =
         Some {| particle := Some p; xPosition := xPosition pos; type := type pos |} ∧
       (∀ r2 x2 : nat, (r2, x2) ≠ (r, x) →
          slotAt (deref (getNucleonShellPositions particleType) s') r2 x2 =
            slotAt (deref (getNucleonShellPositions particleType) s) r2 x2) ∧
       (∀ ref', ref' ≠ getNucleonShellPositions particleType →
          deref ref' s' = deref ref' s)).
Proof.
  set (ref := getNucleonShellPositions particleType). split.
  - intros Hfull.
    pose proof (getParticleDestination_flat assertEnabled particleType p s) as Hg.
    fold ref in Hg. destruct (fill_first p (occupants (deref ref s))) as [os'|] eqn:Hfill;
      [|done].
    destruct Hfull. apply (fill_first_is_Some p). rewrite Hfill. by eexists.
  - intros Hfree. apply (fill_first_is_Some p) in Hfree as [os' Hfill].
    pose proof (openShellPositionOf_spec (deref ref s) p) as Hspec.
    destruct (openShellPositionOf (deref ref s)) as [[r [[x pos]|]]|] eqn:Hopen;
      [|done|congruence].
    destruct Hspec as (row & Hr & Hx & _ & Halter).
    destruct (openShellPositionOf_first _ _ _ _ Hopen)
      as (row' & Hr' & _ & Hnone & Hrows & Hslots).
    assert (row' = row) as -> by congruence.
    pose proof (lookup_lt_Some _ _ _ Hr) as Hrlt.
    pose proof (lookup_lt_Some _ _ _ Hx) as Hxlt.
    eexists r, x, row, pos, _. split_and!; [done|done|done|done|done| |reflexivity| | |].
    + unfold getParticleDestination. fold ref.
      unfold openShellPositionOf in Hopen. rewrite Hopen.
      rewrite bool_decide_eq_true_2 by eauto. rewrite assert__true. simpl.
      by rewrite Halter.
    + rewrite deref_assign, decide_True by done. unfold slotAt.
      rewrite list_lookup_insert_eq by done. simpl.
      by rewrite list_lookup_insert_eq by done.
    + intros r2 x2 Hne. rewrite deref_assign, decide_True by done. unfold slotAt.
      destruct (decide (r2 = r)) as [->|Hr2].
      * rewrite list_lookup_insert_eq by done. rewrite Hr. simpl.
        apply list_lookup_insert_ne. congruence.
      * by rewrite list_lookup_insert_ne by done.
    + intros ref' Href. by rewrite deref_assign, decide_False by done.
Qed.

Lemma getParticleDestination_first_free_witness :
  (∃ (r x : nat) pos s',
     slotAt (protonShellPositions populatedExample) r x = Some pos ∧
     particle pos = None ∧
     getParticleDestination true (view := gridView) PROTON (proton 9) populatedExample =
       Normal ((xPosition pos + 0, Z.of_nat r + 0), s') ∧
     slotAt (protonShellPositions s') r x =
       Some {| particle := Some (proton 9); xPosition := xPosition pos; type := type pos |}) ∧
  getParticleDestination true (view := gridView) PROTON (proton 9) populatedExample =
    Normal ((1, 1), withProton 1 1 (proton 9) populatedExample) ∧
  getParticleDestination true (view := gridView) PROTON (proton 99) fullExample =
    Throw (AssertionError "To add a particle there must be an empty particleShellPosition.") ∧
  getParticleDestination false (view := gridView) PROTON (proton 99) fullExample =
    Throw TypeError.
Proof.
  split_and!.
  - destruct (proj2 (getParticleDestination_first_free true (view := gridView) PROTON
                       (proton 9) populatedExample))
      as (r & x & row & pos & s' & Hr & Hx & Hnone & _ & _ & Hrun & _ & Hslot & _).
    + vm_compute. do 5 right. left.
    + exists r, x, pos, s'. split_and!; [|exact Hnone|exact Hrun|exact Hslot].
      unfold slotAt. change (protonShellPositions populatedExample)
        with (deref (getNucleonShellPositions PROTON) populatedExample).
      rewrite Hr. exact Hx.
  - vm_compute. reflexivity.
  - apply (proj1 (getParticleDestination_first_free true (view := gridView) PROTON
                    (proton 99) fullExample)).
    apply (bool_decide_unpack _). vm_compute. exact I.
  - apply (proj1 (getParticleDestination_first_free false (view := gridView) PROTON
                    (proton 99) fullExample)).
    apply (bool_decide_unpack _). vm_compute. exact I.
Defined.

(** C5 (as stated): after [updateNucleonPositions] with the single counted
    proton 1, that proton holds no reservation (it is counted) and slots are
    free, yet [removeParticleFromShell] empties its slot, and reserving then
    releasing it does not give the table back. *)
Lemma release_counted_particle_changes_table :
  ∃ s d s1,
    updateNucleonPositions EnergyLevelType.ENERGY_LEVELS true (view := gridView)
      [proton 1] ProtonShells (constructor EnergyLevelType.ENERGY_LEVELS) = Normal s ∧
    incomingParticlesOf [proton 1] (protonShellPositions s) = [] ∧
    None ∈ occupants (protonShellPositions s) ∧
    removeParticleFromShell (proton 1) s ≠ s ∧
    getParticleDestination true (view := gridView) PROTON (proton 1) s = Normal (d, s1) ∧
    removeParticleFromShell (proton 1) s1 ≠ s.
Proof.
  eexists _, _, _. split; [vm_compute; reflexivity|].
  split; [vm_compute; reflexivity|].
  split; [vm_compute; apply list_elem_of_further, list_elem_of_here|].
  split; [vm_compute; discriminate|].
  split; [vm_compute; reflexivity|].
  vm_compute; discriminate.
Qed.

(** C5 (amended). For a particle that occupies no slot of the table of its
    type, [removeParticleFromShell] changes nothing, and when that table has a
    free slot, [getParticleDestination] followed by [removeParticleFromShell]
    on the same particle gives back exactly the prior tables. *)
Theorem reserve_then_release (assertEnabled : bool) `{view : ViewLayer}
    (p : Particle.t) (s : ShellModelNucleus) :
  Some p ∉ occupants (deref (getNucleonShellPositions (Particle.type p)) s) →
  removeParticleFromShell p s = s ∧
  (None ∈ occupants (deref (getNucleonShellPositions (Particle.type p)) s) →
   ∃ d s1,
     getParticleDestination assertEnabled (Particle.type p) p s = Normal (d, s1) ∧
     removeParticleFromShell p s1 = s).
Proof.
  intros Hfresh. set (ref := getNucleonShellPositions (Particle.type p)) in *.
  split.
  - destruct (removeParticleFromShell_flat p s) as (Ho & Hc & Hother). fold ref in Ho, Hc, Hother.
    apply nucleus_ext. intros ref'.
    destruct (decide (ref' = ref)) as [->|Hne]; [|by apply Hother].
    apply table_ext; [done|]. by rewrite Ho, release_absent.
  - intros Hfree. apply (fill_first_is_Some p) in Hfree as [os' Hfill].
    pose proof (getParticleDestination_flat assertEnabled (Particle.type p) p s) as Hg.
    fold ref in Hg. rewrite Hfill in Hg.
    destruct Hg as (d & s1 & Hrun & Ho1 & Hc1 & Hother1).
    exists d, s1. split; [done|].
    destruct (removeParticleFromShell_flat p s1) as (Ho & Hc & Hother).
    fold ref in Ho, Hc, Hother.
    apply nucleus_ext. intros ref'.
    destruct (decide (ref' = ref)) as [->|Hne].
    + apply table_ext; [congruence|].
      rewrite Ho, Ho1. by apply release_fill_first.
    + rewrite Hother by done. by apply Hother1.
Qed.

Lemma reserve_then_release_witness :
  removeParticleFromShell (proton 1) (constructor EnergyLevelType.ENERGY_LEVELS) =
    constructor EnergyLevelType.ENERGY_LEVELS ∧
  ∃ d s1,
    getParticleDestination true (view := gridView) PROTON (proton 1)
      (constructor EnergyLevelType.ENERGY_LEVELS) = Normal (d, s1) ∧
    removeParticleFromShell (proton 1) s1 = constructor EnergyLevelType.ENERGY_LEVELS.
Proof.
  assert (Some (proton 1) ∉
            occupants (deref (getNucleonShellPositions (Particle.type (proton 1)))
                             (constructor EnergyLevelType.ENERGY_LEVELS))) as Hfresh.
  { vm_compute. intros Hin. repeat (apply elem_of_cons in Hin as [Hin|Hin]; [discriminate|]).
    by apply elem_of_nil in Hin. }
  destruct (reserve_then_release true (view := gridView) (proton 1)
              (constructor EnergyLevelType.ENERGY_LEVELS) Hfresh) as [Hnoop Hround].
  split; [exact Hnoop|]. apply Hround. vm_compute. apply list_elem_of_here.
Defined.

(** ** Properties of [updateNucleonPositions] *)

Lemma elem_of_slotOccupants (table : ShellPositions) (q : Particle.t) :
  q ∈ slotOccupants table ↔ Some q ∈ occupants table.
Proof.
  unfold slotOccupants. rewrite list_elem_of_omap. split.
  - intros (o & Ho & Hq). simpl in Hq. by subst.
  - intros Hq. by exists (Some q).
Qed.

Lemma reservedFor_elem_of (ref : ShellPositionsRef) (ps : list Particle.t) (q : Particle.t) :
  q ∈ reservedFor ref ps ↔ getNucleonShellPositions (Particle.type q) = ref ∧ q ∈ ps.
Proof. unfold reservedFor. by rewrite list_elem_of_filter. Qed.

Lemma reservedFor_idem (ref : ShellPositionsRef) (ps : list Particle.t) :
  reservedFor ref (reservedFor ref ps) = reservedFor ref ps.
Proof.
  unfold reservedFor at 1. apply filter_all, Forall_forall. intros q Hq.
  by apply reservedFor_elem_of in Hq as [? _].
Qed.

Lemma reservedFor_other (ref ref' : ShellPositionsRef) (ps : list Particle.t) :
  ref' ≠ ref → reservedFor ref' (reservedFor ref ps) = [].
Proof.
  intros Hne. induction ps as [|p ps IH]; [done|]. unfold reservedFor in *.
  destruct (decide (getNucleonShellPositions (Particle.type p) = ref)) as [Heq|Hneq].
  - rewrite filter_cons_True by done. rewrite filter_cons_False by congruence. exact IH.
  - rewrite filter_cons_False by done. exact IH.
Qed.

Lemma reservedFor_not_counted (ref : ShellPositionsRef) (arr ps : list Particle.t) :
  Forall (fun q => q ∉ arr) ps → Forall (fun q => q ∉ arr) (reservedFor ref ps).
Proof.
  rewrite !Forall_forall. intros Hps q Hq.
  apply reservedFor_elem_of in Hq as [_ Hq]. by apply Hps.
Qed.

Lemma placedParticles_counted_only (arr incoming : list Particle.t) (b : ShellPositions) :
  (∀ q, Some q ∈ occupants b → q ∈ arr) → Forall (fun q => q ∉ arr) incoming →
  placedParticles incoming b = slotOccupants b.
Proof.
  intros Hcounted Hinc. rewrite placedParticles_flat. apply filter_all, Forall_forall.
  intros q Hq Hin. rewrite Forall_forall in Hinc.
  apply (Hinc q Hin), Hcounted. by apply elem_of_slotOccupants.
Qed.

(** C9. [updateNucleonPositions] is idempotent: when a call with an input
    sequence completes, a second call with the same sequence completes too and
    leaves both slot tables, re-reserved slots included, exactly as the first
    call left them. *)
Theorem updateNucleonPositions_idempotent (levels : list EnergyLevelType.t)
    (assertEnabled : bool) `{view : ViewLayer} (arr : list Particle.t)
    (ref : ShellPositionsRef) (s s1 : ShellModelNucleus) :
  updateNucleonPositions levels assertEnabled arr ref s = Normal s1 →
  updateNucleonPositions levels assertEnabled arr ref s1 = Normal s1.
Proof.
  intros Hrun. unfold updateNucleonPositions in Hrun |- *.
  destruct (rowWidth levels) as [[]|]; simpl in Hrun |- *; [|done].
  destruct (placeCounted levels assertEnabled arr 0 (clearSlots (deref ref s)))
    as [b|] eqn:Hb; simpl in Hrun; [|done].
  destruct (assert_ assertEnabled _ _) as [[]|] eqn:Hassert; simpl in Hrun; [|done].
  destruct (placeCounted_inv _ _ _ _ _ _ Hb) as [Hcb Hinb].
  rewrite clearSlots_idem in Hcb.
  assert (∀ q, Some q ∈ occupants b → q ∈ arr) as Hcounted.
  { intros q Hq. destruct (Hinb q Hq) as [Hq0|]; [|done].
    rewrite occupants_clearSlots in Hq0. by apply elem_of_replicate in Hq0 as [? _]. }
  pose proof (incomingParticlesOf_not_counted arr (deref ref s)) as Hinc.
  destruct (restoreReservations_inv assertEnabled _ _ _ Hrun ref) as [Hfill1 Hc1].
  rewrite deref_assign, decide_True in Hfill1, Hc1 by done.
  assert (incomingParticlesOf arr (deref ref s1) =
          reservedFor ref (incomingParticlesOf arr (deref ref s))) as Hinc1.
  { rewrite (incomingParticlesOf_flat arr (deref ref s1)).
    eapply fill_all_read_back; [exact Hcounted| |exact Hfill1].
    by apply reservedFor_not_counted. }
  rewrite Hinc1.
  assert (clearSlots (deref ref s1) = clearSlots (deref ref s)) as -> by congruence.
  rewrite Hb. simpl.
  rewrite (placedParticles_counted_only arr) in Hassert by done.
  rewrite (placedParticles_counted_only arr)
    by (done || by apply reservedFor_not_counted).
  rewrite Hassert. simpl.
  destruct (restoreReservations_ok assertEnabled
              (reservedFor ref (incomingParticlesOf arr (deref ref s)))
              (assign ref b s1)) as [s2 Hs2].
  { intros ref'. rewrite deref_assign. destruct (decide (ref' = ref)) as [->|Hne].
    - rewrite reservedFor_idem, Hfill1. by eexists.
    - rewrite reservedFor_other by done. rewrite fill_all_nil. by eexists. }
  rewrite Hs2. f_equal. apply nucleus_ext. intros ref'.
  destruct (restoreReservations_inv assertEnabled _ _ _ Hs2 ref') as [Hfill2 Hc2].
  rewrite deref_assign in Hfill2, Hc2.
  destruct (decide (ref' = ref)) as [->|Hne].
  - apply table_ext; [congruence|].
    rewrite reservedFor_idem, Hfill1 in Hfill2. by injection Hfill2.
  - apply table_ext; [done|].
    rewrite reservedFor_other, fill_all_nil in Hfill2 by done. by injection Hfill2.
Qed.

Lemma updateNucleonPositions_idempotent_witness :
  ∃ s1,
    updateNucleonPositions EnergyLevelType.ENERGY_LEVELS true (view := gridView)
      [proton 1; proton 2; proton 3] ProtonShells reservedExample = Normal s1 ∧
    omap id (take 5 (occupants (protonShellPositions s1))) =
      [proton 1; proton 2; proton 3; proton 8] ∧
    updateNucleonPositions EnergyLevelType.ENERGY_LEVELS true (view := gridView)
      [proton 1; proton 2; proton 3] ProtonShells s1 = Normal s1.
Proof.
  eexists. split; [vm_compute; reflexivity|]. split; [vm_compute; reflexivity|].
  apply (updateNucleonPositions_idempotent EnergyLevelType.ENERGY_LEVELS true (view := gridView)
           [proton 1; proton 2; proton 3] ProtonShells reservedExample).
  vm_compute. reflexivity.
Defined.

Lemma filter_none {A : Type} (P : A → Prop) `{∀ x, Decision (P x)} (l : list A) :
  Forall (fun x => ¬ P x) l → filter P l = [].
Proof.
  induction 1 as [|x l Hx Hl IH]; [done|].
  by rewrite filter_cons_False by done.
Qed.

Section Placement.

Variable levels : list EnergyLevelType.t.
Variable assertEnabled : bool.
Context `{view : ViewLayer}.
Hypothesis Hvalid : levels_valid levels.

(** After a completed call the table holds the counted particles first, then
    the particles that held a reservation in it, then empty slots. *)
Lemma update_occupants (arr : list Particle.t) (ref : ShellPositionsRef)
    (s s1 : ShellModelNucleus) :
  wf_table levels (deref ref s) →
  updateNucleonPositions levels assertEnabled arr ref s = Normal s1 →
  let inc := reservedFor ref (incomingParticlesOf arr (deref ref s)) in
  (length arr + length inc ≤ Z.to_nat (TOTAL_CAPACITY levels))%nat ∧
  occupants (deref ref s1) =
    map Some arr ++ map Some inc ++
    replicate (Z.to_nat (TOTAL_CAPACITY levels) - length arr - length inc) None.
Proof.
  intros Hwf Hrun inc.
  destruct (update_inv levels assertEnabled Hvalid arr ref s s1 Hwf Hrun)
    as (Hfit & _ & Htables).
  destruct (Htables ref) as [Hfill _]. unfold countedOccupants in Hfill.
  rewrite decide_True in Hfill by done. fold inc in Hfill.
  rewrite fill_all_skip, fill_all_empty in Hfill.
  destruct (decide (length inc ≤ Z.to_nat (TOTAL_CAPACITY levels) - length arr)%nat)
    as [Hle|]; simpl in Hfill; [|done].
  injection Hfill as <-. split; [lia|done].
Qed.

End Placement.

(** C3. For an input sequence of N distinct particles, N at most the total
    capacity, on a table of the constructor's shape in which every occupant is
    one of the input particles (no reservation is active),
    [updateNucleonPositions] completes, exactly N slots are occupied
    afterwards, and no particle occupies two slots: the occupants, in
    row-major order, are the input sequence. *)
Theorem updateNucleonPositions_places_each_once (levels : list EnergyLevelType.t)
    (assertEnabled : bool) `{view : ViewLayer} (arr : list Particle.t)
    (ref : ShellPositionsRef) (s : ShellModelNucleus) :
  levels_valid levels → wf_table levels (deref ref s) →
  NoDup arr → Z.of_nat (length arr) ≤ TOTAL_CAPACITY levels →
  (∀ q, Some q ∈ occupants (deref ref s) → q ∈ arr) →
  ∃ s',
    updateNucleonPositions levels assertEnabled arr ref s = Normal s' ∧
    length (slotOccupants (deref ref s')) = length arr ∧
    NoDup (slotOccupants (deref ref s')) ∧
    slotOccupants (deref ref s') = arr.
Proof.
  intros Hvalid Hwf Hnd Hfit Hnores.
  assert (incomingParticlesOf arr (deref ref s) = []) as Hinc.
  { rewrite incomingParticlesOf_flat. apply filter_none, Forall_forall.
    intros q Hq Hnot. apply Hnot, Hnores. by apply elem_of_slotOccupants. }
  destruct (update_ok levels assertEnabled Hvalid arr ref s Hwf Hfit) as [s' Hrun].
  { done. }
  { intros ref'. rewrite Hinc. unfold reservedFor. rewrite filter_nil, fill_all_nil.
    by eexists. }
  exists s'. split; [done|].
  destruct (update_occupants levels assertEnabled Hvalid arr ref s s' Hwf Hrun) as [_ Ho].
  rewrite Hinc in Ho. unfold reservedFor in Ho. rewrite filter_nil in Ho. simpl in Ho.
  assert (slotOccupants (deref ref s') = arr) as Hslots.
  { unfold slotOccupants. rewrite Ho. apply omap_counted. }
  rewrite Hslots. done.
Qed.

Lemma updateNucleonPositions_places_each_once_witness :
  ∃ s',
    updateNucleonPositions EnergyLevelType.ENERGY_LEVELS true (view := gridView)
      [proton 1; proton 2; proton 3] ProtonShells
      (constructor EnergyLevelType.ENERGY_LEVELS) = Normal s' ∧
    length (slotOccupants (protonShellPositions s')) = 3%nat ∧
    NoDup (slotOccupants (protonShellPositions s')) ∧
    slotOccupants (protonShellPositions s') = [proton 1; proton 2; proton 3].
Proof.
  apply (updateNucleonPositions_places_each_once EnergyLevelType.ENERGY_LEVELS true
           (view := gridView) [proton 1; proton 2; proton 3] ProtonShells
           (constructor EnergyLevelType.ENERGY_LEVELS)).
  - exact ENERGY_LEVELS_valid.
  - apply constructor_wf.
  - apply (bool_decide_unpack _). vm_compute. exact I.
  - rewrite ENERGY_LEVELS_total. simpl. lia.
  - intros q Hq. exfalso. vm_compute in Hq.
    repeat (apply elem_of_cons in Hq as [Hq|Hq]; [discriminate|]).
    by apply elem_of_nil in Hq.
Defined.

(** C4. The code at the failing input: proton 8 holds a reservation in slot
    (0, 1) (the state reached by reserving for protons 7 and 8 and releasing
    proton 7) and is not in the input sequence; after
    [updateNucleonPositions] slot (0, 1) is empty and proton 8 sits in slot
    (0, 0), against the comment of the restoring loop, which says that
    reservations keep their reserved shell slot. *)
Lemma reserved_slot_is_not_preserved :
  ∃ d1 s1 d2 s2 s',
    getParticleDestination true (view := gridView) PROTON (proton 7)
      (constructor EnergyLevelType.ENERGY_LEVELS) = Normal (d1, s1) ∧
    getParticleDestination true (view := gridView) PROTON (proton 8) s1 = Normal (d2, s2) ∧
    removeParticleFromShell (proton 7) s2 = reservedExample ∧
    particle <$> slotAt (protonShellPositions reservedExample) 0 1 = Some (Some (proton 8)) ∧
    ¬ (proton 8 ∈ ([] : list Particle.t)) ∧
    updateNucleonPositions EnergyLevelType.ENERGY_LEVELS true (view := gridView)
      [] ProtonShells reservedExample = Normal s' ∧
    particle <$> slotAt (protonShellPositions s') 0 1 = Some None ∧
    particle <$> slotAt (protonShellPositions s') 0 0 = Some (Some (proton 8)).
Proof.
  eexists _, _, _, _, _.
  split; [vm_compute; reflexivity|]. split; [vm_compute; reflexivity|].
  split; [vm_compute; reflexivity|]. split; [vm_compute; reflexivity|].
  split; [apply not_elem_of_nil|].
  split; [vm_compute; reflexivity|]. split; vm_compute; reflexivity.
Qed.

Lemma fill_all_occupied (ps : list Particle.t) (os os' : list (option Particle.t))
    (k : nat) (q : Particle.t) :
  fill_all ps os = Some os' →
  (os !! k = Some (Some q) → os' !! k = Some (Some q)) ∧
  (os' !! k = Some (Some q) → os !! k = Some (Some q) ∨ q ∈ ps).
Proof.
  revert ps os' k. induction os as [|o os IH]; intros ps os' k Hfill.
  - destruct ps; [|done]. rewrite fill_all_nil in Hfill. injection Hfill as <-. tauto.
  - destruct ps as [|p ps].
    { rewrite fill_all_nil in Hfill. injection Hfill as <-. tauto. }
    destruct o as [x|].
    + rewrite fill_all_Some_cons in Hfill.
      destruct (fill_all (p :: ps) os) as [os1|] eqn:H1; simpl in Hfill; [|done].
      injection Hfill as <-. destruct k as [|k]; [tauto|].
      exact (IH (p :: ps) os1 k H1).
    + cbn [fill_all] in Hfill.
      destruct (fill_all ps os) as [os1|] eqn:H1; simpl in Hfill; [|done].
      injection Hfill as <-. destruct k as [|k].
      * split; [done|]. intros Hk. injection Hk as <-. right. left.
      * destruct (IH ps os1 k H1) as [Hkeep Hnew]. split; [exact Hkeep|].
        intros Hk. destruct (Hnew Hk) as [Hold|Hin]; [by left|]. right. by right.
Qed.

(** X20. [updateNucleonPositions] empties every slot of its table, reserved
    ones included, remembers the occupants that are not in the input sequence
    in row-major order, places the input sequence, and lets each remembered
    particle reserve the first free slot of the table of its type.  So after a
    completed call on a table of the constructor's shape, the table holds the
    input sequence, then the remembered particles of its type in their former
    row-major order, then empty slots; the remembered particles of the other
    type have filled the first free slots of the other table; a particle of a
    duplicate-free input sequence occupies exactly one slot of the updated
    table, whether or not it held a reservation before; and in the other
    table it occupies exactly the slots it occupied before the call. *)
Theorem updateNucleonPositions_reservations (levels : list EnergyLevelType.t)
    (assertEnabled : bool) `{view : ViewLayer} (arr : list Particle.t)
    (ref : ShellPositionsRef) (s s' : ShellModelNucleus) :
  levels_valid levels → wf_table levels (deref ref s) →
  updateNucleonPositions levels assertEnabled arr ref s = Normal s' →
  let incoming := incomingParticlesOf arr (deref ref s) in
  occupants (deref ref s') =
    map Some arr ++ map Some (reservedFor ref incoming) ++
    replicate (Z.to_nat (TOTAL_CAPACITY levels) - length arr
               - length (reservedFor ref incoming)) None ∧
  (∀ ref', ref' ≠ ref →
     fill_all (reservedFor ref' incoming) (occupants (deref ref' s)) =
       Some (occupants (deref ref' s'))) ∧
  (NoDup arr → ∀ p, p ∈ arr →
     ∃ k : nat, occupants (deref ref s') !! k = Some (Some p) ∧
       ∀ k' : nat, occupants (deref ref s') !! k' = Some (Some p) → k' = k) ∧
  (∀ ref' p (k : nat), ref' ≠ ref → p ∈ arr →
     occupants (deref ref' s') !! k = Some (Some p) ↔
     occupants (deref ref' s) !! k = Some (Some p)).
Proof.
  intros Hvalid Hwf Hrun incoming.
  destruct (update_occupants levels assertEnabled Hvalid arr ref s s' Hwf Hrun) as [Hlen Ho].
  fold incoming in Hlen, Ho.
  assert (∀ ref', ref' ≠ ref →
            fill_all (reservedFor ref' incoming) (occupants (deref ref' s)) =
              Some (occupants (deref ref' s'))) as Hother.
  { intros ref' Hne.
    destruct (update_inv levels assertEnabled Hvalid arr ref s s' Hwf Hrun)
      as (_ & _ & Htables).
    destruct (Htables ref') as [Hfill _]. unfold countedOccupants in Hfill.
    by rewrite decide_False in Hfill by done. }
  split; [exact Ho|]. split; [exact Hother|]. split; last first.
  - intros ref' p k Hne Hp.
    destruct (fill_all_occupied _ _ _ k p (Hother ref' Hne)) as [Hkeep Hnew].
    split; [|exact Hkeep]. intros Hk. destruct (Hnew Hk) as [?|Hin]; [done|].
    exfalso. apply reservedFor_elem_of in Hin as [_ Hin].
    pose proof (incomingParticlesOf_not_counted arr (deref ref s)) as Hnot.
    rewrite Forall_forall in Hnot. by apply (Hnot p).
  - intros Hnd p Hp.
    assert (∀ k : nat, occupants (deref ref s') !! k = Some (Some p) → arr !! k = Some p)
      as Hin_arr.
    { intros k Hk. rewrite Ho in Hk.
      apply lookup_app_Some in Hk as [Hk|[_ Hk]].
      - rewrite list_lookup_fmap in Hk. destruct (arr !! k); simpl in Hk; congruence.
      - exfalso. apply list_elem_of_lookup_2, elem_of_app in Hk as [Hk|Hk].
        + apply list_elem_of_fmap in Hk as (q & Hq & Hk). injection Hq as <-.
          apply reservedFor_elem_of in Hk as [_ Hk].
          pose proof (incomingParticlesOf_not_counted arr (deref ref s)) as Hnot.
          rewrite Forall_forall in Hnot. by apply (Hnot p).
        + by apply elem_of_replicate in Hk as [? _]. }
    apply list_elem_of_lookup_1 in Hp as [k Hk]. exists k. split.
    + rewrite Ho. apply lookup_app_l_Some. by rewrite list_lookup_fmap, Hk.
    + intros k' Hk'. apply Hin_arr in Hk'. by eapply NoDup_lookup.
Qed.

Lemma updateNucleonPositions_reservations_witness :
  ∃ s',
    updateNucleonPositions EnergyLevelType.ENERGY_LEVELS true (view := gridView)
      [proton 1; proton 2] ProtonShells reservedExample = Normal s' ∧
    occupants (protonShellPositions s') =
      map Some [proton 1; proton 2] ++ map Some [proton 8] ++ replicate 37 None.
Proof.
  eexists. split; [vm_compute; reflexivity|].
  apply (updateNucleonPositions_reservations EnergyLevelType.ENERGY_LEVELS true
           (view := gridView) [proton 1; proton 2] ProtonShells reservedExample).
  - exact ENERGY_LEVELS_valid.
  - vm_compute. reflexivity.
  - vm_compute. reflexivity.
Defined.

(** *** Reordering the input sequence *)

Lemma filledInRow_ext (k : nat) (row row' : list ParticleShellPosition) :
  map xPosition row = map xPosition row' →
  map occupied (map particle row) = map occupied (map particle row') →
  filledInRow k row = filledInRow k row'.
Proof.
  revert row'. induction row as [|pos row IH]; intros [|pos' row'] Hx Ho;
    simpl in *; try done.
  injection Hx as Hx1 Hx2. injection Ho as Ho1 Ho2.
  unfold filledInRow in *. cbn [omap list_omap].
  rewrite (IH row' Hx2 Ho2), Hx1.
  destruct (particle pos), (particle pos'); simpl in *; done.
Qed.

Lemma filledPositions_from (k : nat) (table table' : ShellPositions) :
  clearSlots table = clearSlots table' →
  map occupied (occupants table) = map occupied (occupants table') →
  concat (imap (fun i => filledInRow (k + i)) table) =
    concat (imap (fun i => filledInRow (k + i)) table').
Proof.
  revert k table'. induction table as [|row table IH]; intros k [|row' table'] Hc Ho;
    simpl in Hc; try done.
  injection Hc as Hc1 Hc2. rewrite !occupants_cons, !map_app in Ho.
  apply app_inj_1 in Ho as [Ho1 Ho2].
  2:{ rewrite !length_map. apply (f_equal length) in Hc1. by rewrite !length_map in Hc1. }
  rewrite !imap_cons. cbn [concat]. f_equal.
  - apply filledInRow_ext; [|done].
    apply (f_equal (map xPosition)) in Hc1. rewrite !map_map in Hc1. exact Hc1.
  - rewrite (imap_ext _ (fun i => filledInRow (S k + i)) table)
      by (intros; simpl; f_equal; lia).
    rewrite (imap_ext (_ ∘ S) (fun i => filledInRow (S k + i)) table')
      by (intros; simpl; f_equal; lia).
    by apply IH.
Qed.

Lemma filledPositions_ext (table table' : ShellPositions) :
  clearSlots table = clearSlots table' →
  map occupied (occupants table) = map occupied (occupants table') →
  filledPositions table = filledPositions table'.
Proof. intros Hc Ho. exact (filledPositions_from 0 table table' Hc Ho). Qed.

Lemma occupied_counted (arr : list Particle.t) :
  map occupied (map Some arr) = replicate (length arr) true.
Proof. induction arr as [|p arr IH]; simpl; [done|]. by rewrite IH. Qed.

Section Reordering.

Variable levels : list EnergyLevelType.t.
Variable assertEnabled : bool.
Context `{view : ViewLayer}.
Hypothesis Hvalid : levels_valid levels.

Lemma incomingParticlesOf_Permutation (arr arr' : list Particle.t) (table : ShellPositions) :
  arr ≡ₚ arr' → incomingParticlesOf arr' table = incomingParticlesOf arr table.
Proof.
  intros Hperm. rewrite !incomingParticlesOf_flat. apply list_filter_iff.
  intros q. by rewrite Hperm.
Qed.

Lemma update_permuted (arr arr' : list Particle.t) (ref : ShellPositionsRef)
    (s s1 : ShellModelNucleus) :
  wf_table levels (deref ref s) → NoDup arr → arr ≡ₚ arr' →
  updateNucleonPositions levels assertEnabled arr ref s = Normal s1 →
  ∃ s2,
    updateNucleonPositions levels assertEnabled arr' ref s = Normal s2 ∧
    ∀ ref', filledPositions (deref ref' s2) = filledPositions (deref ref' s1).
Proof.
  intros Hwf Hnd Hperm Hrun.
  pose proof (Permutation_length Hperm) as Hlen.
  pose proof (incomingParticlesOf_Permutation arr arr' (deref ref s) Hperm) as Hinc.
  destruct (update_inv levels assertEnabled Hvalid arr ref s s1 Hwf Hrun)
    as (Hfit & _ & Htables).
  destruct (update_ok levels assertEnabled Hvalid arr' ref s Hwf) as [s2 Hrun2].
  { lia. }
  { intros _. by rewrite <- Hperm. }
  { intros ref'. rewrite Hinc. destruct (Htables ref') as [Hfill _].
    unfold countedOccupants in *. destruct (decide (ref' = ref)) as [->|Hne].
    - rewrite fill_all_skip in Hfill |- *. rewrite <- Hlen.
      destruct (fill_all _ (replicate _ None)); [by eexists|done].
    - rewrite Hfill. by eexists. }
  exists s2. split; [done|]. intros ref'.
  destruct (update_inv levels assertEnabled Hvalid arr' ref s s2 Hwf Hrun2)
    as (_ & _ & Htables2).
  destruct (Htables ref') as [Hfill1 Hc1]. destruct (Htables2 ref') as [Hfill2 Hc2].
  rewrite Hinc in Hfill2. unfold countedOccupants in *.
  apply filledPositions_ext; [congruence|].
  destruct (decide (ref' = ref)) as [->|Hne].
  - rewrite fill_all_skip in Hfill1, Hfill2. rewrite <- Hlen in Hfill2.
    destruct (fill_all _ (replicate _ None)) as [rest|]; simpl in *; [|done].
    injection Hfill1 as <-. injection Hfill2 as <-.
    by rewrite !map_app, !occupied_counted, Hlen.
  - congruence.
Qed.

End Reordering.

(** C10. When [updateNucleonPositions] completes for a sequence of distinct
    particles, it completes for every permutation of the sequence and fills
    the same (row, slot) positions in both tables; and when the sequence has
    at least two particles, there is a permutation different from it for which
    some slot has a different occupant. *)
Theorem updateNucleonPositions_order (levels : list EnergyLevelType.t)
    (assertEnabled : bool) `{view : ViewLayer} (arr arr' : list Particle.t)
    (ref : ShellPositionsRef) (s s1 : ShellModelNucleus) :
  levels_valid levels → wf_table levels (deref ref s) →
  NoDup arr → arr ≡ₚ arr' →
  updateNucleonPositions levels assertEnabled arr ref s = Normal s1 →
  (∃ s2,
     updateNucleonPositions levels assertEnabled arr' ref s = Normal s2 ∧
     ∀ ref', filledPositions (deref ref' s2) ≡ₚ filledPositions (deref ref' s1)) ∧
  ((2 ≤ length arr)%nat →
   ∃ arr'' s3,
     arr ≡ₚ arr'' ∧ arr'' ≠ arr ∧
     updateNucleonPositions levels assertEnabled arr'' ref s = Normal s3 ∧
     ∃ k : nat, occupants (deref ref s3) !! k ≠ occupants (deref ref s1) !! k).
Proof.
  intros Hvalid Hwf Hnd Hperm Hrun. split.
  - destruct (update_permuted levels assertEnabled Hvalid arr arr' ref s s1
                Hwf Hnd Hperm Hrun) as (s2 & Hrun2 & Hfilled).
    exists s2. split; [done|]. intros ref'. by rewrite Hfilled.
  - intros Htwo. destruct arr as [|a1 [|a2 rest]]; simpl in Htwo; [lia|lia|].
    assert (a1 ≠ a2) as Hne.
    { apply NoDup_cons in Hnd as [Hnot _]. intros ->. apply Hnot. by left. }
    assert (a1 :: a2 :: rest ≡ₚ a2 :: a1 :: rest) as Hswap by apply Permutation_swap.
    destruct (update_permuted levels assertEnabled Hvalid _ _ ref s s1
                Hwf Hnd Hswap Hrun) as (s3 & Hrun3 & _).
    exists (a2 :: a1 :: rest), s3. split_and!; [done|congruence|done|].
    destruct (update_occupants levels assertEnabled Hvalid _ ref s s1 Hwf Hrun) as [_ Ho1].
    destruct (update_occupants levels assertEnabled Hvalid _ ref s s3 Hwf Hrun3) as [_ Ho3].
    exists 0%nat. rewrite Ho1, Ho3. simpl. congruence.
Qed.

Lemma updateNucleonPositions_order_witness :
  ∃ s1 s2,
    updateNucleonPositions EnergyLevelType.ENERGY_LEVELS true (view := gridView)
      [proton 1; proton 2; proton 3] ProtonShells reservedExample = Normal s1 ∧
    updateNucleonPositions EnergyLevelType.ENERGY_LEVELS true (view := gridView)
      [proton 3; proton 1; proton 2] ProtonShells reservedExample = Normal s2 ∧
    ∀ ref', filledPositions (deref ref' s2) ≡ₚ filledPositions (deref ref' s1).
Proof.
  destruct (updateNucleonPositions EnergyLevelType.ENERGY_LEVELS true (view := gridView)
              [proton 1; proton 2; proton 3] ProtonShells reservedExample)
    as [s1|e] eqn:Hrun; [|vm_compute in Hrun; discriminate Hrun].
  destruct (updateNucleonPositions_order EnergyLevelType.ENERGY_LEVELS true
              (view := gridView) [proton 1; proton 2; proton 3]
              [proton 3; proton 1; proton 2] ProtonShells reservedExample s1)
    as [(s2 & Hrun2 & Hfilled) _].
  - exact ENERGY_LEVELS_valid.
  - vm_compute. reflexivity.
  - apply (bool_decide_unpack _). vm_compute. exact I.
  - apply (bool_decide_unpack _). vm_compute. exact I.
  - exact Hrun.
  - exists s1, s2. split; [reflexivity|]. split; [exact Hrun2|exact Hfilled].
Defined.

(** * Further properties of the code *)

(** ** Index helpers *)

Lemma cumulativeCapacity_le (levels : list EnergyLevelType.t) (j k : nat) :
  levels_valid levels → (j ≤ k)%nat →
  cumulativeCapacity levels j ≤ cumulativeCapacity levels k.
Proof.
  intros Hv Hjk. induction Hjk as [|k Hjk IH]; [lia|].
  rewrite cumulativeCapacity_S_row. unfold rowCapacity.
  destruct (levels !! k) as [level|] eqn:Hk; simpl; [|lia].
  pose proof (valid_capacity_pos _ _ _ Hv Hk). lia.
Qed.

(** The two loops over the capacities, of EnergyLevelType.ts and of
    ShellModelNucleus.ts, stop at the same row. *)
Lemma getForIndex_for_row (pre ls : list EnergyLevelType.t) (r : Z) :
  match getRowIndexForGlobalIndex_for ls (Z.of_nat (length pre)) r with
  | Some k => is_Some (getForIndex_for ls r) ∧ getForIndex_for ls r = at_index (pre ++ ls) k
  | None => getForIndex_for ls r = None
  end.
Proof.
  revert pre r. induction ls as [|level ls IH]; intros pre r; simpl; [done|].
  destruct (decide (r - capacity level < 0)) as [Hneg|Hpos].
  - split; [by eexists|]. unfold at_index. rewrite decide_True by lia.
    rewrite Nat2Z.id. by rewrite list_lookup_middle.
  - specialize (IH (pre ++ [level]) (r - capacity level)).
    rewrite length_app, Nat2Z.inj_add in IH. simpl in IH.
    rewrite <- app_assoc in IH. exact IH.
Qed.

(** X1. [EnergyLevelType.getForIndex] returns the level of the row that
    [getRowIndexForGlobalIndex] returns, for every index and table: the same
    level in range, the last level past the end when assertions are disabled;
    and where the other throws it throws the same error, the assertion error
    whose message names the index as the template prints it (the decimal
    digits of a safe integer). *)
Theorem getForIndex_is_level_of_row (levels : list EnergyLevelType.t)
    (assertEnabled : bool) (index : Z) :
  match getRowIndexForGlobalIndex levels assertEnabled index with
  | Normal row => getForIndex levels assertEnabled index = Normal (at_index levels row)
  | Throw e =>
      getForIndex levels assertEnabled index = Throw e ∧
      e = AssertionError ("index out of supported range: " +:+ Number_toString index) ∧
      (Number_isSafeInteger index →
       e = AssertionError ("index out of supported range: " +:+ pretty index))
  end.
Proof.
  unfold getRowIndexForGlobalIndex, getForIndex.
  pose proof (getForIndex_for_row [] levels index) as Hloop.
  change (Z.of_nat (length (@nil EnergyLevelType.t))) with 0 in Hloop.
  change ([] ++ levels) with levels in Hloop.
  destruct (getRowIndexForGlobalIndex_for levels 0 index) as [k|] eqn:Hk.
  - destruct Hloop as [[level Hlevel] Hat]. rewrite Hlevel. by rewrite <- Hat, Hlevel.
  - rewrite Hloop. unfold assert_. destruct assertEnabled; simpl; [|done].
    split_and!; [done|done|]. intros Hsafe. by rewrite Number_toString_safe.
Qed.

Lemma getReachedRowIndexForCount_for_row (ls : list EnergyLevelType.t)
    (i0 safeCount running : Z) :
  getReachedRowIndexForCount_for ls i0 safeCount running =
    getRowIndexForGlobalIndex_for ls i0 (safeCount - 1 - running).
Proof.
  revert i0 running. induction ls as [|level ls IH]; intros i0 running; simpl; [done|].
  destruct (decide (safeCount ≤ running + capacity level)).
  - by rewrite decide_True by lia.
  - rewrite decide_False by lia. rewrite IH. f_equal. lia.
Qed.

(** X2. For a count between 1 and the total capacity, the reached row is the
    row of the last counted particle, the one of global index [count - 1]. *)
Theorem getReachedRowIndexForCount_is_row_of_last (levels : list EnergyLevelType.t)
    (assertEnabled : bool) (count : Z) :
  1 ≤ count ≤ TOTAL_CAPACITY levels →
  getRowIndexForGlobalIndex levels assertEnabled (count - 1) =
    Normal (getReachedRowIndexForCount levels count).
Proof.
  intros Hcount. unfold getReachedRowIndexForCount, getRowIndexForGlobalIndex.
  rewrite Z.max_r by lia. rewrite getReachedRowIndexForCount_for_row.
  replace (count - 1 - 0) with (count - 1) by lia.
  destruct (getRowIndexForGlobalIndex_for_found levels 0 (count - 1)) as (k & _ & Hk & _).
  { rewrite <- TOTAL_CAPACITY_sum. lia. }
  by rewrite Hk.
Qed.

Lemma getReachedRowIndexForCount_is_row_of_last_witness :
  getRowIndexForGlobalIndex EnergyLevelType.ENERGY_LEVELS true (8 - 1) =
    Normal (getReachedRowIndexForCount EnergyLevelType.ENERGY_LEVELS 8).
Proof.
  apply (getReachedRowIndexForCount_is_row_of_last EnergyLevelType.ENERGY_LEVELS true 8).
  rewrite ENERGY_LEVELS_total. lia.
Defined.

(** ** The widest row and the bounds of the positioning transform *)

Lemma Math_max_spec (xs : list Z) :
  xs ≠ [] → ∃ m, Math_max xs = Some m ∧ m ∈ xs ∧ ∀ x, x ∈ xs → x ≤ m.
Proof.
  induction xs as [|x xs IH]; intros Hne; [done|].
  destruct xs as [|y ys].
  - exists x. split; [done|]. split; [by left|].
    intros z Hz. apply list_elem_of_singleton in Hz. lia.
  - destruct IH as (m & Hm & Hin & Hmax); [done|].
    exists (Z.max x m). unfold Math_max in *. cbn [foldr] in *. rewrite Hm. simpl.
    split; [done|]. split.
    + destruct (Z.max_spec x m) as [[_ ->]|[_ ->]]; [by right|by left].
    + intros z Hz. apply elem_of_cons in Hz as [->|Hz]; [lia|].
      specialize (Hmax z Hz). lia.
Qed.

(** The reduction keeps the first row of largest capacity seen so far. *)
Lemma widestRowIndex_reduce_first_max (levels pre rest : list EnergyLevelType.t)
    (bestIdx : nat) (best : EnergyLevelType.t) :
  levels = pre ++ rest → levels !! bestIdx = Some best → (bestIdx ≤ length pre)%nat →
  (∀ (j : nat) l, pre !! j = Some l → capacity l ≤ capacity best) →
  (∀ (j : nat) l, (j < bestIdx)%nat → pre !! j = Some l → capacity l < capacity best) →
  ∃ (widest : nat) w,
    widestRowIndex_reduce levels rest (length pre) bestIdx = Normal widest ∧
    levels !! widest = Some w ∧
    (∀ (j : nat) l, levels !! j = Some l → capacity l ≤ capacity w) ∧
    (∀ (j : nat) l, (j < widest)%nat → levels !! j = Some l → capacity l < capacity w).
Proof.
  revert pre bestIdx best. induction rest as [|level rest IH];
    intros pre bestIdx best Hsplit Hbest Hbound Hall Hfirst.
  - rewrite app_nil_r in Hsplit. subst pre. by exists bestIdx, best.
  - simpl. rewrite Hbest.
    assert (levels !! length pre = Some level) as Hlevel
      by (rewrite Hsplit; apply list_lookup_middle; done).
    assert (levels = (pre ++ [level]) ++ rest) as Hsplit' by (by rewrite <- app_assoc).
    specialize (IH (pre ++ [level])). rewrite length_app in IH. simpl in IH.
    replace (length pre + 1)%nat with (S (length pre)) in IH by lia.
    destruct (decide (capacity level > capacity best)) as [Hgt|Hle].
    + apply (IH (length pre) level Hsplit' Hlevel); [lia| |].
      * intros j l Hj. apply lookup_app_Some in Hj as [Hj|[_ Hj]].
        -- specialize (Hall j l Hj). lia.
        -- apply list_lookup_singleton_Some in Hj as [_ ->]. lia.
      * intros j l Hlt Hj. apply lookup_app_Some in Hj as [Hj|[Hge _]]; [|lia].
        specialize (Hall j l Hj). lia.
    + apply (IH bestIdx best Hsplit' Hbest); [lia| |].
      * intros j l Hj. apply lookup_app_Some in Hj as [Hj|[_ Hj]].
        -- by apply (Hall j).
        -- apply list_lookup_singleton_Some in Hj as [_ ->]. lia.
      * intros j l Hlt Hj. apply lookup_app_Some in Hj as [Hj|[Hge Hj]].
        -- by apply (Hfirst j).
        -- apply list_lookup_singleton_Some in Hj as [Hj0 ->].
           lia.
Qed.

(** X3. On a non-empty table [widestRowIndex] is the first row of largest
    capacity, and that capacity is [MAX_LEVEL_CAPACITY]. *)
Theorem widestRowIndex_first_largest (levels : list EnergyLevelType.t) :
  levels ≠ [] →
  ∃ (widest : nat) w,
    widestRowIndex levels = Normal widest ∧ levels !! widest = Some w ∧
    MAX_LEVEL_CAPACITY levels = Some (capacity w) ∧
    (∀ (j : nat) l, levels !! j = Some l → capacity l ≤ capacity w) ∧
    (∀ (j : nat) l, (j < widest)%nat → levels !! j = Some l → capacity l < capacity w).
Proof.
  intros Hne. destruct levels as [|level0 ls] eqn:Hlevels; [done|]. rewrite <- Hlevels in *.
  destruct (widestRowIndex_reduce_first_max levels [] levels 0 level0)
    as (widest & w & Hrun & Hw & Hmax & Hfirst);
    [done|by rewrite Hlevels|simpl; lia|by intros j l ?|intros; lia|].
  exists widest, w. split_and!; [done|done| |done|done].
  destruct (Math_max_spec (map capacity levels)) as (m & Hm & Hin & Hle).
  { rewrite Hlevels. done. }
  unfold MAX_LEVEL_CAPACITY. rewrite Hm. f_equal.
  apply list_elem_of_fmap in Hin as (l & -> & Hl).
  apply list_elem_of_lookup_1 in Hl as [j Hj]. specialize (Hmax j l Hj).
  assert (capacity w ≤ capacity l); [|lia].
  apply Hle, list_elem_of_fmap. exists w. split; [done|]. by eapply list_elem_of_lookup_2.
Qed.

Lemma widestRowIndex_first_largest_witness :
  ∃ (widest : nat) w,
    widestRowIndex EnergyLevelType.ENERGY_LEVELS = Normal widest ∧
    EnergyLevelType.ENERGY_LEVELS !! widest = Some w ∧
    MAX_LEVEL_CAPACITY EnergyLevelType.ENERGY_LEVELS = Some (capacity w) ∧
    (∀ (j : nat) l, EnergyLevelType.ENERGY_LEVELS !! j = Some l → capacity l ≤ capacity w) ∧
    (∀ (j : nat) l, (j < widest)%nat → EnergyLevelType.ENERGY_LEVELS !! j = Some l →
       capacity l < capacity w).
Proof.
  apply (widestRowIndex_first_largest EnergyLevelType.ENERGY_LEVELS). discriminate.
Defined.

(** X4. Every allowed slot position lies inside the model bounds given to the
    positioning transform: its x is between 0 and
    [NUMBER_OF_RADII_SPACES_BETWEEN_PARTICLES], its row between 0 and
    [NUMBER_OF_Y_SPACINGS]. *)
Theorem allowed_positions_within_bounds (levels : list EnergyLevelType.t)
    (row : nat) (positions : list Z) (x : Z) :
  ALLOWED_PARTICLE_POSITIONS levels !! row = Some positions → x ∈ positions →
  0 ≤ x ≤ NUMBER_OF_RADII_SPACES_BETWEEN_PARTICLES levels ∧
  0 ≤ Z.of_nat row ≤ NUMBER_OF_Y_SPACINGS levels.
Proof.
  intros Hrow Hx. rewrite ALLOWED_PARTICLE_POSITIONS_lookup in Hrow.
  destruct (levels !! row) as [level|] eqn:Hlevel; simpl in Hrow; [|done].
  injection Hrow as <-.
  apply list_elem_of_fmap in Hx as (k & -> & Hk). apply elem_of_seq in Hk.
  pose proof (lookup_lt_Some _ _ _ Hlevel) as Hlt.
  split.
  - destruct (Math_max_spec (map capacity levels)) as (m & Hm & _ & Hle).
    { by destruct levels. }
    unfold NUMBER_OF_RADII_SPACES_BETWEEN_PARTICLES, MAX_LEVEL_CAPACITY. rewrite Hm.
    assert (capacity level ≤ m).
    { apply Hle, list_elem_of_fmap. exists level. split; [done|].
      by eapply list_elem_of_lookup_2. }
    lia.
  - unfold NUMBER_OF_Y_SPACINGS, NUMBER_OF_ENERGY_LEVELS. lia.
Qed.

Lemma allowed_positions_within_bounds_witness :
  0 ≤ 5 ≤ NUMBER_OF_RADII_SPACES_BETWEEN_PARTICLES EnergyLevelType.ENERGY_LEVELS ∧
  0 ≤ Z.of_nat 3 ≤ NUMBER_OF_Y_SPACINGS EnergyLevelType.ENERGY_LEVELS.
Proof.
  apply (allowed_positions_within_bounds EnergyLevelType.ENERGY_LEVELS 3 [0; 1; 2; 3; 4; 5] 5).
  - reflexivity.
  - do 5 apply list_elem_of_further. apply list_elem_of_here.
Defined.

(** ** sumCapByLabels *)

Lemma capMap_foldl_other (ls : list EnergyLevelType.t) (m : gmap string Z) (key : string) :
  key ∉ map EnergyLevelType.label ls →
  foldl (fun m level => <[EnergyLevelType.label level := capacity level]> m) m ls !! key =
    m !! key.
Proof.
  revert m. induction ls as [|l ls IH]; intros m Hnot; simpl in *; [done|].
  apply not_elem_of_cons in Hnot as [Hne Hnot].
  rewrite IH by done. by rewrite lookup_insert_ne.
Qed.

Lemma capMap_foldl_lookup (ls : list EnergyLevelType.t) (m : gmap string Z)
    (level : EnergyLevelType.t) :
  NoDup (map EnergyLevelType.label ls) → level ∈ ls →
  foldl (fun m level => <[EnergyLevelType.label level := capacity level]> m) m ls
    !! EnergyLevelType.label level = Some (capacity level).
Proof.
  revert m. induction ls as [|l ls IH]; intros m Hnd Hin; simpl in *.
  - by apply elem_of_nil in Hin.
  - apply NoDup_cons in Hnd as [Hnot Hnd].
    apply elem_of_cons in Hin as [->|Hin].
    + rewrite capMap_foldl_other by done. by rewrite lookup_insert_eq.
    + by apply IH.
Qed.

Lemma capMap_lookup_None (levels : list EnergyLevelType.t) (key : string) :
  key ∉ map EnergyLevelType.label levels → capMap levels !! key = None.
Proof. intros Hnot. unfold capMap. by rewrite capMap_foldl_other. Qed.

Lemma sumCapByLabels_forEach_known (levels ls : list EnergyLevelType.t)
    (assertEnabled : bool) (sum : Z) :
  NoDup (map EnergyLevelType.label levels) → Forall (fun l => l ∈ levels) ls →
  sumCapByLabels_forEach levels assertEnabled (map EnergyLevelType.label ls) sum =
    Normal (sum + sumZ (map capacity ls)).
Proof.
  intros Hnd. revert sum. induction ls as [|l ls IH]; intros sum Hall; simpl.
  - f_equal. lia.
  - apply Forall_cons in Hall as [Hl Hall].
    pose proof (capMap_foldl_lookup levels ∅ l Hnd Hl) as Hcap. fold (capMap levels) in Hcap.
    rewrite Hcap. rewrite bool_decide_eq_true_2 by eauto.
    rewrite assert__true. simpl. rewrite IH by done. f_equal. lia.
Qed.

(** X5. When the labels of the table are pairwise distinct, [sumCapByLabels]
    of the labels of any selection of levels is the sum of their capacities;
    taken over all levels it is [TOTAL_CAPACITY]. *)
Theorem sumCapByLabels_sums_capacities (levels ls : list EnergyLevelType.t)
    (assertEnabled : bool) :
  NoDup (map EnergyLevelType.label levels) → Forall (fun l => l ∈ levels) ls →
  sumCapByLabels levels assertEnabled (map EnergyLevelType.label ls) =
    Normal (sumZ (map capacity ls)) ∧
  sumCapByLabels levels assertEnabled (map EnergyLevelType.label levels) =
    Normal (TOTAL_CAPACITY levels).
Proof.
  intros Hnd Hall. unfold sumCapByLabels. split.
  - by rewrite sumCapByLabels_forEach_known.
  - rewrite sumCapByLabels_forEach_known; [|done|by apply Forall_forall].
    by rewrite TOTAL_CAPACITY_sum.
Qed.

Lemma ENERGY_LEVELS_labels_distinct :
  NoDup (map EnergyLevelType.label EnergyLevelType.ENERGY_LEVELS).
Proof. apply (bool_decide_unpack _). vm_compute. exact I. Qed.

Lemma sumCapByLabels_sums_capacities_witness :
  sumCapByLabels EnergyLevelType.ENERGY_LEVELS true
    (map EnergyLevelType.label [EnergyLevelType._1p3_2; EnergyLevelType._1p1_2]) =
    Normal (sumZ (map capacity [EnergyLevelType._1p3_2; EnergyLevelType._1p1_2])) ∧
  sumCapByLabels EnergyLevelType.ENERGY_LEVELS true
    (map EnergyLevelType.label EnergyLevelType.ENERGY_LEVELS) =
    Normal (TOTAL_CAPACITY EnergyLevelType.ENERGY_LEVELS).
Proof.
  apply (sumCapByLabels_sums_capacities EnergyLevelType.ENERGY_LEVELS
           [EnergyLevelType._1p3_2; EnergyLevelType._1p1_2] true).
  - exact ENERGY_LEVELS_labels_distinct.
  - repeat apply Forall_cons_2; [| |apply Forall_nil_2].
    + apply list_elem_of_further, list_elem_of_here.
    + do 2 apply list_elem_of_further. apply list_elem_of_here.
Defined.

(** X6. A label that no level carries makes [sumCapByLabels] throw the
    assertion error that names it when assertions are enabled; when they are
    disabled it counts for 0. *)
Theorem sumCapByLabels_missing_label (levels known : list EnergyLevelType.t)
    (missing : string) (rest : list string) :
  NoDup (map EnergyLevelType.label levels) → Forall (fun l => l ∈ levels) known →
  missing ∉ map EnergyLevelType.label levels →
  sumCapByLabels levels true (map EnergyLevelType.label known ++ missing :: rest) =
    Throw (AssertionError ("Missing orbital " +:+ doubleQuote +:+ missing +:+ doubleQuote
                           +:+ " in EnergyLevelType.ENERGY_LEVELS")) ∧
  sumCapByLabels levels false (map EnergyLevelType.label known ++ [missing]) =
    Normal (sumZ (map capacity known)).
Proof.
  intros Hnd Hall Hmissing. apply capMap_lookup_None in Hmissing.
  assert (∀ (a : bool) (tail : list string) (sum : Z),
            sumCapByLabels_forEach levels a (map EnergyLevelType.label known ++ tail) sum =
            sumCapByLabels_forEach levels a tail (sum + sumZ (map capacity known))) as Hknown.
  { intros a tail. induction known as [|l ls IH]; intros sum; simpl.
    - f_equal. lia.
    - apply Forall_cons in Hall as [Hl Hall].
      pose proof (capMap_foldl_lookup levels ∅ l Hnd Hl) as Hcap.
      fold (capMap levels) in Hcap.
      rewrite Hcap. rewrite bool_decide_eq_true_2 by eauto.
      rewrite assert__true. simpl. rewrite IH by done. f_equal. lia. }
  unfold sumCapByLabels. rewrite !Hknown. simpl. rewrite Hmissing.
  rewrite bool_decide_eq_false_2 by (by intros [? ?]).
  rewrite !assert__false. simpl. split; [done|]. f_equal. lia.
Qed.

Lemma sumCapByLabels_missing_label_witness :
  sumCapByLabels EnergyLevelType.ENERGY_LEVELS true
    (map EnergyLevelType.label [EnergyLevelType._1s1_2] ++ "1g_{9/2}" :: []) =
    Throw (AssertionError ("Missing orbital " +:+ doubleQuote +:+ "1g_{9/2}" +:+ doubleQuote
                           +:+ " in EnergyLevelType.ENERGY_LEVELS")) ∧
  sumCapByLabels EnergyLevelType.ENERGY_LEVELS false
    (map EnergyLevelType.label [EnergyLevelType._1s1_2] ++ ["1g_{9/2}"]) =
    Normal (sumZ (map capacity [EnergyLevelType._1s1_2])).
Proof.
  apply (sumCapByLabels_missing_label EnergyLevelType.ENERGY_LEVELS
           [EnergyLevelType._1s1_2] "1g_{9/2}" []).
  - exact ENERGY_LEVELS_labels_distinct.
  - apply Forall_cons_2; [apply list_elem_of_here|apply Forall_nil_2].
  - apply (bool_decide_unpack _). vm_compute. exact I.
Defined.

(** ** getLastParticleInShell *)

Lemma last_app_cases {A : Type} (l1 l2 : list A) :
  last (l1 ++ l2) = match last l2 with Some x => Some x | None => last l1 end.
Proof.
  induction l2 as [|x l2 IH] using rev_ind.
  - by rewrite app_nil_r.
  - by rewrite app_assoc, !last_snoc.
Qed.

Lemma getLastParticleInShell_row_spec (row : list ParticleShellPosition) (k : nat) :
  getLastParticleInShell_row row k = last (omap particle (take k row)).
Proof.
  induction k as [|x IH]; simpl; [done|].
  destruct (row !! x) as [pos|] eqn:Hx; simpl.
  - rewrite (take_S_r _ _ _ Hx), omap_app, last_app_cases. simpl.
    destruct (particle pos) as [p|]; simpl; [done|exact IH].
  - rewrite IH. apply lookup_ge_None in Hx. by rewrite !take_ge by lia.
Qed.

Lemma slotOccupants_app (t1 t2 : ShellPositions) :
  slotOccupants (t1 ++ t2) = slotOccupants t1 ++ slotOccupants t2.
Proof. unfold slotOccupants. by rewrite occupants_app, omap_app. Qed.

Lemma getLastParticleInShell_rows_spec (table : ShellPositions) (k : nat) :
  getLastParticleInShell_rows table k = last (slotOccupants (take k table)).
Proof.
  induction k as [|r IH]; simpl; [done|].
  rewrite getLastParticleInShell_row_spec.
  destruct (table !! r) as [row|] eqn:Hr; simpl.
  - rewrite (take_S_r _ _ _ Hr), slotOccupants_app, last_app_cases.
    rewrite take_ge by lia.
    assert (slotOccupants [row] = omap particle row) as ->.
    { unfold slotOccupants, occupants. simpl. by rewrite app_nil_r, omap_id_fmap. }
    destruct (last (omap particle row)); [done|exact IH].
  - rewrite IH. apply lookup_ge_None in Hr. by rewrite !take_ge by lia.
Qed.

(** X7. [getLastParticleInShell] returns the occupant of the last occupied slot
    in row-major order, and [undefined] exactly when no slot of the table is
    occupied. *)
Theorem getLastParticleInShell_is_last_occupant (particleType : ParticleTypeEnum)
    (s : ShellModelNucleus) :
  getLastParticleInShell particleType s =
    last (slotOccupants (deref (getNucleonShellPositions particleType) s)) ∧
  (getLastParticleInShell particleType s = None ↔
     ∀ o, o ∈ occupants (deref (getNucleonShellPositions particleType) s) → o = None).
Proof.
  assert (getLastParticleInShell particleType s =
          last (slotOccupants (deref (getNucleonShellPositions particleType) s))) as Hlast.
  { unfold getLastParticleInShell. rewrite getLastParticleInShell_rows_spec.
    by rewrite take_ge by lia. }
  split; [exact Hlast|]. rewrite Hlast, last_None. split.
  - intros Hnil [q|] Ho; [|done].
    apply elem_of_slotOccupants in Ho. rewrite Hnil in Ho. by apply elem_of_nil in Ho.
  - intros Hall. destruct (slotOccupants _) as [|q qs] eqn:Hq; [done|].
    assert (q ∈ slotOccupants (deref (getNucleonShellPositions particleType) s)) as Hin
      by (rewrite Hq; by left).
    apply elem_of_slotOccupants, Hall in Hin. done.
Qed.

(** X8. After a completed [updateNucleonPositions] on a table of the
    constructor's shape, [getLastParticleInShell] returns the last particle
    that still waits on a reservation when there is one, and the last counted
    particle otherwise. *)
Theorem getLastParticleInShell_after_update (levels : list EnergyLevelType.t)
    (assertEnabled : bool) `{view : ViewLayer} (arr : list Particle.t)
    (particleType : ParticleTypeEnum) (s s' : ShellModelNucleus) :
  levels_valid levels →
  wf_table levels (deref (getNucleonShellPositions particleType) s) →
  updateNucleonPositions levels assertEnabled arr
    (getNucleonShellPositions particleType) s = Normal s' →
  getLastParticleInShell particleType s' =
    last (arr ++ reservedFor (getNucleonShellPositions particleType)
                    (incomingParticlesOf arr
                       (deref (getNucleonShellPositions particleType) s))).
Proof.
  intros Hvalid Hwf Hrun.
  destruct (update_occupants levels assertEnabled Hvalid arr _ s s' Hwf Hrun) as [_ Ho].
  unfold getLastParticleInShell. rewrite getLastParticleInShell_rows_spec.
  rewrite take_ge by lia. unfold slotOccupants. rewrite Ho.
  rewrite app_assoc, <- map_app. by rewrite omap_counted.
Qed.

Lemma getLastParticleInShell_after_update_witness :
  ∃ s',
    updateNucleonPositions EnergyLevelType.ENERGY_LEVELS true (view := gridView)
      [proton 1; proton 2] ProtonShells reservedExample = Normal s' ∧
    getLastParticleInShell PROTON s' = Some (proton 8).
Proof.
  eexists. split; [vm_compute; reflexivity|].
  apply (getLastParticleInShell_after_update EnergyLevelType.ENERGY_LEVELS true
           (view := gridView) [proton 1; proton 2] PROTON reservedExample).
  - exact ENERGY_LEVELS_valid.
  - vm_compute. reflexivity.
  - vm_compute. reflexivity.
Defined.

(** ** removeParticleFromShell *)

(** X9. [removeParticleFromShell] empties exactly the slots that hold the
    particle in the table of the particle's type: afterwards the particle
    occupies no slot there, every other slot keeps its occupant, the other
    table is untouched, and a second call changes nothing. *)
Theorem removeParticleFromShell_effect (p : Particle.t) (s : ShellModelNucleus) :
  ¬ (Some p ∈ occupants (deref (getNucleonShellPositions (Particle.type p))
                               (removeParticleFromShell p s))) ∧
  (∀ (k : nat) o,
     occupants (deref (getNucleonShellPositions (Particle.type p)) s) !! k = Some o →
     occupants (deref (getNucleonShellPositions (Particle.type p))
                      (removeParticleFromShell p s)) !! k =
       Some (if decide (o = Some p) then None else o)) ∧
  (∀ ref, ref ≠ getNucleonShellPositions (Particle.type p) →
     deref ref (removeParticleFromShell p s) = deref ref s) ∧
  removeParticleFromShell p (removeParticleFromShell p s) = removeParticleFromShell p s.
Proof.
  destruct (removeParticleFromShell_flat p s) as (Ho & Hc & Hother).
  assert (Some p ∉ occupants (deref (getNucleonShellPositions (Particle.type p))
                                    (removeParticleFromShell p s))) as Hgone.
  { rewrite Ho. intros Hin. apply list_elem_of_fmap in Hin as (o & Heq & _).
    unfold release in Heq. by destruct (decide (o = Some p)). }
  split_and!; [done| |done|].
  - intros k o Hk. rewrite Ho, list_lookup_fmap, Hk. done.
  - destruct (removeParticleFromShell_flat p (removeParticleFromShell p s))
      as (Ho2 & Hc2 & Hother2).
    apply nucleus_ext. intros ref.
    destruct (decide (ref = getNucleonShellPositions (Particle.type p))) as [->|Hne].
    + apply table_ext; [done|]. rewrite Ho2. by apply release_absent.
    + by apply Hother2.
Qed.

(** ** The shape of the tables is invariant *)

Lemma clearAllShellPositionParticles_clearSlots (table : ShellPositions) :
  clearAllShellPositionParticles table = clearSlots table.
Proof.
  unfold clearAllShellPositionParticles, clearSlots.
  apply map_ext. intros row. apply map_ext. intros pos.
  destruct pos as [[q|] x ty]; reflexivity.
Qed.

Lemma constructor_cleared (levels : list EnergyLevelType.t) (ref : ShellPositionsRef) :
  clearSlots (deref ref (constructor levels)) = deref ref (constructor levels).
Proof.
  destruct ref; simpl; unfold initialShellPositions, clearSlots;
    rewrite map_map; apply map_ext; intros row; rewrite map_map; by apply map_ext.
Qed.

Lemma updateNucleonPositions_skeleton (levels : list EnergyLevelType.t)
    (assertEnabled : bool) `{view : ViewLayer} (arr : list Particle.t)
    (ref : ShellPositionsRef) (s s' : ShellModelNucleus) :
  updateNucleonPositions levels assertEnabled arr ref s = Normal s' →
  ∀ ref', clearSlots (deref ref' s') = clearSlots (deref ref' s).
Proof.
  intros Hrun ref'. unfold updateNucleonPositions in Hrun.
  destruct (rowWidth levels) as [[]|]; simpl in Hrun; [|done].
  destruct (placeCounted levels assertEnabled arr 0 (clearSlots (deref ref s)))
    as [b|] eqn:Hb; simpl in Hrun; [|done].
  destruct (assert_ assertEnabled _ _) as [[]|]; simpl in Hrun; [|done].
  destruct (placeCounted_inv _ _ _ _ _ _ Hb) as [Hcb _]. rewrite clearSlots_idem in Hcb.
  destruct (restoreReservations_inv assertEnabled _ _ _ Hrun ref') as [_ Hc].
  rewrite deref_assign in Hc. destruct (decide (ref' = ref)) as [->|]; congruence.
Qed.

(** X10. In every state reached from the constructor by
    [getParticleDestination], [removeParticleFromShell] and
    [updateNucleonPositions], both tables keep the constructor's slots: the
    shape is the one of [ALLOWED_PARTICLE_POSITIONS], and
    [clearAllShellPositionParticles] gives back the constructor's table. *)
Theorem reachable_keeps_slots (levels : list EnergyLevelType.t) (assertEnabled : bool)
    `{view : ViewLayer} (s : ShellModelNucleus) :
  reachable levels assertEnabled s →
  ∀ ref,
    wf_table levels (deref ref s) ∧
    clearAllShellPositionParticles (deref ref s) = deref ref (constructor levels).
Proof.
  intros Hreach.
  assert (∀ ref, clearSlots (deref ref s) = deref ref (constructor levels)) as Hskel.
  { induction Hreach as [|particleType p s d s' _ IH Hrun|p s _ IH|arr ref0 s s' _ IH Hrun];
      intros ref.
    - apply constructor_cleared.
    - pose proof (getParticleDestination_flat assertEnabled particleType p s) as Hg.
      destruct (fill_first p _) as [os'|]; [|congruence].
      destruct Hg as (d' & s'' & Hrun' & _ & Hc & Hother).
      rewrite Hrun in Hrun'. injection Hrun' as _ <-.
      destruct (decide (ref = getNucleonShellPositions particleType)) as [->|Hne].
      + by rewrite Hc.
      + by rewrite Hother.
    - destruct (removeParticleFromShell_flat p s) as (_ & Hc & Hother).
      destruct (decide (ref = getNucleonShellPositions (Particle.type p))) as [->|Hne].
      + by rewrite Hc.
      + by rewrite Hother.
    - by rewrite (updateNucleonPositions_skeleton _ _ _ _ _ _ Hrun). }
  intros ref. split.
  - eapply wf_table_clearSlots; [|apply (constructor_wf levels ref)].
    by rewrite Hskel, constructor_cleared.
  - by rewrite clearAllShellPositionParticles_clearSlots.
Qed.

Lemma reachable_keeps_slots_witness :
  ∃ d1 s1 d2 s2 s,
    getParticleDestination true (view := gridView) PROTON (proton 7)
      (constructor EnergyLevelType.ENERGY_LEVELS) = Normal (d1, s1) ∧
    getParticleDestination true (view := gridView) PROTON (proton 8) s1 = Normal (d2, s2) ∧
    updateNucleonPositions EnergyLevelType.ENERGY_LEVELS true (view := gridView)
      [proton 1; proton 2] ProtonShells (removeParticleFromShell (proton 7) s2) =
      Normal s ∧
    slotOccupants (deref ProtonShells s) = [proton 1; proton 2; proton 8] ∧
    wf_table EnergyLevelType.ENERGY_LEVELS (deref ProtonShells s) ∧
    clearAllShellPositionParticles (deref ProtonShells s) =
      deref ProtonShells (constructor EnergyLevelType.ENERGY_LEVELS).
Proof.
  destruct (getParticleDestination true (view := gridView) PROTON (proton 7)
              (constructor EnergyLevelType.ENERGY_LEVELS))
    as [[d1 s1]|e] eqn:H1; [|vm_compute in H1; discriminate H1].
  destruct (getParticleDestination true (view := gridView) PROTON (proton 8) s1)
    as [[d2 s2]|e] eqn:H2.
  2: { exfalso. pose proof H1 as H1'. vm_compute in H1'. injection H1' as <- <-.
       vm_compute in H2. discriminate H2. }
  destruct (updateNucleonPositions EnergyLevelType.ENERGY_LEVELS true (view := gridView)
              [proton 1; proton 2] ProtonShells (removeParticleFromShell (proton 7) s2))
    as [s|e] eqn:H3.
  2: { exfalso. pose proof H1 as H1'. vm_compute in H1'. injection H1' as <- <-.
       pose proof H2 as H2'. vm_compute in H2'. injection H2' as <- <-.
       vm_compute in H3. discriminate H3. }
  exists d1, s1, d2, s2, s. split; [reflexivity|]. split; [exact H2|].
  split; [exact H3|]. split.
  - pose proof H1 as H1'. vm_compute in H1'. injection H1' as <- <-.
    pose proof H2 as H2'. vm_compute in H2'. injection H2' as <- <-.
    vm_compute in H3. injection H3 as <-. reflexivity.
  - apply (reachable_keeps_slots EnergyLevelType.ENERGY_LEVELS true (view := gridView)).
    eapply reachable_updateNucleonPositions; [|exact H3].
    apply reachable_removeParticleFromShell.
    eapply reachable_getParticleDestination; [|exact H2].
    eapply reachable_getParticleDestination; [|exact H1].
    apply reachable_constructor.
Defined.

(** ** How [updateNucleonPositions] fails *)

Section UpdateFailures.

Variable levels : list EnergyLevelType.t.
Variable assertEnabled : bool.
Context `{view : ViewLayer}.
Hypothesis Hvalid : levels_valid levels.

Lemma placeCounted_overflow (arr : list Particle.t) (i : Z) (table : ShellPositions) :
  wf_table levels table → 0 ≤ i ≤ TOTAL_CAPACITY levels →
  TOTAL_CAPACITY levels < i + Z.of_nat (length arr) →
  placeCounted levels assertEnabled arr i table =
    Throw (if assertEnabled
           then AssertionError ("index out of supported range: "
                                +:+ Number_toString (TOTAL_CAPACITY levels))
           else TypeError).
Proof.
  revert i table. induction arr as [|p arr IH]; intros i table Hwf Hi Hover.
  - simpl in Hover. lia.
  - simpl length in Hover. cbn [placeCounted].
    destruct (decide (i < TOTAL_CAPACITY levels)) as [Hlt|Hge].
    + destruct (row_and_local_index levels assertEnabled i Hvalid ltac:(lia))
        as (r & Hr & Hrow & Hloc & Hrange).
      destruct (placeAt_wf levels Hvalid table r _ p Hwf Hr Hrange)
        as (table1 & Hplace & Ho1 & Hc1).
      rewrite Hrow. simpl. rewrite Hloc. simpl. rewrite Hplace. simpl.
      apply IH; [by eapply wf_table_clearSlots|lia|lia].
    + assert (i = TOTAL_CAPACITY levels) as -> by lia.
      rewrite getRowIndexForGlobalIndex_out_of_range by (done || lia).
      destruct assertEnabled; [done|]. simpl.
      assert (length levels ≠ 0%nat) as Hne.
      { destruct Hvalid as [Hnil _]. by destruct levels. }
      replace (Z.of_nat (length levels) - 1) with (Z.of_nat (length levels - 1)) by lia.
      rewrite getLocalXIndex_spec by (done || lia).
      pose proof (cumulativeCapacity_S_row levels (length levels - 1)) as HS.
      replace (S (length levels - 1)) with (length levels) in HS by lia.
      rewrite cumulativeCapacity_all in HS by lia.
      rewrite decide_False by lia. simpl.
      by rewrite placeAt_undefined.
Qed.

Lemma restoreReservations_throws (incoming : list Particle.t) (s : ShellModelNucleus)
    (e : Thrown) :
  restoreReservations assertEnabled incoming s = Throw e →
  e = if assertEnabled
      then AssertionError "To add a particle there must be an empty particleShellPosition."
      else TypeError.
Proof.
  revert s. induction incoming as [|p incoming IH]; intros s Hrun; [done|].
  cbn [restoreReservations] in Hrun.
  pose proof (getParticleDestination_flat assertEnabled (Particle.type p) p s) as Hg.
  destruct (fill_first p _) as [os1|].
  - destruct Hg as (d & s1 & Hgpd & _). rewrite Hgpd in Hrun. simpl in Hrun.
    by eapply IH.
  - rewrite Hg in Hrun. simpl in Hrun. by injection Hrun as <-.
Qed.

End UpdateFailures.

(** X11. With more counted particles than the table has slots,
    [updateNucleonPositions] throws on the first global index past the table,
    which is the total capacity: the assertion error of
    [getRowIndexForGlobalIndex] naming that index when assertions are
    enabled, a TypeError on the undefined slot otherwise. *)
Theorem updateNucleonPositions_over_capacity (levels : list EnergyLevelType.t)
    (assertEnabled : bool) `{view : ViewLayer} (arr : list Particle.t)
    (ref : ShellPositionsRef) (s : ShellModelNucleus) :
  levels_valid levels → wf_table levels (deref ref s) →
  TOTAL_CAPACITY levels < Z.of_nat (length arr) →
  updateNucleonPositions levels assertEnabled arr ref s =
    Throw (if assertEnabled
           then AssertionError ("index out of supported range: "
                                +:+ Number_toString (TOTAL_CAPACITY levels))
           else TypeError).
Proof.
  intros Hvalid Hwf Hover.
  unfold updateNucleonPositions.
  rewrite rowWidth_valid by done. simpl.
  rewrite (placeCounted_overflow levels assertEnabled Hvalid); [done| |  |lia].
  - eapply wf_table_clearSlots; [apply clearSlots_idem|done].
  - pose proof (wf_occupants_length levels Hvalid _ Hwf). lia.
Qed.

Lemma updateNucleonPositions_over_capacity_witness :
  updateNucleonPositions EnergyLevelType.ENERGY_LEVELS true (view := gridView)
    (map proton (seq 0 43)) ProtonShells reservedExample =
    Throw (AssertionError "index out of supported range: 40") ∧
  updateNucleonPositions EnergyLevelType.ENERGY_LEVELS false (view := gridView)
    (map proton (seq 0 41)) ProtonShells (constructor EnergyLevelType.ENERGY_LEVELS) =
    Throw TypeError.
Proof.
  split.
  - apply (updateNucleonPositions_over_capacity EnergyLevelType.ENERGY_LEVELS true
             (view := gridView)).
    + exact ENERGY_LEVELS_valid.
    + vm_compute. reflexivity.
    + rewrite ENERGY_LEVELS_total. simpl. lia.
  - apply (updateNucleonPositions_over_capacity EnergyLevelType.ENERGY_LEVELS false
             (view := gridView)).
    + exact ENERGY_LEVELS_valid.
    + apply constructor_wf.
    + rewrite ENERGY_LEVELS_total. simpl. lia.
Defined.

(** X12. When the input sequence fits the table but names a particle twice,
    [updateNucleonPositions] throws the duplicate assertion when assertions
    are enabled. *)
Theorem updateNucleonPositions_duplicate (levels : list EnergyLevelType.t)
    `{view : ViewLayer} (arr : list Particle.t)
    (ref : ShellPositionsRef) (s : ShellModelNucleus) :
  levels_valid levels → wf_table levels (deref ref s) →
  Z.of_nat (length arr) ≤ TOTAL_CAPACITY levels → ¬ NoDup arr →
  updateNucleonPositions levels true arr ref s =
    Throw (AssertionError "There are duplicate particles in particleShellPositions.").
Proof.
  intros Hvalid Hwf Hfit Hdup. unfold updateNucleonPositions.
  rewrite rowWidth_valid by done. simpl.
  destruct (update_counted levels true Hvalid arr (deref ref s) Hwf Hfit)
    as (b & Hb & Hob & _).
  rewrite Hb. simpl. unfold assert_.
  rewrite bool_decide_eq_false_2; [done|].
  by rewrite placedParticles_flat, Hob, omap_counted, filter_not_incoming.
Qed.

Lemma updateNucleonPositions_duplicate_witness :
  updateNucleonPositions EnergyLevelType.ENERGY_LEVELS true (view := gridView)
    [proton 1; proton 2; proton 1] ProtonShells (constructor EnergyLevelType.ENERGY_LEVELS) =
    Throw (AssertionError "There are duplicate particles in particleShellPositions.").
Proof.
  apply (updateNucleonPositions_duplicate EnergyLevelType.ENERGY_LEVELS (view := gridView)).
  - exact ENERGY_LEVELS_valid.
  - apply constructor_wf.
  - rewrite ENERGY_LEVELS_total. simpl. lia.
  - intros Hnd. apply NoDup_cons in Hnd as [Hnot _]. apply Hnot.
    apply list_elem_of_further, list_elem_of_here.
Defined.

(** X13. When the input sequence is placed but the counted particles and the
    particles waiting on a reservation of this table together exceed its
    slots, [updateNucleonPositions] throws the error of
    [getParticleDestination]: its assertion when assertions are enabled, a
    TypeError otherwise. *)
Theorem updateNucleonPositions_reservations_overflow (levels : list EnergyLevelType.t)
    (assertEnabled : bool) `{view : ViewLayer} (arr : list Particle.t)
    (ref : ShellPositionsRef) (s : ShellModelNucleus) :
  levels_valid levels → wf_table levels (deref ref s) →
  Z.of_nat (length arr) ≤ TOTAL_CAPACITY levels →
  (assertEnabled = true → NoDup arr) →
  TOTAL_CAPACITY levels <
    Z.of_nat (length arr +
              length (reservedFor ref (incomingParticlesOf arr (deref ref s)))) →
  updateNucleonPositions levels assertEnabled arr ref s =
    Throw (if assertEnabled
           then AssertionError "To add a particle there must be an empty particleShellPosition."
           else TypeError).
Proof.
  intros Hvalid Hwf Hfit Hnd Hover.
  destruct (updateNucleonPositions levels assertEnabled arr ref s) as [s'|e] eqn:Hrun.
  - exfalso.
    destruct (update_occupants levels assertEnabled Hvalid arr ref s s' Hwf Hrun) as [Hle _].
    lia.
  - f_equal. unfold updateNucleonPositions in Hrun.
    rewrite rowWidth_valid in Hrun by done. simpl in Hrun.
    destruct (update_counted levels assertEnabled Hvalid arr (deref ref s) Hwf Hfit)
      as (b & Hb & Hob & _).
    rewrite Hb in Hrun. simpl in Hrun.
    assert (assert_ assertEnabled
              (bool_decide (NoDup (placedParticles (incomingParticlesOf arr (deref ref s)) b)))
              "There are duplicate particles in particleShellPositions." = Normal ()) as Hassert.
    { unfold assert_. destruct assertEnabled; [|done]. simpl.
      rewrite bool_decide_eq_true_2; [done|].
      rewrite placedParticles_flat, Hob, omap_counted, filter_not_incoming. by apply Hnd. }
    rewrite Hassert in Hrun. simpl in Hrun.
    by eapply restoreReservations_throws.
Qed.

Lemma updateNucleonPositions_reservations_overflow_witness :
  updateNucleonPositions EnergyLevelType.ENERGY_LEVELS true (view := gridView)
    (map proton (seq 10 40)) ProtonShells reservedExample =
    Throw (AssertionError "To add a particle there must be an empty particleShellPosition.").
Proof.
  apply (updateNucleonPositions_reservations_overflow EnergyLevelType.ENERGY_LEVELS true
           (view := gridView)).
  - exact ENERGY_LEVELS_valid.
  - vm_compute. reflexivity.
  - rewrite ENERGY_LEVELS_total. simpl. lia.
  - intros _. apply (bool_decide_unpack _). vm_compute. exact I.
  - rewrite ENERGY_LEVELS_total. vm_compute. reflexivity.
Defined.

(** ** A reservation is the slot the particle gets when it is counted *)

Lemma fill_first_counted (p : Particle.t) (ps : list Particle.t)
    (os : list (option Particle.t)) :
  fill_first p (map Some ps ++ None :: os) = Some (map Some ps ++ Some p :: os).
Proof. induction ps as [|q ps IH]; simpl; [done|]. by rewrite IH. Qed.

Lemma wf_table_xPosition (levels : list EnergyLevelType.t) (table : ShellPositions)
    (r x : nat) (row : list ParticleShellPosition) (pos : ParticleShellPosition) :
  wf_table levels table → table !! r = Some row → row !! x = Some pos →
  xPosition pos = Z.of_nat x.
Proof.
  intros Hwf Hr Hx. apply (f_equal (fun l => l !! r)) in Hwf.
  rewrite list_lookup_fmap, Hr, ALLOWED_PARTICLE_POSITIONS_lookup in Hwf.
  destruct (levels !! r) as [level|]; simpl in Hwf; [|done].
  injection Hwf as Hwf. apply (f_equal (fun l => l !! x)) in Hwf.
  rewrite !list_lookup_fmap, Hx in Hwf. simpl in Hwf.
  destruct (seq 0 (Z.to_nat (capacity level)) !! x) as [k|] eqn:Hk; simpl in Hwf; [|done].
  apply lookup_seq in Hk as [-> _]. by injection Hwf.
Qed.

Section NextSlot.

Variable levels : list EnergyLevelType.t.
Variable assertEnabled : bool.
Context `{view : ViewLayer}.
Hypothesis Hvalid : levels_valid levels.

(** On a table filled without gaps the next reservation goes to the slot of
    the global index that follows the occupants. *)
Lemma getParticleDestination_contiguous (particleType : ParticleTypeEnum) (p : Particle.t)
    (s : ShellModelNucleus) (ps : list Particle.t) (n : nat) :
  wf_table levels (deref (getNucleonShellPositions particleType) s) →
  occupants (deref (getNucleonShellPositions particleType) s) =
    map Some ps ++ replicate (S n) None →
  ∃ (row x : Z) s',
    getRowIndexForGlobalIndex levels assertEnabled (Z.of_nat (length ps)) = Normal row ∧
    getLocalXIndex levels (Z.of_nat (length ps)) row = Normal (Some x) ∧
    getParticleDestination assertEnabled particleType p s =
      Normal (addXY (modelToViewXY x row)
                    (if decide (particleType = NEUTRON)
                     then X_DISTANCE_BETWEEN_ENERGY_LEVELS else 0) 0, s') ∧
    occupants (deref (getNucleonShellPositions particleType) s') =
      map Some (ps ++ [p]) ++ replicate n None ∧
    (∀ ref, ref ≠ getNucleonShellPositions particleType → deref ref s' = deref ref s).
Proof.
  set (ref := getNucleonShellPositions particleType). intros Hwf Hocc.
  simpl in Hocc.
  pose proof (fill_first_counted p ps (replicate n None)) as Hfill. rewrite <- Hocc in Hfill.
  pose proof (openShellPositionOf_spec (deref ref s) p) as Hspec.
  destruct (openShellPositionOf (deref ref s)) as [[r [[x pos]|]]|] eqn:Hopen;
    [|done|congruence].
  destruct Hspec as (row & Hr & Hx & Hfill' & Halter).
  destruct (occupants_insert (deref ref s) r x row pos (Some p) Hr Hx) as (Ho & Hc & Hlt).
  rewrite Halter, Ho, Hfill in Hfill'. injection Hfill' as Hins.
  set (k0 := (length (occupants (take r (deref ref s))) + x)%nat) in *.
  assert (k0 = length ps) as Hk0.
  { destruct (decide (k0 = length ps)) as [|Hne]; [done|]. exfalso.
    apply (f_equal (fun l => l !! length ps)) in Hins.
    rewrite list_lookup_insert_ne in Hins by done.
    rewrite Hocc in Hins.
    rewrite !lookup_app_r in Hins by (by rewrite length_map).
    rewrite length_map, Nat.sub_diag in Hins. simpl in Hins. done. }
  pose proof (lookup_lt_Some _ _ _ Hr) as Hrlt. rewrite (wf_table_length _ _ Hwf) in Hrlt.
  pose proof (wf_flat_offset levels Hvalid _ r Hwf ltac:(lia)) as Hoff.
  pose proof (wf_row_length levels Hvalid _ _ _ Hwf Hr) as Hrowlen.
  pose proof (lookup_lt_Some _ _ _ Hx) as Hxlt.
  pose proof (wf_occupants_length levels Hvalid _ Hwf) as Htotal.
  rewrite Hocc, length_app, length_map in Htotal. cbn [length] in Htotal.
  rewrite length_replicate in Htotal.
  destruct (getRowIndexForGlobalIndex_in_range levels assertEnabled (Z.of_nat (length ps)))
    as (r0 & Hrow0 & Hr0 & Hbetween & Hmin); [lia|].
  assert (r0 = r) as ->.
  { assert (r0 ≤ r)%nat by (apply Hmin; rewrite cumulativeCapacity_S_row; lia).
    destruct (decide (r ≤ r0)%nat); [lia|].
    pose proof (cumulativeCapacity_le levels (S r0) r Hvalid ltac:(lia)). lia. }
  exists (Z.of_nat r), (Z.of_nat x), (assign ref (<[r := <[x := setParticle (Some p) pos]> row]>
                                                   (deref ref s)) s).
  split_and!.
  - done.
  - rewrite getLocalXIndex_spec by done. rewrite decide_True by lia. do 2 f_equal. lia.
  - unfold getParticleDestination. fold ref.
    unfold openShellPositionOf in Hopen. rewrite Hopen.
    rewrite bool_decide_eq_true_2 by eauto. rewrite assert__true. simpl.
    rewrite Halter. by rewrite (wf_table_xPosition _ _ _ _ _ _ Hwf Hr Hx).
  - rewrite deref_assign, decide_True by done. rewrite Ho. fold k0. rewrite Hk0, Hocc.
    rewrite insert_app_r_alt by (by rewrite length_map).
    rewrite length_map, Nat.sub_diag. simpl. rewrite map_app, <- app_assoc. done.
  - intros ref' Hne. by rewrite deref_assign, decide_False.
Qed.

End NextSlot.

(** X14. After a completed [updateNucleonPositions] that leaves a free slot,
    [getParticleDestination] sends the incoming particle to the slot that
    [getRowIndexForGlobalIndex] and [getLocalXIndex] give for the global index
    following the counted and the waiting particles, and returns the view
    coordinate of that slot. *)
Theorem getParticleDestination_next_index (levels : list EnergyLevelType.t)
    (assertEnabled : bool) `{view : ViewLayer} (arr : list Particle.t)
    (particleType : ParticleTypeEnum) (p : Particle.t) (s s1 : ShellModelNucleus) :
  levels_valid levels →
  wf_table levels (deref (getNucleonShellPositions particleType) s) →
  updateNucleonPositions levels assertEnabled arr
    (getNucleonShellPositions particleType) s = Normal s1 →
  let waiting :=
    reservedFor (getNucleonShellPositions particleType)
      (incomingParticlesOf arr (deref (getNucleonShellPositions particleType) s)) in
  Z.of_nat (length (arr ++ waiting)) < TOTAL_CAPACITY levels →
  ∃ (row x : Z) s2,
    getRowIndexForGlobalIndex levels assertEnabled (Z.of_nat (length (arr ++ waiting))) =
      Normal row ∧
    getLocalXIndex levels (Z.of_nat (length (arr ++ waiting))) row = Normal (Some x) ∧
    getParticleDestination assertEnabled particleType p s1 =
      Normal (addXY (modelToViewXY x row)
                    (if decide (particleType = NEUTRON)
                     then X_DISTANCE_BETWEEN_ENERGY_LEVELS else 0) 0, s2) ∧
    slotOccupants (deref (getNucleonShellPositions particleType) s2) =
      arr ++ waiting ++ [p].
Proof.
  intros Hvalid Hwf Hrun waiting Hfree.
  destruct (update_occupants levels assertEnabled Hvalid arr _ s s1 Hwf Hrun) as [Hle Ho].
  fold waiting in Hle, Ho. rewrite length_app in Hfree.
  assert (wf_table levels (deref (getNucleonShellPositions particleType) s1)) as Hwf1.
  { eapply wf_table_clearSlots; [|exact Hwf].
    by apply (updateNucleonPositions_skeleton _ _ _ _ _ _ Hrun). }
  destruct (getParticleDestination_contiguous levels assertEnabled Hvalid particleType p s1
              (arr ++ waiting)
              (Z.to_nat (TOTAL_CAPACITY levels) - length arr - length waiting - 1))
    as (row & x & s2 & Hrow & Hloc & Hgpd & Ho2 & _); [done| |].
  { rewrite Ho, map_app, <- app_assoc. do 3 f_equal. lia. }
  exists row, x, s2. split_and!; [done|done|done|].
  unfold slotOccupants. rewrite Ho2, omap_counted. by rewrite <- app_assoc.
Qed.

Lemma getParticleDestination_next_index_witness :
  ∃ s1 (row x : Z) s2,
    updateNucleonPositions EnergyLevelType.ENERGY_LEVELS true (view := gridView)
      [proton 1; proton 2] ProtonShells reservedExample = Normal s1 ∧
    getRowIndexForGlobalIndex EnergyLevelType.ENERGY_LEVELS true 3 = Normal row ∧
    getLocalXIndex EnergyLevelType.ENERGY_LEVELS 3 row = Normal (Some x) ∧
    getParticleDestination true (view := gridView) PROTON (proton 9) s1 =
      Normal ((x + 0, row + 0), s2) ∧
    slotOccupants (protonShellPositions s2) = [proton 1; proton 2; proton 8; proton 9].
Proof.
  destruct (updateNucleonPositions EnergyLevelType.ENERGY_LEVELS true (view := gridView)
              [proton 1; proton 2] ProtonShells reservedExample)
    as [s1|e] eqn:Hrun; [|vm_compute in Hrun; discriminate Hrun].
  destruct (getParticleDestination_next_index EnergyLevelType.ENERGY_LEVELS true
              (view := gridView) [proton 1; proton 2] PROTON (proton 9) reservedExample s1)
    as (row & x & s2 & Hrow & Hloc & Hgpd & Hslots).
  - exact ENERGY_LEVELS_valid.
  - vm_compute. reflexivity.
  - exact Hrun.
  - rewrite ENERGY_LEVELS_total. vm_compute. reflexivity.
  - exists s1, row, x, s2. split; [reflexivity|]. split; [exact Hrow|].
    split; [exact Hloc|]. split; [exact Hgpd|exact Hslots].
Defined.

Lemma reservedFor_typed (ref : ShellPositionsRef) (ps : list Particle.t) :
  Forall (fun q => getNucleonShellPositions (Particle.type q) = ref) ps →
  reservedFor ref ps = ps ∧ ∀ ref', ref' ≠ ref → reservedFor ref' ps = [].
Proof.
  intros Hall. split.
  - by apply filter_all.
  - intros ref' Hne. apply filter_none. eapply Forall_impl; [exact Hall|].
    simpl. intros q Hq. congruence.
Qed.



Lemma fill_all_elem_of (ps : list Particle.t) (os os' : list (option Particle.t))
    (q : Particle.t) :
  fill_all ps os = Some os' → q ∈ ps → Some q ∈ os'.
Proof.
  revert ps os'. induction os as [|o os IH]; intros ps os' Hfill Hq.
  - destruct ps; [by apply elem_of_nil in Hq|done].
  - destruct ps as [|p ps]; [by apply elem_of_nil in Hq|].
    destruct o as [x|].
    + rewrite fill_all_Some_cons in Hfill.
      destruct (fill_all (p :: ps) os) as [os1|] eqn:H1; simpl in Hfill; [|done].
      injection Hfill as <-. right. by eapply IH.
    + cbn [fill_all] in Hfill.
      destruct (fill_all ps os) as [os1|] eqn:H1; simpl in Hfill; [|done].
      injection Hfill as <-. apply elem_of_cons in Hq as [->|Hq]; [by left|].
      right. by eapply IH.
Qed.

(** X16. After a completed [updateNucleonPositions], every particle that was
    remembered (found in the table but not counted) occupies a slot of the
    table of its own type.  When all of them have the type of the updated
    table, the other table is left exactly as it was. *)
Theorem updateNucleonPositions_other_table (levels : list EnergyLevelType.t)
    (assertEnabled : bool) `{view : ViewLayer} (arr : list Particle.t)
    (ref : ShellPositionsRef) (s s' : ShellModelNucleus) :
  updateNucleonPositions levels assertEnabled arr ref s = Normal s' →
  let incoming := incomingParticlesOf arr (deref ref s) in
  (∀ q, q ∈ incoming →
        Some q ∈ occupants (deref (getNucleonShellPositions (Particle.type q)) s')) ∧
  (Forall (fun q => getNucleonShellPositions (Particle.type q) = ref) incoming →
   ∀ ref', ref' ≠ ref → deref ref' s' = deref ref' s).
Proof.
  intros Hrun incoming. unfold updateNucleonPositions in Hrun.
  destruct (rowWidth levels) as [[]|]; simpl in Hrun; [|done].
  destruct (placeCounted levels assertEnabled arr 0 (clearSlots (deref ref s)))
    as [b|] eqn:Hb; simpl in Hrun; [|done].
  destruct (assert_ assertEnabled _ _) as [[]|]; simpl in Hrun; [|done].
  pose proof (restoreReservations_inv assertEnabled _ _ _ Hrun) as Hinv.
  split.
  - intros q Hq.
    destruct (Hinv (getNucleonShellPositions (Particle.type q))) as [Hfill _].
    eapply fill_all_elem_of; [exact Hfill|]. by apply reservedFor_elem_of.
  - intros Htyped ref' Hne. destruct (Hinv ref') as [Hfill Hc].
    rewrite deref_assign, decide_False in Hfill, Hc by done.
    destruct (reservedFor_typed ref incoming Htyped) as [_ Hnone].
    fold incoming in Hfill. rewrite (Hnone ref' Hne), fill_all_nil in Hfill.
    apply table_ext; [done|]. by injection Hfill.
Qed.

Lemma updateNucleonPositions_other_table_witness :
  ∃ s',
    updateNucleonPositions EnergyLevelType.ENERGY_LEVELS true (view := gridView)
      [proton 1; proton 2] ProtonShells reservedExample = Normal s' ∧
    Some (proton 8) ∈ occupants (deref ProtonShells s') ∧
    deref NeutronShells s' = deref NeutronShells reservedExample.
Proof.
  destruct (updateNucleonPositions EnergyLevelType.ENERGY_LEVELS true (view := gridView)
              [proton 1; proton 2] ProtonShells reservedExample)
    as [s'|e] eqn:Hrun; [|vm_compute in Hrun; discriminate Hrun].
  exists s'. split; [reflexivity|].
  destruct (updateNucleonPositions_other_table EnergyLevelType.ENERGY_LEVELS true
              (view := gridView) [proton 1; proton 2] ProtonShells reservedExample s' Hrun)
    as [Hmoved Hframe].
  split.
  - apply (Hmoved (proton 8)). vm_compute. left.
  - apply Hframe; [|done]. vm_compute. repeat constructor.
Defined.

Section TypedTables.

Variable levels : list EnergyLevelType.t.
Variable assertEnabled : bool.
Context `{view : ViewLayer}.
Hypothesis Hvalid : levels_valid levels.

(** A completed call on a table whose remembered particles all have the
    table's type. *)
Lemma update_typed (arr : list Particle.t) (ref : ShellPositionsRef)
    (s s1 : ShellModelNucleus) :
  wf_table levels (deref ref s) →
  Forall (fun q => getNucleonShellPositions (Particle.type q) = ref)
         (incomingParticlesOf arr (deref ref s)) →
  updateNucleonPositions levels assertEnabled arr ref s = Normal s1 →
  let inc := incomingParticlesOf arr (deref ref s) in
  occupants (deref ref s1) =
    map Some arr ++ map Some inc ++
    replicate (Z.to_nat (TOTAL_CAPACITY levels) - length arr - length inc) None ∧
  wf_table levels (deref ref s1) ∧
  (assertEnabled = true → NoDup arr) ∧
  ∀ ref', ref' ≠ ref → deref ref' s1 = deref ref' s.
Proof.
  intros Hwf Htyped Hrun inc.
  destruct (reservedFor_typed ref _ Htyped) as [Hsame Hnone].
  destruct (update_occupants levels assertEnabled Hvalid arr ref s s1 Hwf Hrun) as [_ Ho].
  destruct (update_inv levels assertEnabled Hvalid arr ref s s1 Hwf Hrun)
    as (_ & Hnd & Htables).
  rewrite Hsame in Ho. split; [exact Ho|]. split.
  { eapply wf_table_clearSlots; [|exact Hwf]. by destruct (Htables ref). }
  split; [done|]. intros ref' Hne. destruct (Htables ref') as [Hfill Hc].
  unfold countedOccupants in Hfill.
  rewrite decide_False, (Hnone ref' Hne), fill_all_nil in Hfill by done.
  apply table_ext; [done|]. by injection Hfill.
Qed.

(** A table that already holds the counted particles, then particles of its
    type that wait, then empty slots, is left as it is. *)
Lemma update_stable (arr w : list Particle.t) (k : nat) (ref : ShellPositionsRef)
    (s : ShellModelNucleus) :
  wf_table levels (deref ref s) →
  (assertEnabled = true → NoDup arr) →
  occupants (deref ref s) = map Some arr ++ map Some w ++ replicate k None →
  Forall (fun q => getNucleonShellPositions (Particle.type q) = ref ∧ q ∉ arr) w →
  updateNucleonPositions levels assertEnabled arr ref s = Normal s.
Proof.
  intros Hwf Hnd Ho Hw.
  pose proof (wf_occupants_length levels Hvalid _ Hwf) as Hlen.
  rewrite Ho, !length_app, !length_map, length_replicate in Hlen.
  assert (incomingParticlesOf arr (deref ref s) = w) as Hinc.
  { rewrite incomingParticlesOf_flat, Ho, app_assoc, <- map_app, omap_counted, filter_app.
    rewrite filter_none by (apply Forall_forall; intros x Hx Hnot; by apply Hnot).
    simpl. apply filter_all. eapply Forall_impl; [exact Hw|]. by intros x [_ ?]. }
  destruct (reservedFor_typed ref w) as [Hsame Hnone].
  { eapply Forall_impl; [exact Hw|]. by intros x [? _]. }
  destruct (update_ok levels assertEnabled Hvalid arr ref s Hwf) as [s2 Hrun2];
    [lia|done| |].
  { intros ref'. rewrite Hinc. unfold countedOccupants.
    destruct (decide (ref' = ref)) as [->|Hne].
    - rewrite Hsame, fill_all_skip, fill_all_empty.
      rewrite decide_True by lia. by eexists.
    - rewrite Hnone by done. rewrite fill_all_nil. by eexists. }
  rewrite Hrun2. f_equal.
  destruct (update_inv levels assertEnabled Hvalid arr ref s s2 Hwf Hrun2)
    as (_ & _ & Htables).
  apply nucleus_ext. intros ref'. destruct (Htables ref') as [Hfill Hc].
  rewrite Hinc in Hfill. unfold countedOccupants in Hfill.
  apply table_ext; [done|].
  destruct (decide (ref' = ref)) as [->|Hne].
  - rewrite Hsame, fill_all_skip, fill_all_empty in Hfill.
    rewrite decide_True in Hfill by lia. simpl in Hfill. injection Hfill as <-.
    rewrite Ho. do 3 f_equal. lia.
  - rewrite Hnone, fill_all_nil in Hfill by done. by injection Hfill.
Qed.

End TypedTables.

(** X17. On tables of the constructor's shape whose waiting particles have the
    type of their table, a completed [reconfigureNucleus] leaves in each table
    the counted particles of its type followed by the particles that waited in
    it, and running it again on the result changes nothing. *)
Theorem reconfigureNucleus_occupants (levels : list EnergyLevelType.t)
    (assertEnabled : bool) `{view : ViewLayer} (protons neutrons : list Particle.t)
    (s s' : ShellModelNucleus) :
  levels_valid levels →
  (∀ ref, wf_table levels (deref ref s)) →
  Forall (fun q => getNucleonShellPositions (Particle.type q) = ProtonShells)
         (incomingParticlesOf protons (deref ProtonShells s)) →
  Forall (fun q => getNucleonShellPositions (Particle.type q) = NeutronShells)
         (incomingParticlesOf neutrons (deref NeutronShells s)) →
  reconfigureNucleus levels assertEnabled protons neutrons s = Normal s' →
  slotOccupants (deref ProtonShells s') =
    protons ++ incomingParticlesOf protons (deref ProtonShells s) ∧
  slotOccupants (deref NeutronShells s') =
    neutrons ++ incomingParticlesOf neutrons (deref NeutronShells s) ∧
  reconfigureNucleus levels assertEnabled protons neutrons s' = Normal s'.
Proof.
  intros Hvalid Hwf Hp Hn Hrun. unfold reconfigureNucleus in Hrun.
  destruct (updateNucleonPositions levels assertEnabled protons ProtonShells s)
    as [s1|] eqn:Hrun1; simpl in Hrun; [|done].
  destruct (update_typed levels assertEnabled Hvalid protons ProtonShells s s1
              (Hwf ProtonShells) Hp Hrun1) as (Hop & Hwfp & Hndp & Hframe1).
  pose proof (Hframe1 NeutronShells ltac:(done)) as Hn1.
  assert (wf_table levels (deref NeutronShells s1)) as Hwfn1 by (by rewrite Hn1).
  rewrite <- Hn1 in Hn.
  destruct (update_typed levels assertEnabled Hvalid neutrons NeutronShells s1 s'
              Hwfn1 Hn Hrun) as (Hon & Hwfn & Hndn & Hframe2).
  pose proof (Hframe2 ProtonShells ltac:(done)) as Hp2.
  rewrite Hn1 in Hon, Hn.
  assert (updateNucleonPositions levels assertEnabled protons ProtonShells s' = Normal s')
    as Hagain1.
  { eapply (update_stable levels assertEnabled Hvalid protons); [by rewrite Hp2|done| |].
    - rewrite Hp2. exact Hop.
    - pose proof (incomingParticlesOf_not_counted protons (deref ProtonShells s)) as Hnot.
      rewrite Forall_forall in Hp, Hnot. apply Forall_forall. intros q Hq.
      split; [by apply Hp|by apply Hnot]. }
  assert (updateNucleonPositions levels assertEnabled neutrons NeutronShells s' = Normal s')
    as Hagain2.
  { eapply (update_stable levels assertEnabled Hvalid neutrons); [done|done| |].
    - exact Hon.
    - pose proof (incomingParticlesOf_not_counted neutrons (deref NeutronShells s)) as Hnot.
      rewrite Forall_forall in Hn, Hnot. apply Forall_forall. intros q Hq.
      split; [by apply Hn|by apply Hnot]. }
  split_and!.
  - unfold slotOccupants. rewrite Hp2, Hop, app_assoc, <- map_app. apply omap_counted.
  - unfold slotOccupants. rewrite Hon, app_assoc, <- map_app. apply omap_counted.
  - unfold reconfigureNucleus. rewrite Hagain1. simpl. exact Hagain2.
Qed.

Lemma reconfigureNucleus_occupants_witness :
  ∃ s',
    reconfigureNucleus EnergyLevelType.ENERGY_LEVELS true (view := gridView)
      [proton 1; proton 2] [Particle.mk 3 NEUTRON] reservedExample = Normal s' ∧
    slotOccupants (deref ProtonShells s') = [proton 1; proton 2; proton 8] ∧
    slotOccupants (deref NeutronShells s') = [Particle.mk 3 NEUTRON] ∧
    reconfigureNucleus EnergyLevelType.ENERGY_LEVELS true (view := gridView)
      [proton 1; proton 2] [Particle.mk 3 NEUTRON] s' = Normal s'.
Proof.
  destruct (reconfigureNucleus EnergyLevelType.ENERGY_LEVELS true (view := gridView)
              [proton 1; proton 2] [Particle.mk 3 NEUTRON] reservedExample)
    as [s'|e] eqn:Hrun; [|vm_compute in Hrun; discriminate Hrun].
  exists s'. split; [reflexivity|].
  apply (reconfigureNucleus_occupants EnergyLevelType.ENERGY_LEVELS true
           (view := gridView) [proton 1; proton 2] [Particle.mk 3 NEUTRON]
           reservedExample s').
  - exact ENERGY_LEVELS_valid.
  - intros []; vm_compute; reflexivity.
  - vm_compute. repeat constructor.
  - vm_compute. repeat constructor.
  - exact Hrun.
Defined.

(** ** The lines of NucleonShellView.ts *)

Lemma countParticlesInShell_occupied (table : ShellPositions) :
  NucleonShellView.countParticlesInShell table = Z.of_nat (length (slotOccupants table)).
Proof.
  unfold NucleonShellView.countParticlesInShell.
  assert (∀ (row : list ParticleShellPosition) (acc : Z),
            foldl (fun total pos => if particle pos is Some _ then total + 1 else total)
                  acc row =
              acc + Z.of_nat (length (omap id (map particle row)))) as Hrow.
  { induction row as [|pos row IH]; intros acc; simpl; [lia|].
    rewrite IH. unfold omap. destruct (particle pos); simpl; lia. }
  assert (∀ (t : ShellPositions) (acc : Z),
            foldl (fun total row =>
                     foldl (fun total pos =>
                              if particle pos is Some _ then total + 1 else total)
                           total row) acc t =
              acc + Z.of_nat (length (slotOccupants t))) as Htable.
  { induction t as [|row t IH]; intros acc; [simpl; lia|].
    cbn [foldl]. rewrite IH, Hrow. unfold slotOccupants.
    rewrite occupants_cons, omap_app, length_app. lia. }
  rewrite Htable. lia.
Qed.

Lemma rowCapacities_wf (levels : list EnergyLevelType.t) (table : ShellPositions) :
  levels_valid levels → wf_table levels table →
  NucleonShellView.rowCapacities table = map capacity levels.
Proof.
  intros Hvalid Hwf. pose proof (wf_table_length levels table Hwf) as Hlen.
  apply list_eq. intros r. unfold NucleonShellView.rowCapacities.
  rewrite !list_lookup_fmap.
  destruct (table !! r) as [row|] eqn:Hrow; destruct (levels !! r) as [level|] eqn:Hl;
    simpl.
  - pose proof (wf_row_length levels Hvalid table r row Hwf Hrow) as Hr.
    unfold rowCapacity in Hr. rewrite Hl in Hr. simpl in Hr. by rewrite Hr.
  - apply lookup_lt_Some in Hrow. apply lookup_ge_None in Hl. lia.
  - apply lookup_ge_None in Hrow. apply lookup_lt_Some in Hl. lia.
  - done.
Qed.

Lemma sumZ_positive_nonneg (caps : list Z) : Forall (fun c => 0 < c) caps → 0 ≤ sumZ caps.
Proof. induction 1 as [|c caps Hc _ IH]; simpl; lia. Qed.

Lemma updateLines_for_spec (assertEnabled : bool) (caps : list Z) (rowIndex remaining : Z) :
  Forall (fun c => 0 < c) caps →
  ∃ lines,
    NucleonShellView.updateLines_for assertEnabled caps rowIndex remaining = Normal lines ∧
    length lines = length caps ∧
    (∀ (r : nat) (c : Z), caps !! r = Some c →
       lines !! r =
         Some {| NucleonShellView.filled :=
                   Z.max 0 (Z.min c (remaining - sumZ (take r caps)));
                 NucleonShellView.cap := c;
                 NucleonShellView.lineWidth :=
                   if decide (sumZ (take (S r) caps) ≤ remaining)
                   then NucleonShellView.boldEnergyLevelWidth
                   else NucleonShellView.defaultEnergyLevelWidth |}) ∧
    sumZ (map NucleonShellView.filled lines) = Z.max 0 (Z.min remaining (sumZ caps)).
Proof.
  intros Hpos. revert rowIndex remaining.
  induction Hpos as [|c caps Hc Hpos IH]; intros rowIndex remaining.
  - exists []. split_and!; [done|done| |simpl; lia]. intros r c Hr. done.
  - destruct (IH (rowIndex + 1) (remaining - c)) as (lines & Hrun & Hlen & Hrows & Hsum).
    pose proof (sumZ_positive_nonneg caps Hpos) as Hnonneg.
    eexists. split_and!.
    + cbn [NucleonShellView.updateLines_for]. unfold assert_.
      rewrite bool_decide_eq_true_2 by lia. rewrite andb_false_r. simpl.
      rewrite Hrun. simpl. reflexivity.
    + simpl. by rewrite Hlen.
    + intros [|r] c' Hr.
      * simpl in Hr. injection Hr as <-. simpl. do 2 f_equal; [f_equal; lia|].
        repeat case_decide; try done; lia.
      * simpl in Hr. etransitivity; [exact (Hrows r c' Hr)|].
        change (take (S (S r)) (c :: caps)) with (c :: take (S r) caps).
        change (take (S r) (c :: caps)) with (c :: take r caps).
        cbn [sumZ foldr]. fold (sumZ (take r caps)). fold (sumZ (take (S r) caps)).
        do 2 f_equal.
        -- do 2 f_equal. lia.
        -- repeat case_decide; try done; lia.
    + cbn [map sumZ foldr NucleonShellView.filled].
      fold (sumZ (map NucleonShellView.filled lines)). fold (sumZ caps).
      rewrite Hsum. lia.
Qed.

Lemma contiguous_segment (xs : list Particle.t) (k : nat)
    (l1 mid l2 : list (option Particle.t)) :
  l1 ++ mid ++ l2 = map Some xs ++ replicate k None →
  Z.of_nat (length (omap id mid)) =
    Z.max 0 (Z.min (Z.of_nat (length mid)) (Z.of_nat (length xs) - Z.of_nat (length l1))).
Proof.
  revert xs k. induction l1 as [|o l1 IH]; intros xs k Heq.
  - simpl in Heq. revert xs k Heq. induction mid as [|o mid IHmid]; intros xs k Heq.
    + simpl. lia.
    + destruct xs as [|x xs].
      * destruct k as [|k]; [done|]. simpl in Heq. injection Heq as -> Heq.
        specialize (IHmid [] k Heq). simpl in *. unfold omap in *. lia.
      * simpl in Heq. injection Heq as -> Heq.
        specialize (IHmid xs k Heq). simpl in *. unfold omap in *. lia.
  - destruct xs as [|x xs].
    + destruct k as [|k]; [done|]. simpl in Heq. injection Heq as -> Heq.
      specialize (IH [] k Heq). simpl in *. unfold omap in *. lia.
    + simpl in Heq. injection Heq as -> Heq.
      specialize (IH xs k Heq). simpl in *. unfold omap in *. lia.
Qed.

(** X18. For tables of the constructor's shape the listener of
    [NucleonShellView] completes and sets one line per level: with [count]
    occupied slots, line [r] shows [max 0 (min cap (count - capacity below r))]
    of its [cap] slots, is bold exactly when [count] reaches the capacity
    through row [r], and the shown amounts add up to [count]. *)
Theorem updateLines_fill_levels (levels : list EnergyLevelType.t) (assertEnabled : bool)
    (built table : ShellPositions) :
  levels_valid levels → wf_table levels built → wf_table levels table →
  let count := Z.of_nat (length (slotOccupants table)) in
  ∃ lines,
    NucleonShellView.updateLines assertEnabled built table = Normal lines ∧
    length lines = length levels ∧
    (∀ (r : nat) (level : EnergyLevelType.t), levels !! r = Some level →
       lines !! r =
         Some {| NucleonShellView.filled :=
                   Z.max 0 (Z.min (capacity level) (count - cumulativeCapacity levels r));
                 NucleonShellView.cap := capacity level;
                 NucleonShellView.lineWidth :=
                   if decide (cumulativeCapacity levels (S r) ≤ count)
                   then NucleonShellView.boldEnergyLevelWidth
                   else NucleonShellView.defaultEnergyLevelWidth |}) ∧
    sumZ (map NucleonShellView.filled lines) = count.
Proof.
  intros Hvalid Hbuilt Hwf count. unfold NucleonShellView.updateLines.
  rewrite (rowCapacities_wf levels built Hvalid Hbuilt), countParticlesInShell_occupied.
  fold count.
  destruct (updateLines_for_spec assertEnabled (map capacity levels) 0 count)
    as (lines & Hrun & Hlen & Hrows & Hsum).
  { destruct Hvalid as [_ Hpos]. by apply Forall_fmap. }
  exists lines. split_and!; [done|by rewrite Hlen, length_map| |].
  - intros r level Hr. apply (Hrows r (capacity level)).
    by rewrite list_lookup_fmap, Hr.
  - rewrite Hsum, <- TOTAL_CAPACITY_sum.
    pose proof (wf_occupants_length levels Hvalid table Hwf) as Htotal.
    assert (length (slotOccupants table) ≤ length (occupants table))%nat as Hle.
    { unfold slotOccupants. generalize (occupants table). intros os.
      induction os as [|[x|] os IH]; simpl; unfold omap in *; lia. }
    unfold count. lia.
Qed.

Lemma updateLines_fill_levels_witness :
  ∃ lines,
    NucleonShellView.updateLines true
      (deref ProtonShells (constructor EnergyLevelType.ENERGY_LEVELS))
      (deref ProtonShells reservedExample) = Normal lines ∧
    length lines = 10%nat ∧
    lines !! 0%nat =
      Some {| NucleonShellView.filled := 1; NucleonShellView.cap := 2;
              NucleonShellView.lineWidth := 1 |} ∧
    sumZ (map NucleonShellView.filled lines) = 1.
Proof.
  destruct (updateLines_fill_levels EnergyLevelType.ENERGY_LEVELS true
              (deref ProtonShells (constructor EnergyLevelType.ENERGY_LEVELS))
              (deref ProtonShells reservedExample))
    as (lines & Hrun & Hlen & Hrows & Hsum).
  - exact ENERGY_LEVELS_valid.
  - vm_compute. reflexivity.
  - vm_compute. reflexivity.
  - exists lines. split_and!; [exact Hrun|exact Hlen| |exact Hsum].
    exact (Hrows 0%nat EnergyLevelType._1s1_2 eq_refl).
Defined.

(** X19. After a completed [updateNucleonPositions] the lines of the view of
    that table show the table as it is: the listener completes and each line
    shows exactly the number of occupied slots of its row. *)
Theorem updateLines_after_update (levels : list EnergyLevelType.t)
    (assertEnabled : bool) `{view : ViewLayer} (arr : list Particle.t)
    (ref : ShellPositionsRef) (s s1 : ShellModelNucleus) :
  levels_valid levels → wf_table levels (deref ref s) →
  updateNucleonPositions levels assertEnabled arr ref s = Normal s1 →
  ∃ lines,
    NucleonShellView.updateLines assertEnabled (deref ref s) (deref ref s1) =
      Normal lines ∧
    ∀ (r : nat) (row : list ParticleShellPosition), deref ref s1 !! r = Some row →
      NucleonShellView.filled <$> lines !! r =
        Some (Z.of_nat (length (omap particle row))).
Proof.
  intros Hvalid Hwf Hrun.
  destruct (update_occupants levels assertEnabled Hvalid arr ref s s1 Hwf Hrun) as [_ Ho].
  rewrite app_assoc, <- map_app in Ho.
  assert (wf_table levels (deref ref s1)) as Hwf1.
  { eapply wf_table_clearSlots; [|exact Hwf].
    by apply (updateNucleonPositions_skeleton _ _ _ _ _ _ Hrun). }
  unfold NucleonShellView.updateLines.
  rewrite (rowCapacities_wf levels _ Hvalid Hwf), countParticlesInShell_occupied.
  unfold slotOccupants at 1. rewrite Ho, omap_counted.
  destruct (updateLines_for_spec assertEnabled (map capacity levels) 0
              (Z.of_nat (length (arr ++
                 reservedFor ref (incomingParticlesOf arr (deref ref s))))))
    as (lines & Hlines & _ & Hrows & _).
  { destruct Hvalid as [_ Hpos]. by apply Forall_fmap. }
  exists lines. split; [done|]. intros r row Hrow.
  pose proof (lookup_lt_Some _ _ _ Hrow) as Hr.
  rewrite (wf_table_length levels _ Hwf1) in Hr.
  destruct (lookup_lt_is_Some_2 levels r Hr) as [level Hlevel].
  rewrite (Hrows r (capacity level)) by (by rewrite list_lookup_fmap, Hlevel).
  simpl. f_equal.
  pose proof (wf_row_length levels Hvalid _ r row Hwf1 Hrow) as Hcap.
  unfold rowCapacity in Hcap. rewrite Hlevel in Hcap. simpl in Hcap.
  pose proof (wf_flat_offset levels Hvalid _ r Hwf1 ltac:(lia)) as Hoff.
  rewrite <- (take_drop_middle _ _ _ Hrow) in Ho.
  rewrite occupants_app, occupants_cons in Ho.
  pose proof (contiguous_segment _ _ _ _ _ Ho) as Hseg.
  rewrite length_map, Hcap, Hoff in Hseg.
  assert (omap id (map particle row) = omap particle row) as Hid.
  { clear. induction row as [|pos row IH]; [done|].
    simpl. unfold omap in IH. rewrite IH. by destruct (particle pos). }
  rewrite Hid in Hseg. rewrite Hseg. fold (cumulativeCapacity levels r). done.
Qed.

Lemma updateLines_after_update_witness :
  ∃ s1 lines,
    updateNucleonPositions EnergyLevelType.ENERGY_LEVELS true (view := gridView)
      [proton 1; proton 2] ProtonShells reservedExample = Normal s1 ∧
    NucleonShellView.updateLines true (deref ProtonShells reservedExample)
      (deref ProtonShells s1) = Normal lines ∧
    NucleonShellView.filled <$> lines !! 1%nat = Some 1.
Proof.
  destruct (updateNucleonPositions EnergyLevelType.ENERGY_LEVELS true (view := gridView)
              [proton 1; proton 2] ProtonShells reservedExample)
    as [s1|e] eqn:Hrun; [|vm_compute in Hrun; discriminate Hrun].
  destruct (updateLines_after_update EnergyLevelType.ENERGY_LEVELS true
              (view := gridView) [proton 1; proton 2] ProtonShells reservedExample s1)
    as (lines & Hlines & Hrows).
  - exact ENERGY_LEVELS_valid.
  - vm_compute. reflexivity.
  - exact Hrun.
  - exists s1, lines. split; [reflexivity|]. split; [exact Hlines|].
    destruct (deref ProtonShells s1 !! 1%nat) as [row|] eqn:Hrow.
    + rewrite (Hrows 1%nat row Hrow). f_equal.
      vm_compute in Hrun. injection Hrun as <-. vm_compute in Hrow.
      injection Hrow as <-. reflexivity.
    + vm_compute in Hrun. injection Hrun as <-. vm_compute in Hrow. discriminate Hrow.
Defined.
